(** * dylibbundler: dependency collection and bundling

    A shallow embedding of [src/consolidated/bundler.cpp].  The program is
    written around a handful of process-wide globals ([deps],
    [deps_per_file], [deps_collected], the [Settings] namespace, ...) and
    talks to the outside through [realpath], [access], [popen], [system],
    [getenv] and [std::cin].  The globals become one record [State] that
    is threaded through every function; the outside world is an abstract
    [Platform]. *)

From Stdlib Require Import ZArith Ascii.
From stdpp Require Import gmap strings list fin_maps.

(** ** [std::string] operations used by the program *)

Definition ascii_eqb (a b : ascii) : bool := bool_decide (a = b).
Definition string_eqb (a b : string) : bool := bool_decide (a = b).

Definition is_empty (s : string) : bool :=
  match s with EmptyString => true | String _ _ => false end.

(** [s.find(pat)]; [None] is [std::string::npos]. *)
Fixpoint find (pat s : string) : option nat :=
  if String.prefix pat s then Some 0
  else match s with
       | EmptyString => None
       | String _ s' => S <$> find pat s'
       end.

(** [s.rfind(pat)]. *)
Fixpoint rfind (pat s : string) : option nat :=
  match s with
  | EmptyString => if String.prefix pat s then Some 0 else None
  | String _ s' =>
      match rfind pat s' with
      | Some n => Some (S n)
      | None => if String.prefix pat s then Some 0 else None
      end
  end.

(** [s.find(pat) != std::string::npos] *)
Definition contains (pat s : string) : bool :=
  match find pat s with Some _ => true | None => false end.

(** [s.find(pat) == 0] *)
Definition starts_with (pat s : string) : bool :=
  match find pat s with Some 0 => true | _ => false end.

Fixpoint drop_str (n : nat) (s : string) : string :=
  match n, s with
  | 0, _ => s
  | S n', String _ s' => drop_str n' s'
  | S _, EmptyString => EmptyString
  end.

Fixpoint take_str (n : nat) (s : string) : string :=
  match n, s with
  | S n', String c s' => String c (take_str n' s')
  | _, _ => EmptyString
  end.

(** [npos + 1] wraps around to [0]. *)
Definition pos_plus_one (p : option nat) : nat :=
  match p with Some n => S n | None => 0 end.

(** [s[s.size() - 1]]; [None] on the empty string, where the index is out
    of range. *)
Fixpoint last_char (s : string) : option ascii :=
  match s with
  | EmptyString => None
  | String c EmptyString => Some c
  | String _ s' => last_char s'
  end.

(** The idiom [if (!s.empty() && s[s.size() - 1] != '/') s += "/"]. *)
Definition ensure_trailing_slash (s : string) : string :=
  match last_char s with
  | Some c => if ascii_eqb c "/" then s else s +:+ "/"
  | None => s
  end.

(** [rtrim]: erase everything after the last character that is not
    [std::isspace]. *)
Fixpoint rtrim (s : string) : string :=
  match s with
  | EmptyString => EmptyString
  | String c s' =>
      match rtrim s' with
      | EmptyString => if Ascii.is_space c then EmptyString else String c EmptyString
      | r => String c r
      end
  end.

(** [s.substr(s.find_first_not_of(" \f\n\r\t\v"))] for a string that has
    such a character. *)
Fixpoint ltrim (s : string) : string :=
  match s with
  | EmptyString => EmptyString
  | String c s' => if Ascii.is_space c then ltrim s' else s
  end.

(** [stripPrefix] *)
Definition stripPrefix (s : string) : string :=
  drop_str (pos_plus_one (rfind "/" s)) s.

(** [in.substr(0, in.rfind("/") + 1)] *)
Definition dirPrefix (s : string) : string :=
  take_str (pos_plus_one (rfind "/" s)) s.

(** [tokenize]: the maximal runs of characters that are not delimiters, in
    order.  [cur] is the token being read. *)
Fixpoint tokenize_from (delims : list ascii) (s cur : string) : list string :=
  match s with
  | EmptyString => if is_empty cur then [] else [cur]
  | String c s' =>
      if bool_decide (c ∈ delims) then
        if is_empty cur then tokenize_from delims s' EmptyString
        else cur :: tokenize_from delims s' EmptyString
      else tokenize_from delims s' (cur +:+ String c EmptyString)
  end.

Definition tokenize (str : string) (delimiters : list ascii) : list string :=
  tokenize_from delimiters str EmptyString.

(** The loop [while (std::getline(ss, item, ':'))]: the pieces between
    delimiters; a final empty piece is not produced. *)
Fixpoint getline_all (delim : ascii) (s cur : string) : list string :=
  match s with
  | EmptyString => if is_empty cur then [] else [cur]
  | String c s' =>
      if ascii_eqb c delim then cur :: getline_all delim s' EmptyString
      else getline_all delim s' (cur +:+ String c EmptyString)
  end.

Definition newline : ascii := "010"%char.
Definition tab : ascii := "009"%char.
Definition dquote : string := String "034"%char EmptyString.

(** ** The outside world *)

(** What the program asks of the operating system and of the C++ standard
    library.  [World] is the state of the machine (file system,
    environment); [system] and [mkdtemp] change it.  [popen] is taken to
    read it only: the program hands it [otool -l] on a file and [machine],
    with the file name between double quotes as it is. *)
Class Platform (World : Type) := {
  (** [access(path, F_OK) != -1] *)
  access_ok : World -> string -> bool;
  (** [realpath(path, buffer)]: the resolved path, [None] for [NULL] *)
  realpath : World -> string -> option string;
  (** what [system_get_output(cmd)] returns: the output of the command,
      the empty string when it could not be run or failed *)
  popen_output : World -> string -> string;
  (** [system(cmd)]: the status and the machine afterwards *)
  system : World -> string -> Z * World;
  (** [std::getenv(name)] *)
  getenv : World -> string -> option string;
  (** [std::regex_replace(subject, std::regex(re), fmt)] *)
  regex_replace : string -> string -> string -> string;
}.

(** [mkdtemp(template)]: the name of the directory made, [None] for
    [NULL], and the machine afterwards. *)
Class TempDir (World : Type) := {
  mkdtemp : World -> string -> option string * World;
}.

(** ** Program state *)

(** [class Dependency] *)
Record Dependency := mkDependency {
  filename : string;
  prefix : string;
  symlinks : list string;
  new_name : string;
}.

(** The variables of [namespace Settings]. *)
Record Settings := mkSettings {
  overwrite_files : bool;
  overwrite_dir : bool;
  create_dir : bool;
  codesign : bool;
  bundleLibs_bool : bool;
  dest_folder_str : string;
  files : list string;
  inside_path_str : string;
  prefixes_to_ignore : list string;
  searchPaths : list string;
}.

(** What the run has shown of itself: the commands handed to [systemp], in
    order, and the diagnostics written to [std::cerr], without their line
    breaks.  Progress output on [std::cout] is left out. *)
Inductive event :=
  | Exec (cmd : string)
  | Stderr (msg : string).

Section Program.
Context {World : Type} `{Platform World}.

(** The globals of the translation unit, the machine, the tokens still to
    be read from [std::cin] and the trace. *)
Record State := mkState {
  settings : Settings;
  missing_prefixes : bool;
  deps : list Dependency;
  deps_per_file : gmap string (list Dependency);
  deps_collected : gmap string bool;
  rpaths_per_file : gmap string (list string);
  rpath_to_fullpath : gmap string string;
  world : World;
  stdin : list string;
  trace : list event;
}.

Definition set_settings (v : Settings) (st : State) : State :=
  mkState v (missing_prefixes st) (deps st) (deps_per_file st)
    (deps_collected st) (rpaths_per_file st) (rpath_to_fullpath st)
    (world st) (stdin st) (trace st).
Definition set_missing_prefixes (v : bool) (st : State) : State :=
  mkState (settings st) v (deps st) (deps_per_file st)
    (deps_collected st) (rpaths_per_file st) (rpath_to_fullpath st)
    (world st) (stdin st) (trace st).
Definition set_deps (v : list Dependency) (st : State) : State :=
  mkState (settings st) (missing_prefixes st) v (deps_per_file st)
    (deps_collected st) (rpaths_per_file st) (rpath_to_fullpath st)
    (world st) (stdin st) (trace st).
Definition set_deps_per_file (v : gmap string (list Dependency)) (st : State) : State :=
  mkState (settings st) (missing_prefixes st) (deps st) v
    (deps_collected st) (rpaths_per_file st) (rpath_to_fullpath st)
    (world st) (stdin st) (trace st).
Definition set_deps_collected (v : gmap string bool) (st : State) : State :=
  mkState (settings st) (missing_prefixes st) (deps st) (deps_per_file st)
    v (rpaths_per_file st) (rpath_to_fullpath st)
    (world st) (stdin st) (trace st).
Definition set_rpaths_per_file (v : gmap string (list string)) (st : State) : State :=
  mkState (settings st) (missing_prefixes st) (deps st) (deps_per_file st)
    (deps_collected st) v (rpath_to_fullpath st)
    (world st) (stdin st) (trace st).
Definition set_rpath_to_fullpath (v : gmap string string) (st : State) : State :=
  mkState (settings st) (missing_prefixes st) (deps st) (deps_per_file st)
    (deps_collected st) (rpaths_per_file st) v
    (world st) (stdin st) (trace st).
Definition set_world (v : World) (st : State) : State :=
  mkState (settings st) (missing_prefixes st) (deps st) (deps_per_file st)
    (deps_collected st) (rpaths_per_file st) (rpath_to_fullpath st)
    v (stdin st) (trace st).
Definition set_stdin (v : list string) (st : State) : State :=
  mkState (settings st) (missing_prefixes st) (deps st) (deps_per_file st)
    (deps_collected st) (rpaths_per_file st) (rpath_to_fullpath st)
    (world st) v (trace st).
Definition set_trace (v : list event) (st : State) : State :=
  mkState (settings st) (missing_prefixes st) (deps st) (deps_per_file st)
    (deps_collected st) (rpaths_per_file st) (rpath_to_fullpath st)
    (world st) (stdin st) v.

Definition set_searchPaths (v : list string) (s : Settings) : Settings :=
  mkSettings (overwrite_files s) (overwrite_dir s) (create_dir s) (codesign s)
    (bundleLibs_bool s) (dest_folder_str s) (files s) (inside_path_str s)
    (prefixes_to_ignore s) v.

(** ** Control *)

(** How a computation can end other than by returning. *)
Inductive reason :=
  | ExitCode (code : Z)   (** [exit(code)] *)
  | Hang                  (** the prompt loop of [getUserInputDirForFile]
                              spinning on an exhausted [std::cin] *)
  | Abort                 (** an uncaught [std::out_of_range], or an index
                              outside its string *)
  | OutOfFuel.            (** the model's bound on a [while (true)] loop *)

Inductive outcome (A : Type) :=
  | Ret (a : A) (st : State)
  | Stop (r : reason) (st : State).
Arguments Ret {A} a st.
Arguments Stop {A} r st.

Definition M (A : Type) : Type := State -> outcome A.

Definition ret {A} (a : A) : M A := fun st => Ret a st.
Definition bind {A B} (m : M A) (k : A -> M B) : M B :=
  fun st => match m st with
            | Ret a st' => k a st'
            | Stop r st' => Stop r st'
            end.
Definition gets {A} (f : State -> A) : M A := fun st => Ret (f st) st.
Definition modify (f : State -> State) : M unit := fun st => Ret tt (f st).
Definition stop {A} (r : reason) : M A := fun st => Stop r st.
Definition exit {A} (code : Z) : M A := stop (ExitCode code).

Notation "'let*' x ':=' m 'in' k" := (bind m (fun x => k))
  (at level 10, x name, m at level 100, k at level 200).
Notation "m1 ';;' m2" := (bind m1 (fun _ => m2))
  (at level 100, m2 at level 200, right associativity, only parsing).

Definition when (b : bool) (m : M unit) : M unit := if b then m else ret tt.

(** [std::cerr << msg] *)
Definition cerr (msg : string) : M unit :=
  modify (fun st => set_trace (trace st ++ [Stderr msg]) st).


(** ** [namespace Settings] *)

Definition canOverwriteFiles : M bool := gets (fun st => overwrite_files (settings st)).
Definition canOverwriteDir : M bool := gets (fun st => overwrite_dir (settings st)).
Definition canCreateDir : M bool := gets (fun st => create_dir (settings st)).
Definition canCodesign : M bool := gets (fun st => codesign (settings st)).
Definition bundleLibs : M bool := gets (fun st => bundleLibs_bool (settings st)).
Definition destFolder : M string := gets (fun st => dest_folder_str (settings st)).
Definition inside_lib_path : M string := gets (fun st => inside_path_str (settings st)).

Definition addSearchPath (path : string) : M unit :=
  modify (fun st =>
    set_settings (set_searchPaths (searchPaths (settings st) ++ [path]) (settings st)) st).

(** [Settings::ignore_prefix], on the configuration being built.  The
    index [prefix.size() - 1] is outside an empty [prefix]. *)
Definition ignore_prefix (prefix : string) (s : Settings) : option Settings :=
  match last_char prefix with
  | None => None
  | Some c =>
      let prefix := if ascii_eqb c "/" then prefix else prefix +:+ "/" in
      Some (mkSettings (overwrite_files s) (overwrite_dir s) (create_dir s)
              (codesign s) (bundleLibs_bool s) (dest_folder_str s) (files s)
              (inside_path_str s) (prefixes_to_ignore s ++ [prefix])
              (searchPaths s))
  end.

Definition isSystemLibrary (prefix : string) : bool :=
  if starts_with "/usr/lib/" prefix then true
  else if starts_with "/System/Library/" prefix then true
  else false.

(** The loop compares with [std::string::compare]: the two strings are
    equal. *)
Fixpoint isPrefixIgnored_in (ignored : list string) (prefix : string) : bool :=
  match ignored with
  | [] => false
  | p :: rest => if string_eqb prefix p then true else isPrefixIgnored_in rest prefix
  end.

Definition isPrefixIgnored (s : Settings) (prefix : string) : bool :=
  isPrefixIgnored_in (prefixes_to_ignore s) prefix.

Definition isPrefixBundled (s : Settings) (prefix : string) : bool :=
  if contains ".framework" prefix then false
  else if contains "@executable_path" prefix then false
  else if isSystemLibrary prefix then false
  else if isPrefixIgnored s prefix then false
  else true.

(** ** Helpers on files and processes *)

(** [fileExists].  When [access] fails on the name as given, the name is
    tried again without surrounding white space; [substr] throws on a name
    made of white space only. *)
Definition fileExists (filename : string) : M bool :=
  let* w := gets world in
  if access_ok w filename then ret true
  else
    let rtrimmed := rtrim filename in
    if is_empty rtrimmed then stop Abort
    else ret (access_ok w (ltrim rtrimmed)).

(** [systemp]: shows the command, runs it, returns its status. *)
Definition systemp (cmd : string) : M Z :=
  modify (fun st => set_trace (trace st ++ [Exec cmd]) st);;
  let* w := gets world in
  modify (set_world (snd (system w cmd)));;
  ret (fst (system w cmd)).

Definition system_get_output (cmd : string) : M string :=
  gets (fun st => popen_output (world st) cmd).

Definition nonzero (rc : Z) : bool := negb (Z.eqb rc 0).

Definition quoted (s : string) : string := dquote +:+ s +:+ dquote.

Definition changeInstallName_cmd (binary_file old_name new_name : string) : string :=
  "install_name_tool -change " +:+ quoted old_name +:+ " " +:+ quoted new_name
    +:+ " " +:+ quoted binary_file.

Definition changeInstallName (binary_file old_name new_name : string) : M unit :=
  let* rc := systemp (changeInstallName_cmd binary_file old_name new_name) in
  if nonzero rc then
    cerr ("Error: An error occured while trying to fix dependencies of " +:+ binary_file);;
    exit 1
  else ret tt.

Definition cp_cmd (override : bool) (from to : string) : string :=
  "cp " +:+ (if override then "-f " else "-n ") +:+ quoted from +:+ " " +:+ quoted to.

Definition chmod_cmd (to : string) : string := "chmod +w " +:+ quoted to.

Definition copyFile (from to : string) : M unit :=
  let* override := canOverwriteFiles in
  (if negb (string_eqb from to) && negb override then
     let* e := fileExists to in
     if e then
       cerr ("Error : File " +:+ to +:+ " already exists. Remove it or enable overwriting.");;
       exit 1
     else ret tt
   else ret tt);;
  (if negb (string_eqb from to) then
     let* rc := systemp (cp_cmd override from to) in
     if nonzero rc then
       cerr ("Error : An error occured while trying to copy file " +:+ from +:+ " to " +:+ to);;
       exit 1
     else ret tt
   else ret tt);;
  let* rc := systemp (chmod_cmd to) in
  if nonzero rc then
    cerr ("Error : An error occured while trying to set write permissions on file " +:+ to);;
    exit 1
  else ret tt.

(** [getUserInputDirForFile], first loop: the configured search paths. *)
Fixpoint searchPathsForFile (paths : list string) (filename : string) : M (option string) :=
  match paths with
  | [] => ret None
  | p :: rest =>
      let searchPath := ensure_trailing_slash p in
      let* e := fileExists (searchPath +:+ filename) in
      if e then
        cerr (searchPath +:+ filename +:+ " was found. /!\ DYLIBBUNDLER MAY NOT CORRECTLY HANDLE THIS DEPENDENCY: Manually check the executable with 'otool -L'");;
        ret (Some searchPath)
      else searchPathsForFile rest filename
  end.

(** [getUserInputDirForFile], second loop: one turn per token of
    [std::cin].  Once the input is exhausted [std::cin >> prefix] leaves
    [prefix] empty on every turn, so the loop either accepts the empty
    directory or never ends. *)
Fixpoint promptForDir (input : list string) (filename : string) : M string :=
  match input with
  | [] =>
      let* e := fileExists filename in
      if e then
        cerr (filename +:+ " was found. /!\ DYLIBBUNDLER MAY NOT CORRECTLY HANDLE THIS DEPENDENCY: Manually check the executable with 'otool -L'");;
        addSearchPath EmptyString;;
        ret EmptyString
      else
        cerr (filename +:+ " does not exist. Try again");;
        stop Hang
  | tok :: rest =>
      modify (set_stdin rest);;
      if string_eqb tok "quit" then exit 1
      else
        let prefix := ensure_trailing_slash tok in
        let* e := fileExists (prefix +:+ filename) in
        if e then
          cerr (prefix +:+ filename +:+ " was found. /!\ DYLIBBUNDLER MAY NOT CORRECTLY HANDLE THIS DEPENDENCY: Manually check the executable with 'otool -L'");;
          addSearchPath prefix;;
          ret prefix
        else
          cerr (prefix +:+ filename +:+ " does not exist. Try again");;
          promptForDir rest filename
  end.

Definition getUserInputDirForFile (filename : string) : M string :=
  let* paths := gets (fun st => searchPaths (settings st)) in
  let* found := searchPathsForFile paths filename in
  match found with
  | Some p => ret p
  | None =>
      let* input := gets stdin in
      promptForDir input filename
  end.

(** ** [class Dependency] *)

Definition getOriginalFileName (d : Dependency) : string := filename d.
Definition getOriginalPath (d : Dependency) : string := prefix d +:+ filename d.
Definition getPrefix (d : Dependency) : string := prefix d.
Definition getInstallPath (d : Dependency) : M string :=
  let* dest := destFolder in ret (dest +:+ new_name d).
Definition getInnerPath (d : Dependency) : M string :=
  let* inner := inside_lib_path in ret (inner +:+ new_name d).

(** [Dependency::addSymlink], on the vector of symlinks. *)
Definition addSymlink (s : string) (syms : list string) : list string :=
  if bool_decide (s ∈ syms) then syms else syms ++ [s].

Definition with_symlinks (syms : list string) (d : Dependency) : Dependency :=
  mkDependency (filename d) (prefix d) syms (new_name d).

(** [this->mergeIfSameAs(dep2)]: the flag returned and [dep2] afterwards;
    [this] is not changed. *)
Definition mergeIfSameAs (this dep2 : Dependency) : bool * Dependency :=
  if string_eqb (getOriginalFileName dep2) (filename this) then
    (true, with_symlinks (foldl (fun syms s => addSymlink s syms) (symlinks dep2) (symlinks this)) dep2)
  else (false, dep2).

(** [initSearchPaths] *)
Definition join_env (acc : string) (v : option string) : string :=
  match v with
  | None => acc
  | Some p =>
      (match last_char acc with
       | Some c => if ascii_eqb c ":" then acc else acc +:+ ":"
       | None => acc
       end) +:+ p
  end.

Fixpoint addSearchPathItems (items : list string) : M unit :=
  match items with
  | [] => ret tt
  | item :: rest =>
      match last_char item with
      | None => stop Abort
      | Some c =>
          addSearchPath (if ascii_eqb c "/" then item else item +:+ "/");;
          addSearchPathItems rest
      end
  end.

Definition initSearchPaths : M unit :=
  let* w := gets world in
  let searchPaths :=
    join_env (join_env (join_env EmptyString (getenv w "DYLD_LIBRARY_PATH"))
                (getenv w "DYLD_FALLBACK_FRAMEWORK_PATH"))
      (getenv w "DYLD_FALLBACK_LIBRARY_PATH") in
  if is_empty searchPaths then ret tt
  else addSearchPathItems (getline_all ":" searchPaths EmptyString).

(** ** Resolution of [@rpath] and [@loader_path] references *)

Definition isRpath (path : string) : bool :=
  starts_with "@rpath" path || starts_with "@loader_path" path.

(** The lambda [check_path] of [searchFilenameInRpaths]: on success the
    resolved path, which is also stored in [rpath_to_fullpath]. *)
Definition check_path (rpath_file dependent_file path : string) : M (option string) :=
  let file_prefix := dirPrefix dependent_file in
  if negb (string_eqb dependent_file rpath_file) then
    let path_to_check :=
      if contains "@loader_path" path then regex_replace path "@loader_path/" file_prefix
      else if contains "@rpath" path then regex_replace path "@rpath/" file_prefix
      else EmptyString in
    let* w := gets world in
    match realpath w path_to_check with
    | Some fullpath =>
        modify (fun st =>
          set_rpath_to_fullpath (<[rpath_file := fullpath]> (rpath_to_fullpath st)) st);;
        ret (Some fullpath)
    | None => ret None
    end
  else ret None.

(** The loop over the rpaths of the dependent file; [true] when it was
    left by [break]. *)
Fixpoint check_rpaths (rpath_file dependent_file suffix : string)
    (rpaths : list string) : M bool :=
  match rpaths with
  | [] => ret false
  | rpath :: rest =>
      match last_char rpath with
      | None => stop Abort
      | Some c =>
          let rpath := if ascii_eqb c "/" then rpath else rpath +:+ "/" in
          let* r := check_path rpath_file dependent_file (rpath +:+ suffix) in
          match r with
          | Some _ => ret true
          | None => check_rpaths rpath_file dependent_file suffix rest
          end
      end
  end.

(** The loop over [Settings::searchPath(n)]: the first search path under
    which [suffix] exists. *)
Fixpoint firstSearchPathWith (paths : list string) (suffix : string) : M (option string) :=
  match paths with
  | [] => ret None
  | search_path :: rest =>
      let* e := fileExists (search_path +:+ suffix) in
      if e then ret (Some search_path) else firstSearchPathWith rest suffix
  end.

(** [m[key]] on a [std::map]: a missing key is inserted with the default
    value of its type.  [touch] is the map afterwards, [at_key] the value
    found. *)
Definition touch {V} (key : string) (dflt : V) (m : gmap string V) : gmap string V :=
  match m !! key with
  | Some _ => m
  | None => <[key := dflt]> m
  end.

Definition at_key {V} (key : string) (dflt : V) (m : gmap string V) : V :=
  default dflt (m !! key).

(** [rpaths_per_file[key]] *)
Definition rpaths_of (key : string) : M (list string) :=
  modify (fun st => set_rpaths_per_file (touch key [] (rpaths_per_file st)) st);;
  gets (fun st => at_key key [] (rpaths_per_file st)).

(** [deps_per_file[key]] *)
Definition deps_of (key : string) : M (list Dependency) :=
  modify (fun st => set_deps_per_file (touch key [] (deps_per_file st)) st);;
  gets (fun st => at_key key [] (deps_per_file st)).

Definition searchFilenameInRpaths (rpath_file dependent_file : string) : M string :=
  let suffix := regex_replace rpath_file "^@[a-z_]+path/" EmptyString in
  let* cached := gets (fun st => rpath_to_fullpath st !! rpath_file) in
  let* fullpath :=
    match cached with
    | Some fullpath => ret fullpath
    | None =>
        let* direct := check_path rpath_file dependent_file rpath_file in
        match direct with
        | Some fullpath => ret fullpath
        | None =>
            let* rpaths := rpaths_of dependent_file in
            check_rpaths rpath_file dependent_file suffix rpaths;;
            let* cached := gets (fun st => rpath_to_fullpath st !! rpath_file) in
            ret (default EmptyString cached)
        end
    end in
  if is_empty fullpath then
    let* paths := gets (fun st => searchPaths (settings st)) in
    let* found := firstSearchPathWith paths suffix in
    let fullpath := match found with Some p => p +:+ suffix | None => EmptyString end in
    if is_empty fullpath then
      cerr ("/!\ WARNING : can't get path for '" +:+ rpath_file +:+ "'");;
      let* dir := getUserInputDirForFile suffix in
      let fullpath := dir +:+ suffix in
      let* w := gets world in
      ret (default fullpath (realpath w fullpath))
    else ret fullpath
  else ret fullpath.

(** ** [Dependency::Dependency] *)

(** The first step of the constructor: the file the reference stands for. *)
Definition resolveOriginalFile (path dependent_file : string) : M string :=
  if isRpath path then searchFilenameInRpaths path dependent_file
  else
    let* w := gets world in
    match realpath w (rtrim path) with
    | Some original_file => ret original_file
    | None =>
        cerr ("/!\ WARNING : Cannot resolve path '" +:+ path +:+ "'");;
        ret path
    end.

(** The loop over the search paths in the constructor: the new prefix when
    the file is found. *)
Fixpoint findInSearchPaths (paths : list string) (filename : string) : M (option string) :=
  match paths with
  | [] => ret None
  | search_path :: rest =>
      let* e := fileExists (search_path +:+ filename) in
      if e then modify (set_missing_prefixes true);; ret (Some search_path)
      else findInSearchPaths rest filename
  end.

(** [prefix.empty() || !fileExists(prefix + filename)] *)
Definition locationUnknown (prefix filename : string) : M bool :=
  if is_empty prefix then ret true
  else let* e := fileExists (prefix +:+ filename) in ret (negb e).

(** The constructor after its first step: [path] is the trimmed reference,
    [original_file] what it was resolved to. *)
Definition locateDependency (path original_file : string) : M Dependency :=
  let symlinks :=
    if negb (string_eqb original_file path) then addSymlink path [] else [] in
  let filename := stripPrefix original_file in
  let prefix := ensure_trailing_slash (dirPrefix original_file) in
  let* s := gets settings in
  if negb (isPrefixBundled s prefix) then
    ret (mkDependency filename prefix symlinks EmptyString)
  else
    let* unknown := locationUnknown prefix filename in
    let* prefix :=
      (if unknown then
         let* paths := gets (fun st => searchPaths (settings st)) in
         let* paths :=
           (if bool_decide (length paths = 0) then
              initSearchPaths;; gets (fun st => searchPaths (settings st))
            else ret paths) in
         let* found := findInSearchPaths paths filename in
         ret (default prefix found)
       else ret prefix) in
    let* s := gets settings in
    let* ask :=
      (if negb (isPrefixIgnored s prefix) then locationUnknown prefix filename
       else ret false) in
    (if ask then
       cerr ("/!\ WARNING : Library " +:+ filename +:+ " has an incomplete name (location unknown)");;
       modify (set_missing_prefixes true);;
       let* dir := getUserInputDirForFile filename in
       addSearchPath dir
     else ret tt);;
    ret (mkDependency filename prefix symlinks filename).

Definition Dependency_ctor (path dependent_file : string) : M Dependency :=
  let path := rtrim path in
  let* original_file := resolveOriginalFile path dependent_file in
  locateDependency path original_file.

(** [Dependency::copyYourself] *)
Definition copyYourself (d : Dependency) : M unit :=
  let* install := getInstallPath d in
  copyFile (getOriginalPath d) install;;
  let* inner := getInnerPath d in
  let* install := getInstallPath d in
  let* rc := systemp ("install_name_tool -id " +:+ quoted inner +:+ " " +:+ quoted install) in
  if nonzero rc then
    let* install := getInstallPath d in
    cerr ("Error : An error occured while trying to change identity of library " +:+ install);;
    exit 1
  else ret tt.

(** The loops [for (n = 0; n < symamount; n++) changeInstallName(...)]. *)
Fixpoint changeInstallNames (file_to_fix : string) (olds : list string)
    (inner : M string) : M unit :=
  match olds with
  | [] => ret tt
  | old :: rest =>
      let* new := inner in
      changeInstallName file_to_fix old new;;
      changeInstallNames file_to_fix rest inner
  end.

(** [Dependency::fixFileThatDependsOnMe] *)
Definition fixFileThatDependsOnMe (d : Dependency) (file_to_fix : string) : M unit :=
  let* inner := getInnerPath d in
  changeInstallName file_to_fix (getOriginalPath d) inner;;
  changeInstallNames file_to_fix (symlinks d) (getInnerPath d);;
  let* missing := gets missing_prefixes in
  if missing then
    let* inner := getInnerPath d in
    changeInstallName file_to_fix (filename d) inner;;
    changeInstallNames file_to_fix (symlinks d) (getInnerPath d)
  else ret tt.

(** ** Collection *)

(** The scan of the [otool -l] output in [collectRpaths]; [read_rpath] is
    the flag of the same name.  After a line with [LC_RPATH] the next line
    is skipped. *)
Fixpoint scanRpaths (filename : string) (lc_lines : list string) (read_rpath : bool)
    : M unit :=
  match lc_lines with
  | [] => ret tt
  | line :: rest =>
      if read_rpath then
        match find "path " line, find " (" line with
        | Some start_pos, Some end_pos =>
            let start_pos := (start_pos + 5)%nat in
            let rpath :=
              if Nat.ltb end_pos start_pos then drop_str start_pos line
              else take_str (end_pos - start_pos)%nat (drop_str start_pos line) in
            let* rpaths := rpaths_of filename in
            modify (fun st =>
              set_rpaths_per_file (<[filename := rpaths ++ [rpath]]> (rpaths_per_file st)) st);;
            scanRpaths filename rest false
        | _, _ =>
            cerr "/!\ WARNING: Unexpected LC_RPATH format";;
            scanRpaths filename rest true
        end
      else if contains "LC_RPATH" line then
        match rest with
        | [] => ret tt
        | _ :: rest' => scanRpaths filename rest' true
        end
      else scanRpaths filename rest false
  end.

Definition otool_cmd (filename : string) : string := "otool -l " +:+ quoted filename.

Definition collectRpaths (filename : string) : M unit :=
  let* e := fileExists filename in
  if negb e then
    cerr ("/!\ WARNING : can't collect rpaths for nonexistent file '" +:+ filename +:+ "'")
  else
    let* output := system_get_output (otool_cmd filename) in
    scanRpaths filename (tokenize output [newline]) false.

(** The scan of the [otool -l] output in [collectDependencies(filename,
    lines)]; [lines] is the vector being filled. *)
Fixpoint scanLoadCommands (raw_lines : list string) (searching : bool)
    (lines : list string) : M (list string) :=
  match raw_lines with
  | [] => ret lines
  | line :: rest =>
      if contains "cmd LC_LOAD_DYLIB" line || contains "cmd LC_REEXPORT_DYLIB" line then
        if searching then
          cerr "/!\ ERROR: Failed to find name before next cmd";;
          exit 1
        else scanLoadCommands rest true lines
      else if searching then
        match find "name " line with
        | Some found =>
            scanLoadCommands rest false
              (lines ++ [String tab (drop_str (found + 5)%nat line)])
        | None => scanLoadCommands rest searching lines
        end
      else scanLoadCommands rest searching lines
  end.

(** The test on the output of [otool] that makes
    [collectDependencies(filename, lines)] give up. *)
Definition otool_failed (output : string) : bool :=
  contains "can't open file" output || contains "No such file" output
  || Nat.ltb (String.length output) 1.

Definition collectDependencies_lines (filename : string) : M (list string) :=
  let* output := system_get_output (otool_cmd filename) in
  if otool_failed output then
    cerr ("Cannot find file " +:+ filename +:+ " to read its dependencies");;
    exit 1
  else scanLoadCommands (tokenize output [newline]) false [].

(** The loop of [addDependency] over [deps]: every entry is offered to
    [dep.mergeIfSameAs]. *)
Fixpoint mergeInto (dep : Dependency) (ds : list Dependency) : bool * list Dependency :=
  match ds with
  | [] => (false, [])
  | d :: rest =>
      let (same, d') := mergeIfSameAs dep d in
      let (found, rest') := mergeInto dep rest in
      (same || found, d' :: rest')
  end.

(** [addDependency] once [dep] is constructed.  [deps_in_file] is a copy of
    [deps_per_file[filename]]: what is merged into it is lost, the lookup
    leaves an entry for [filename] behind. *)
Definition registerDependency (dep : Dependency) (filename : string) : M unit :=
  let* in_deps := gets (fun st => fst (mergeInto dep (deps st))) in
  modify (fun st => set_deps (snd (mergeInto dep (deps st))) st);;
  let* deps_in_file := deps_of filename in
  let in_deps_per_file := fst (mergeInto dep deps_in_file) in
  let* s := gets settings in
  if negb (isPrefixBundled s (getPrefix dep)) then ret tt
  else
    when (negb in_deps) (modify (fun st => set_deps (deps st ++ [dep]) st));;
    when (negb in_deps_per_file)
      (let* deps_in_file := deps_of filename in
       modify (fun st =>
         set_deps_per_file (<[filename := deps_in_file ++ [dep]]> (deps_per_file st)) st)).

Definition addDependency (path filename : string) : M unit :=
  let* dep := Dependency_ctor path filename in
  registerDependency dep filename.

(** [line.substr(1, line.rfind(" (") - 1)]: a count of [npos - 1], or of
    [0 - 1], reaches to the end of the line. *)
Definition dep_path_of_line (line : string) : string :=
  match rfind " (" line with
  | Some (S n) => take_str n (drop_str 1 line)
  | _ => drop_str 1 line
  end.

(** The body of the loop of [collectDependencies(filename)].  On an empty
    line [line[0]] is the terminating null character. *)
Definition collectLine (filename line : string) : M unit :=
  match line with
  | String c _ =>
      if negb (ascii_eqb c tab) then ret tt
      else if contains ".framework" line then ret tt
      else
        let dep_path := dep_path_of_line line in
        if isSystemLibrary dep_path then ret tt
        else addDependency dep_path filename
  | EmptyString => ret tt
  end.

Fixpoint collectLines (filename : string) (lines : list string) : M unit :=
  match lines with
  | [] => ret tt
  | line :: rest => collectLine filename line;; collectLines filename rest
  end.

Definition collectDependencies (filename : string) : M unit :=
  let* collected := gets (fun st => deps_collected st !! filename) in
  match collected with
  | Some _ => ret tt
  | None =>
      collectRpaths filename;;
      let* lines := collectDependencies_lines filename in
      collectLines filename lines;;
      modify (fun st => set_deps_collected (<[filename := true]> (deps_collected st)) st)
  end.

(** One turn of the [for] loop of [collectSubDependencies], at index [n]. *)
Definition collectSubDependency (n : nat) : M unit :=
  let* d := gets (fun st => deps st !! n) in
  match d with
  | None => stop Abort
  | Some d =>
      let original_path := getOriginalPath d in
      let* original_path :=
        (if isRpath original_path then searchFilenameInRpaths original_path original_path
         else ret original_path) in
      collectDependencies original_path
  end.

(** The [for] loop, [count] turns from index [n]. *)
Fixpoint collectSubDependencies_pass (count n : nat) : M unit :=
  match count with
  | 0 => ret tt
  | S count' => collectSubDependency n;; collectSubDependencies_pass count' (S n)
  end.

(** [collectSubDependencies]; [fuel] bounds the number of turns of the
    [while (true)] loop. *)
Fixpoint collectSubDependencies (fuel : nat) : M unit :=
  match fuel with
  | 0 => stop OutOfFuel
  | S fuel' =>
      let* dep_amount := gets (fun st => length (deps st)) in
      collectSubDependencies_pass dep_amount 0;;
      let* size := gets (fun st => length (deps st)) in
      if bool_decide (size = dep_amount) then ret tt
      else collectSubDependencies fuel'
  end.

(** ** Installation *)

Definition rm_cmd (dest_folder : string) : string := "rm -r " +:+ quoted dest_folder.
Definition mkdir_cmd (dest_folder : string) : string := "mkdir -p " +:+ quoted dest_folder.

Definition createDestDir : M unit :=
  let* dest_folder := destFolder in
  let* dest_exists := fileExists dest_folder in
  let* overwrite := canOverwriteDir in
  let* dest_exists :=
    (if dest_exists && overwrite then
       let* rc := systemp (rm_cmd dest_folder) in
       if nonzero rc then
         cerr "Error : An error occured while attempting to overwrite dest folder.";;
         exit 1
       else ret false
     else ret dest_exists) in
  if negb dest_exists then
    let* create := canCreateDir in
    if create then
      let* rc := systemp (mkdir_cmd dest_folder) in
      if nonzero rc then
        cerr "Error : An error occured while creating dest folder.";;
        exit 1
      else ret tt
    else
      cerr "Error : Dest folder does not exist. Create it or pass the appropriate flag for automatic dest dir creation.";;
      exit 1
  else ret tt.

Fixpoint fixAll (ds : list Dependency) (file_to_fix : string) : M unit :=
  match ds with
  | [] => ret tt
  | d :: rest => fixFileThatDependsOnMe d file_to_fix;; fixAll rest file_to_fix
  end.

Definition changeLibPathsOnFile (file_to_fix : string) : M unit :=
  let* collected := gets (fun st => deps_collected st !! file_to_fix) in
  (match collected with
   | None => collectDependencies file_to_fix
   | Some _ => ret tt
   end);;
  let* deps_in_file := deps_of file_to_fix in
  fixAll deps_in_file file_to_fix.

(** The part of [main] between the parsing of the arguments and
    [doneWithDeps_go]: every file to fix is inspected, then the
    dependencies found. *)
Fixpoint collectFilesToFix (fs : list string) : M unit :=
  match fs with
  | [] => ret tt
  | f :: rest => collectDependencies f;; collectFilesToFix rest
  end.

Definition resolve (fuel : nat) : M unit :=
  let* fs := gets (fun st => files (settings st)) in
  collectFilesToFix fs;;
  collectSubDependencies fuel.

(** ** After the resolution *)

(** The command [fixRpathsOnFile] runs for one rpath. *)
Definition rpath_cmd (s : Settings) (file_to_fix rpath : string) : string :=
  "install_name_tool -rpath " +:+ quoted rpath +:+ " " +:+ quoted (inside_path_str s)
    +:+ " " +:+ quoted file_to_fix.

(** The loop of [fixRpathsOnFile]: a command that fails is reported and
    the loop goes on. *)
Fixpoint fixRpaths (rpaths_to_fix : list string) (file_to_fix : string) : M unit :=
  match rpaths_to_fix with
  | [] => ret tt
  | rpath :: rest =>
      let* s := gets settings in
      let* rc := systemp (rpath_cmd s file_to_fix rpath) in
      (if nonzero rc then
         cerr ("Error : An error occured while trying to fix dependencies of " +:+ file_to_fix)
       else ret tt);;
      fixRpaths rest file_to_fix
  end.

(** [fixRpathsOnFile]: the rpaths are looked up with [find], which leaves
    the map as it is. *)
Definition fixRpathsOnFile (original_file file_to_fix : string) : M unit :=
  let* found := gets (fun st => rpaths_per_file st !! original_file) in
  fixRpaths (default [] found) file_to_fix.

Context `{TempDir World}.

Definition codesign_cmd (file : string) : string :=
  "codesign --force --deep --preserve-metadata=entitlements,requirements,flags,runtime --sign - "
    +:+ quoted file.

(** The lambda [runCommand] of [adhocCodeSign]. *)
Definition runCommand (isArm : bool) (command errMsg : string) : M unit :=
  let* rc := systemp command in
  if nonzero rc then
    cerr errMsg;;
    if isArm then exit 1 else ret tt
  else ret tt.

(** [adhocCodeSign].  Two null pointers are read as strings on the way: the
    value of [TMPDIR] when the variable is not set, and the result of
    [mkdtemp] when it failed on a machine that is not ARM; either ends the
    run abnormally. *)
Definition adhocCodeSign (file : string) : M unit :=
  let* sign := canCodesign in
  if negb sign then ret tt
  else
    let signCommand := codesign_cmd file in
    let* rc := systemp signCommand in
    if nonzero rc then
      cerr ("  * Error : An error occurred while applying ad-hoc signature to " +:+ file
            +:+ ". Attempting workaround");;
      let* machine := system_get_output "machine" in
      let isArm := contains "arm" machine in
      let* w := gets world in
      match getenv w "TMPDIR" with
      | None => stop Abort
      | Some tmp =>
          let tempDirTemplate := tmp +:+ "dylibbundler.XXXXXXXX" in
          let filename := drop_str (pos_plus_one (rfind "/" file)) file in
          modify (set_world (snd (mkdtemp w tempDirTemplate)));;
          match fst (mkdtemp w tempDirTemplate) with
          | None =>
              cerr "  * Error : Unable to create temp directory for signing workaround";;
              if isArm then exit 1 else stop Abort
          | Some tmpDir =>
              let tmpFile := tmpDir +:+ "/" +:+ filename in
              runCommand isArm ("cp -p " +:+ quoted file +:+ " " +:+ quoted tmpFile)
                ("  * Error : An error occurred copying " +:+ file +:+ " to " +:+ tmpDir);;
              runCommand isArm ("mv -f " +:+ quoted tmpFile +:+ " " +:+ quoted file)
                ("  * Error : An error occurred moving " +:+ tmpFile +:+ " to " +:+ file);;
              systemp ("rm -rf " +:+ quoted tmpDir);;
              runCommand isArm signCommand
                ("  * Error : An error occurred while applying ad-hoc signature to " +:+ file)
          end
      end
    else ret tt.

(** [deps[n]] *)
Definition dependencyAt (n : nat) : M Dependency :=
  let* d := gets (fun st => deps st !! n) in
  match d with
  | Some d => ret d
  | None => stop Abort
  end.

(** One turn of the first loop of [doneWithDeps_go], at index [n]; [deps[n]]
    is read anew for every call. *)
Definition processDependency (n : nat) : M unit :=
  let* d := dependencyAt n in
  copyYourself d;;
  let* d := dependencyAt n in
  let* install := getInstallPath d in
  changeLibPathsOnFile install;;
  let* d := dependencyAt n in
  let* install := getInstallPath d in
  fixRpathsOnFile (getOriginalPath d) install;;
  let* d := dependencyAt n in
  let* install := getInstallPath d in
  adhocCodeSign install.

(** The loop [for (n = dep_amount - 1; n >= 0; n--)]: the indices below
    [n], the highest first. *)
Fixpoint processDependencies (n : nat) : M unit :=
  match n with
  | 0 => ret tt
  | S n' => processDependency n';; processDependencies n'
  end.

(** One turn of the second loop of [doneWithDeps_go]. *)
Definition processFile (n : nat) : M unit :=
  let* f := gets (fun st => files (settings st) !! n) in
  match f with
  | None => stop Abort
  | Some f =>
      copyFile f f;;
      changeLibPathsOnFile f;;
      fixRpathsOnFile f f;;
      adhocCodeSign f
  end.

Fixpoint processFiles (n : nat) : M unit :=
  match n with
  | 0 => ret tt
  | S n' => processFile n';; processFiles n'
  end.

(** [doneWithDeps_go]; what [Dependency::print] shows goes to [std::cout]. *)
Definition doneWithDeps_go : M unit :=
  let* dep_amount := gets (fun st => length (deps st)) in
  let* bundle := bundleLibs in
  (if bundle then
     createDestDir;;
     processDependencies dep_amount
   else ret tt);;
  let* fileToFixAmount := gets (fun st => length (files (settings st))) in
  processFiles fileToFixAmount.

(** ** [main] *)

(** The setters of [namespace Settings]. *)
Definition set_overwrite_files (v : bool) (s : Settings) : Settings :=
  mkSettings v (overwrite_dir s) (create_dir s) (codesign s)
    (bundleLibs_bool s) (dest_folder_str s) (files s) (inside_path_str s)
    (prefixes_to_ignore s) (searchPaths s).
Definition set_overwrite_dir (v : bool) (s : Settings) : Settings :=
  mkSettings (overwrite_files s) v (create_dir s) (codesign s)
    (bundleLibs_bool s) (dest_folder_str s) (files s) (inside_path_str s)
    (prefixes_to_ignore s) (searchPaths s).
Definition set_create_dir (v : bool) (s : Settings) : Settings :=
  mkSettings (overwrite_files s) (overwrite_dir s) v (codesign s)
    (bundleLibs_bool s) (dest_folder_str s) (files s) (inside_path_str s)
    (prefixes_to_ignore s) (searchPaths s).
Definition set_codesign (v : bool) (s : Settings) : Settings :=
  mkSettings (overwrite_files s) (overwrite_dir s) (create_dir s) v
    (bundleLibs_bool s) (dest_folder_str s) (files s) (inside_path_str s)
    (prefixes_to_ignore s) (searchPaths s).
Definition set_bundleLibs (v : bool) (s : Settings) : Settings :=
  mkSettings (overwrite_files s) (overwrite_dir s) (create_dir s) (codesign s)
    v (dest_folder_str s) (files s) (inside_path_str s)
    (prefixes_to_ignore s) (searchPaths s).
Definition addFileToFix (path : string) (s : Settings) : Settings :=
  mkSettings (overwrite_files s) (overwrite_dir s) (create_dir s) (codesign s)
    (bundleLibs_bool s) (dest_folder_str s) (files s ++ [path]) (inside_path_str s)
    (prefixes_to_ignore s) (searchPaths s).

(** [Settings::destFolder(path)] and [Settings::inside_lib_path(p)]: the
    path, with a slash at its end.  The index [size() - 1] is outside an
    empty path. *)
Definition set_destFolder (path : string) (s : Settings) : option Settings :=
  match last_char path with
  | None => None
  | Some c =>
      Some (mkSettings (overwrite_files s) (overwrite_dir s) (create_dir s) (codesign s)
              (bundleLibs_bool s) (if ascii_eqb c "/" then path else path +:+ "/")
              (files s) (inside_path_str s) (prefixes_to_ignore s) (searchPaths s))
  end.
Definition set_inside_lib_path (p : string) (s : Settings) : option Settings :=
  match last_char p with
  | None => None
  | Some c =>
      Some (mkSettings (overwrite_files s) (overwrite_dir s) (create_dir s) (codesign s)
              (bundleLibs_bool s) (dest_folder_str s) (files s)
              (if ascii_eqb c "/" then p else p +:+ "/")
              (prefixes_to_ignore s) (searchPaths s))
  end.

Definition configure (f : Settings -> Settings) : M unit :=
  modify (fun st => set_settings (f (settings st)) st).

Definition configure_checked (f : Settings -> option Settings) : M unit :=
  let* s := gets settings in
  match f s with
  | Some s' => modify (set_settings s')
  | None => stop Abort
  end.

(** [strcmp(argv[i], short) == 0 or strcmp(argv[i], long) == 0] *)
Definition is_flag (short long arg : string) : bool :=
  string_eqb arg short || string_eqb arg long.

(** The loop of [main] over its arguments: [argv] holds [argv[i]] and what
    follows it.  A flag that takes a value and is the last argument reads
    [argv[argc]], a null pointer, as a string. *)
Fixpoint parseArguments (i : nat) (argv : list string) : M unit :=
  match argv with
  | [] => ret tt
  | arg :: rest =>
      if is_flag "-x" "--fix-file" arg then
        match rest with
        | [] => stop Abort
        | value :: rest' =>
            configure (addFileToFix value);; parseArguments (i + 2) rest'
        end
      else if is_flag "-b" "--bundle-deps" arg then
        configure (set_bundleLibs true);; parseArguments (i + 1) rest
      else if is_flag "-p" "--install-path" arg then
        match rest with
        | [] => stop Abort
        | value :: rest' =>
            configure_checked (set_inside_lib_path value);; parseArguments (i + 2) rest'
        end
      else if is_flag "-i" "--ignore" arg then
        match rest with
        | [] => stop Abort
        | value :: rest' =>
            configure_checked (ignore_prefix value);; parseArguments (i + 2) rest'
        end
      else if is_flag "-d" "--dest-dir" arg then
        match rest with
        | [] => stop Abort
        | value :: rest' =>
            configure_checked (set_destFolder value);; parseArguments (i + 2) rest'
        end
      else if is_flag "-of" "--overwrite-files" arg then
        configure (set_overwrite_files true);; parseArguments (i + 1) rest
      else if is_flag "-od" "--overwrite-dir" arg then
        configure (set_overwrite_dir true);;
        configure (set_create_dir true);;
        parseArguments (i + 1) rest
      else if is_flag "-cd" "--create-dir" arg then
        configure (set_create_dir true);; parseArguments (i + 1) rest
      else if is_flag "-ns" "--no-codesign" arg then
        configure (set_codesign false);; parseArguments (i + 1) rest
      else if is_flag "-h" "--help" arg then exit 0
      else if is_flag "-s" "--search-path" arg then
        match rest with
        | [] => stop Abort
        | value :: rest' => addSearchPath value;; parseArguments (i + 2) rest'
        end
      else if Nat.ltb 0 i then
        cerr ("Unknown flag " +:+ arg);;
        exit 1
      else parseArguments (i + 1) rest
  end.

(** [main]: the value returned, or the way the run ended before. *)
Definition main (fuel : nat) (argv : list string) : M Z :=
  parseArguments 0 argv;;
  let* bundle := bundleLibs in
  let* fileToFixAmount := gets (fun st => length (files (settings st))) in
  if negb bundle && Nat.ltb fileToFixAmount 1 then exit 0
  else
    resolve fuel;;
    doneWithDeps_go;;
    ret 0%Z.

(** ** Observations *)

(** The state in which a computation ended. *)
Definition final_state {A} (o : outcome A) : State :=
  match o with Ret _ st => st | Stop _ st => st end.

(** The state after [std::cerr << msg]. *)
Definition warned (msg : string) (st : State) : State :=
  set_trace (trace st ++ [Stderr msg]) st.

(** The state after [systemp(cmd)], and the status it returned. *)
Definition ran (cmd : string) (st : State) : State :=
  set_world (snd (system (world st) cmd)) (set_trace (trace st ++ [Exec cmd]) st).

Definition status (cmd : string) (st : State) : Z := fst (system (world st) cmd).

(** How [copyFile] ends when it refuses to overwrite: the diagnostic, no
    command. *)
Definition overwrite_refused (to : string) (st : State) : outcome unit :=
  Stop (ExitCode 1)
    (warned ("Error : File " +:+ to +:+ " already exists. Remove it or enable overwriting.") st).

(** The block [if (!dest_exists) { ... }] of [createDestDir], run in
    [st]: the directory is made when that is permitted, the run ends
    otherwise. *)
Definition createMissingDestDir (st : State) : outcome unit :=
  let dest := dest_folder_str (settings st) in
  if create_dir (settings st) then
    if nonzero (status (mkdir_cmd dest) st) then
      Stop (ExitCode 1)
        (warned "Error : An error occured while creating dest folder." (ran (mkdir_cmd dest) st))
    else Ret tt (ran (mkdir_cmd dest) st)
  else
    Stop (ExitCode 1)
      (warned "Error : Dest folder does not exist. Create it or pass the appropriate flag for automatic dest dir creation." st).

(** Running the commands [cmds] on [file_to_fix] in order, as
    [changeInstallName] does: the first one that fails ends the run. *)
Fixpoint attempt (file_to_fix : string) (cmds : list string) (st : State) : outcome unit :=
  match cmds with
  | [] => Ret tt st
  | cmd :: rest =>
      if nonzero (status cmd st) then
        Stop (ExitCode 1)
          (warned ("Error: An error occured while trying to fix dependencies of " +:+ file_to_fix)
             (ran cmd st))
      else attempt file_to_fix rest (ran cmd st)
  end.

(** The command that rewrites the reference [old] in [file_to_fix] to the
    inner path of [d]. *)
Definition rewrite_cmd (s : Settings) (d : Dependency) (file_to_fix old : string) : string :=
  changeInstallName_cmd file_to_fix old (inside_path_str s +:+ new_name d).

(** What [check_path] hands to [realpath] for [path]: the marker replaced
    by the directory of the dependent file, the empty string for a path
    without marker. *)
Definition rpath_candidate (dependent_file path : string) : string :=
  let file_prefix := dirPrefix dependent_file in
  if contains "@loader_path" path then regex_replace path "@loader_path/" file_prefix
  else if contains "@rpath" path then regex_replace path "@rpath/" file_prefix
  else EmptyString.

(** The symlinks of an entry after those of another were merged into it
    with [addSymlink], one by one. *)
Definition alias_union (mine theirs : list string) : list string :=
  foldl (fun syms s => addSymlink s syms) mine theirs.

(** An entry of [deps] after [dep.mergeIfSameAs(entry)]. *)
Definition merged (dep entry : Dependency) : Dependency :=
  if string_eqb (filename entry) (filename dep)
  then with_symlinks (alias_union (symlinks entry) (symlinks dep)) entry
  else entry.

(** A reference that the loop of [collectDependencies(filename)] hands to
    [addDependency]: not a system library, not in a framework. *)
Definition reference_kept (r : string) : Prop :=
  isSystemLibrary r = false ∧ contains ".framework" r = false.

(** What holds of every entry of [deps]. *)
Definition entry_ok (s : Settings) (d : Dependency) : Prop :=
  isPrefixBundled s (prefix d) = true
  ∧ contains "/" (filename d) = false
  ∧ ∀ r, r ∈ symlinks d → reference_kept r.

Definition registry_ok (st : State) : Prop :=
  ∀ d, d ∈ deps st → entry_ok (settings st) d.

(** Every file with an entry in [deps_per_file] is in [deps_collected]. *)
Definition index_within (st : State) : Prop :=
  ∀ f, is_Some (deps_per_file st !! f) → is_Some (deps_collected st !! f).

(** The three tests of the loop of [collectDependencies(filename)] on a
    line: it begins with a tab, is not in a framework, and its reference is
    not a system library.  The line is then handed to [addDependency]. *)
Definition passes_filters (line : string) : bool :=
  match line with
  | String c _ =>
      ascii_eqb c tab && negb (contains ".framework" line)
      && negb (isSystemLibrary (dep_path_of_line line))
  | EmptyString => false
  end.

(** [otool] can be run on [file] and lists a reference that passes the
    tests. *)
Definition lists_kept_reference (file : string) (st : State) : bool :=
  match collectDependencies_lines file st with
  | Ret lines _ => existsb passes_filters lines
  | Stop _ _ => false
  end.

(** The files with an entry in [deps_per_file] are the inspected files for
    which [otool] lists a reference that passes the tests. *)
Definition index_as_inspected (st : State) : Prop :=
  ∀ f, is_Some (deps_per_file st !! f)
       ↔ is_Some (deps_collected st !! f) ∧ lists_kept_reference f st = true.

(** What an inspection keeps of this. *)
Definition indexing : relation State := λ st st',
  world st' = world st ∧ (index_as_inspected st → index_as_inspected st').

(** One inspection: of a file, or of the dependencies known so far. *)
Inductive inspects : State → State → Prop :=
  | inspects_file f st st' :
      collectDependencies f st = Ret tt st' → inspects st st'
  | inspects_deps fuel st st' :
      collectSubDependencies fuel st = Ret tt st' → inspects st st'.

(** The value a computation returned. *)
Definition returned {A} (o : outcome A) : option A :=
  match o with Ret a _ => Some a | Stop _ _ => None end.

(** ** Relations between states *)

(** [spec R P m]: whenever [m] returns, the states before and after are
    related by [R] and the value satisfies [P]; and [m] never stops for
    lack of fuel. *)
Definition spec {A} (R : relation State) (P : A → Prop) (m : M A) : Prop :=
  ∀ st, match m st with
        | Ret a st' => R st st' ∧ P a
        | Stop r _ => r ≠ OutOfFuel
        end.

Definition any {A} : A → Prop := λ _, True.

(** The collection of dependencies leaves these alone, except where a
    lemma says otherwise: the registry, the per-file index, the set of
    inspected files, the machine, the ignore list and the files to fix;
    [missing_prefixes] is never reset. *)
Definition frame : relation State := λ st st',
  deps st' = deps st ∧ deps_per_file st' = deps_per_file st
  ∧ deps_collected st' = deps_collected st ∧ world st' = world st
  ∧ prefixes_to_ignore (settings st') = prefixes_to_ignore (settings st)
  ∧ files (settings st') = files (settings st)
  ∧ (missing_prefixes st = true → missing_prefixes st' = true).

(** What every step of the collection keeps. *)
Definition collecting : relation State := λ st st',
  world st' = world st
  ∧ prefixes_to_ignore (settings st') = prefixes_to_ignore (settings st)
  ∧ files (settings st') = files (settings st)
  ∧ (missing_prefixes st = true → missing_prefixes st' = true)
  ∧ (registry_ok st → registry_ok st')
  ∧ (∀ f, is_Some (deps_collected st !! f) → is_Some (deps_collected st' !! f)).

(** While [file] is being inspected: [deps_collected] does not change and
    [deps_per_file] gains at most the entry of [file]. *)
Definition collecting_at (file : string) : relation State := λ st st',
  collecting st st' ∧ deps_collected st' = deps_collected st
  ∧ ∀ g, is_Some (deps_per_file st' !! g) → g = file ∨ is_Some (deps_per_file st !! g).

(** [otool] could be run on [file]. *)
Definition inspectable (w : World) (file : string) : Prop :=
  otool_failed (popen_output w (otool_cmd file)) = false.

(** From one inspection to the next.  A file that comes into
    [deps_collected] is one [otool] could be run on, and [deps] grows only
    when a file comes into [deps_collected]. *)
Definition inspecting : relation State := λ st st',
  collecting st st' ∧ (index_within st → index_within st')
  ∧ (∀ f, is_Some (deps_collected st' !! f) →
          is_Some (deps_collected st !! f) ∨ inspectable (world st) f)
  ∧ (length (deps st') ≠ length (deps st) →
     ∃ f, deps_collected st !! f = None ∧ is_Some (deps_collected st' !! f)).

(** The inspection of a file not yet in [deps_collected]: the work on the
    file, then its entry in [deps_collected]. *)
Definition marking (file : string) : relation State := λ st st',
  ∃ s, collecting_at file st s
       ∧ st' = set_deps_collected (<[file := true]> (deps_collected s)) s.

(** The same with [otool] run on [file] in between. *)
Definition inspected (file : string) : relation State := λ st st',
  marking file st st' ∧ inspectable (world st) file.

(** The files [otool] can be run on all lie in [U], and so do the files
    inspected so far. *)
Definition within_U (U : gset string) (st : State) : Prop :=
  (∀ f, inspectable (world st) f → f ∈ U) ∧ dom (deps_collected st) ⊆ U.

(** One turn of the [for] loop of [collectSubDependencies] that returns. *)
Inductive expands : relation State :=
  | expands_at n st st' : collectSubDependency n st = Ret tt st' → expands st st'.

(** [U] holds every file that the turns of the [for] loop, however many
    are made from [st], have inspected. *)
Definition graph_within (U : gset string) (st : State) : Prop :=
  ∀ st', rtc expands st st' → dom (deps_collected st') ⊆ U.

(** The computation has come to an end: it has returned, called [exit] or
    was aborted.  It is not caught in the prompt loop, and the model has
    not run out of fuel. *)
Definition ends {A} (o : outcome A) : Prop :=
  match o with
  | Ret _ _ | Stop (ExitCode _) _ | Stop Abort _ => True
  | Stop Hang _ | Stop OutOfFuel _ => False
  end.

(** [answering m]: when [m] returns, a [quit] that was in the input is
    still there; and [m] is caught in the prompt loop only with the input
    exhausted, and only when there was no [quit] in it. *)
Definition answering {A} (m : M A) : Prop :=
  ∀ st, match m st with
        | Ret _ st' => "quit" ∈ stdin st → "quit" ∈ stdin st'
        | Stop Hang st' => ("quit" ∉ stdin st) ∧ stdin st' = []
        | Stop _ _ => True
        end.

(** What changes the machine: [system(cmd)] and [mkdtemp(template)]. *)
Inductive action :=
  | Run (cmd : string)
  | MakeTemp (template : string).

(** The machine after a sequence of them. *)
Definition machine_after (w : World) (acts : list action) : World :=
  foldl (λ w a, match a with
                | Run cmd => snd (system w cmd)
                | MakeTemp template => snd (mkdtemp w template)
                end) w acts.

(** Two machines that give the same answer to every question the program
    can ask now. *)
Definition answers_alike (w1 w2 : World) : Prop :=
  (∀ p, access_ok w1 p = access_ok w2 p)
  ∧ (∀ p, realpath w1 p = realpath w2 p)
  ∧ (∀ cmd, popen_output w1 cmd = popen_output w2 cmd)
  ∧ (∀ name, getenv w1 name = getenv w2 name)
  ∧ (∀ cmd, fst (system w1 cmd) = fst (system w2 cmd))
  ∧ (∀ template, fst (mkdtemp w1 template) = fst (mkdtemp w2 template)).

(** Two machines that answer alike now and after every sequence of
    commands: identical responses of the collaborators. *)
Definition same_answers (w1 w2 : World) : Prop :=
  ∀ acts, answers_alike (machine_after w1 acts) (machine_after w2 acts).

(** Two states that are the same but for the machine, on machines that
    answer alike: the same settings, registry, index, input and trace. *)
Definition same_run (st1 st2 : State) : Prop :=
  set_world (world st1) st2 = st1 ∧ same_answers (world st1) (world st2).

(** Two computations that ended the same way, with the same value or for
    the same reason, in states that are the same in this sense. *)
Definition same_outcome {A} (o1 o2 : outcome A) : Prop :=
  match o1, o2 with
  | Ret a1 s1, Ret a2 s2 => a1 = a2 ∧ same_run s1 s2
  | Stop r1 s1, Stop r2 s2 => r1 = r2 ∧ same_run s1 s2
  | _, _ => False
  end.

(** [alike m1 m2]: run from states that are the same in this sense, [m1]
    and [m2] end the same way. *)
Definition alike {A} (m1 m2 : M A) : Prop :=
  ∀ st1 st2, same_run st1 st2 → same_outcome (m1 st1) (m2 st2).

(** ** Further observations *)

(** Every character of [s] satisfies [P]. *)
Fixpoint chars_all (P : ascii → bool) (s : string) : bool :=
  match s with
  | EmptyString => true
  | String c s' => P c && chars_all P s'
  end.

(** The lines [ls], each followed by [d]. *)
Definition terminated (d : ascii) (ls : list string) : string :=
  foldr (λ l acc, l +:+ String d acc) EmptyString ls.

Definition ends_with_slash (s : string) : Prop := last_char s = Some "/"%char.

(** The commands of a trace, in order. *)
Definition execs (t : list event) : list string :=
  omap (λ e, match e with Exec cmd => Some cmd | Stderr _ => None end) t.

(** [always R m]: however [m] ends, by returning or by stopping, the
    states before and after are related by [R]. *)
Definition always {A} (R : relation State) (m : M A) : Prop :=
  ∀ st, R st (final_state (m st)).

(** What the resolution never does: run a command, change the machine,
    change a setting other than the search paths, or drop or replace what
    [rpath_to_fullpath] holds for a reference. *)
Definition quiet : relation State := λ st st',
  world st' = world st
  ∧ execs (trace st') = execs (trace st)
  ∧ set_searchPaths [] (settings st') = set_searchPaths [] (settings st)
  ∧ ∀ r fullpath, rpath_to_fullpath st !! r = Some fullpath →
                  rpath_to_fullpath st' !! r = Some fullpath.

(** A command line of the work on the file [f]: the [chmod +w] of
    [copyFile], an [install_name_tool -change] of [changeInstallName] or an
    [install_name_tool -rpath] of [fixRpathsOnFile], each with [f] as the
    file it names last. *)
Definition fix_cmd (s : Settings) (f cmd : string) : Prop :=
  cmd = chmod_cmd f
  ∨ (∃ old new, cmd = changeInstallName_cmd f old new)
  ∨ (∃ rpath, cmd = rpath_cmd s f rpath).

(** With code signing disabled, from one step to the next of the work on
    the file [f]: signing stays disabled, the files to fix and the inner
    path are as before, and every command line handed to [systemp] is one
    of the work on [f]. *)
Definition fixing (f : string) : relation State := λ st st',
  codesign (settings st) = false →
  codesign (settings st') = false
  ∧ files (settings st') = files (settings st)
  ∧ inside_path_str (settings st') = inside_path_str (settings st)
  ∧ ∃ cmds, execs (trace st') = execs (trace st) ++ cmds
            ∧ Forall (fix_cmd (settings st) f) cmds.

(** The same over the files to fix. *)
Definition fixing_files : relation State := λ st st',
  codesign (settings st) = false →
  codesign (settings st') = false
  ∧ files (settings st') = files (settings st)
  ∧ inside_path_str (settings st') = inside_path_str (settings st)
  ∧ ∃ cmds, execs (trace st') = execs (trace st) ++ cmds
            ∧ Forall (λ cmd, ∃ f, f ∈ files (settings st) ∧ fix_cmd (settings st) f cmd) cmds.

(** [e'] is the entry [e] at a later time: the same library, with the
    symlinks of [e] and maybe more. *)
Definition extends (e e' : Dependency) : Prop :=
  filename e' = filename e ∧ prefix e' = prefix e ∧ new_name e' = new_name e
  ∧ ∀ s, s ∈ symlinks e → s ∈ symlinks e'.

(** Two entries for the same library: the same file name, prefix and new
    name, and the same symlinks, in whatever order. *)
Definition same_library (e e' : Dependency) : Prop :=
  filename e' = filename e ∧ prefix e' = prefix e ∧ new_name e' = new_name e
  ∧ ∀ x, x ∈ symlinks e' ↔ x ∈ symlinks e.

(** [ds'] is the registry [ds] at a later time: the entries are where they
    were, new ones follow them. *)
Definition grown (ds ds' : list Dependency) : Prop :=
  ∃ kept more, ds' = kept ++ more ∧ Forall2 extends ds kept.

(** No two entries for the same file name, no entry with a symlink
    twice. *)
Definition tidy (ds : list Dependency) : Prop :=
  NoDup (filename <$> ds) ∧ ∀ d, d ∈ ds → NoDup (symlinks d).

(** The list of every file of the index is the beginning of its list at a
    later time. *)
Definition index_grown (m m' : gmap string (list Dependency)) : Prop :=
  ∀ g ds, m !! g = Some ds → ∃ more, m' !! g = Some (ds ++ more).

(** Every entry of the index has the file name of an entry of the
    registry, and no list of the index has a file name twice. *)
Definition index_registered (st : State) : Prop :=
  ∀ g ds, deps_per_file st !! g = Some ds →
    NoDup (filename <$> ds) ∧ ∀ d, d ∈ ds → filename d ∈ filename <$> deps st.

(** What the collection keeps of the registry and of the index. *)
Definition growing : relation State := λ st st',
  grown (deps st) (deps st')
  ∧ index_grown (deps_per_file st) (deps_per_file st')
  ∧ (tidy (deps st) → tidy (deps st'))
  ∧ (index_registered st → index_registered st').

(** What the work after the resolution keeps: [missing_prefixes] once it
    is set, the files to fix, the inner path and the destination folder,
    the entries of the registry and the lists of the index, which only
    grow, the commands that were run, and for a file that has been
    inspected its place in [deps_collected] and its list in the index. *)
Definition rewriting : relation State := λ st st',
  (missing_prefixes st = true → missing_prefixes st' = true)
  ∧ files (settings st') = files (settings st)
  ∧ inside_path_str (settings st') = inside_path_str (settings st)
  ∧ dest_folder_str (settings st') = dest_folder_str (settings st)
  ∧ grown (deps st) (deps st')
  ∧ index_grown (deps_per_file st) (deps_per_file st')
  ∧ execs (trace st) `prefix_of` execs (trace st')
  ∧ (∀ f, is_Some (deps_collected st !! f) →
          is_Some (deps_collected st' !! f)
          ∧ at_key f [] (deps_per_file st') = at_key f [] (deps_per_file st)).

(** A configuration as the options leave it: [-od] has given the
    permission to create the directory with that to overwrite it, and the
    two directories and the ignored prefixes end in a slash. *)
Definition well_configured (s : Settings) : Prop :=
  (overwrite_dir s = true → create_dir s = true)
  ∧ ends_with_slash (dest_folder_str s)
  ∧ ends_with_slash (inside_path_str s)
  ∧ Forall ends_with_slash (prefixes_to_ignore s).

(** From one configuration to a later one: a permission given is not
    taken back, signing once disabled stays so, and the lists only get
    longer. *)
Definition reconfigured (s s' : Settings) : Prop :=
  (well_configured s → well_configured s')
  ∧ (overwrite_files s = true → overwrite_files s' = true)
  ∧ (overwrite_dir s = true → overwrite_dir s' = true)
  ∧ (create_dir s = true → create_dir s' = true)
  ∧ (bundleLibs_bool s = true → bundleLibs_bool s' = true)
  ∧ (codesign s = false → codesign s' = false)
  ∧ files s `prefix_of` files s'
  ∧ searchPaths s `prefix_of` searchPaths s'
  ∧ prefixes_to_ignore s `prefix_of` prefixes_to_ignore s'.

(** What the reading of the arguments does: it changes the settings and
    may write a diagnostic, nothing else. *)
Definition configuring : relation State := λ st st',
  set_trace (trace st) (set_settings (settings st) st') = st
  ∧ execs (trace st') = execs (trace st)
  ∧ reconfigured (settings st) (settings st').

(** The two settings that give the run something to do. *)
Definition same_task : relation State := λ st st',
  files (settings st') = files (settings st)
  ∧ bundleLibs_bool (settings st') = bundleLibs_bool (settings st).

End Program.

Arguments Ret {_ _} a st.
Arguments Stop {_ _} r st.
Arguments State : clear implicits.
Arguments bind : simpl never.
Arguments ret : simpl never.
Arguments gets : simpl never.
Arguments modify : simpl never.
Arguments stop : simpl never.
Arguments exit : simpl never.
Arguments cerr : simpl never.
Arguments systemp : simpl never.
Arguments fileExists : simpl never.
Arguments touch : simpl never.
Arguments at_key : simpl never.

Notation "'let*' x ':=' m 'in' k" := (bind m (fun x => k))
  (at level 10, x name, m at level 100, k at level 200).
Notation "m1 ';;' m2" := (bind m1 (fun _ => m2))
  (at level 100, m2 at level 200, right associativity, only parsing).

(** ** A small machine to run the program on *)

Module Demo.

(** A machine given by tables: the paths that exist, what [realpath]
    answers, what each command prints, the commands that fail, and the
    environment. *)
Record Machine := mkMachine {
  m_files : list string;
  m_realpath : list (string * string);
  m_output : list (string * string);
  m_failing : list string;
  m_env : list (string * string);
}.

Fixpoint assoc (k : string) (l : list (string * string)) : option string :=
  match l with
  | [] => None
  | (k', v) :: rest => if string_eqb k k' then Some v else assoc k rest
  end.

(** Replaces every occurrence of the literal [pat]; [skip] counts the
    characters of an occurrence still to be dropped. *)
Fixpoint replace_literal (pat fmt s : string) (skip : nat) : string :=
  match s with
  | EmptyString => EmptyString
  | String c s' =>
      match skip with
      | S k => replace_literal pat fmt s' k
      | 0 =>
          if String.prefix pat s && negb (is_empty pat)
          then fmt +:+ replace_literal pat fmt s' (String.length pat - 1)
          else String c (replace_literal pat fmt s' 0)
      end
  end.

(** The two kinds of pattern the program uses: the anchored marker
    pattern, for the three markers, and literal text. *)
Definition demo_regex_replace (subject re fmt : string) : string :=
  if string_eqb re "^@[a-z_]+path/" then
    if String.prefix "@rpath/" subject then fmt +:+ drop_str 7 subject
    else if String.prefix "@loader_path/" subject then fmt +:+ drop_str 13 subject
    else if String.prefix "@executable_path/" subject then fmt +:+ drop_str 17 subject
    else subject
  else replace_literal re fmt subject 0.

#[export] Instance demo_platform : Platform Machine := {|
  access_ok w p := bool_decide (p ∈ m_files w);
  realpath w p := assoc p (m_realpath w);
  popen_output w cmd := default EmptyString (assoc cmd (m_output w));
  system w cmd := (if bool_decide (cmd ∈ m_failing w) then 1%Z else 0%Z, w);
  getenv w name := assoc name (m_env w);
  regex_replace := demo_regex_replace;
|}.

Definition default_settings : Settings :=
  mkSettings false false false true false "./libs/" [] "@executable_path/../libs/" [] [].

Definition start (s : Settings) (w : Machine) (input : list string) : State Machine :=
  mkState s false [] ∅ ∅ ∅ ∅ w input [].

Definition lines (ls : list string) : string :=
  foldr (fun l acc => l +:+ String newline acc) EmptyString ls.

(** What [otool -l] prints for a load command of the library [name]. *)
Definition load_dylib (name : string) : list string :=
  ["Load command 12";
   "          cmd LC_LOAD_DYLIB";
   "      cmdsize 56";
   "         name " +:+ name +:+ " (offset 24)";
   "   time stamp 2 Thu Jan  1 01:00:02 1970"].

Definition otool_output (file : string) (libs : list string) : string * string :=
  (otool_cmd file, lines ((file +:+ ":") :: concat (load_dylib <$> libs))).

(** An executable [/bin/app] linked against [/opt/lib/libfoo.dylib], a
    symlink to [/opt/lib/libfoo.1.dylib], and against the system library;
    the library is linked against itself under its real name and against
    the system library. *)
Definition app_machine : Machine :=
  mkMachine
    ["/bin/app"; "/opt/lib/libfoo.dylib"; "/opt/lib/libfoo.1.dylib"]
    [("/opt/lib/libfoo.dylib", "/opt/lib/libfoo.1.dylib");
     ("/opt/lib/libfoo.1.dylib", "/opt/lib/libfoo.1.dylib")]
    [otool_output "/bin/app" ["/opt/lib/libfoo.dylib"; "/usr/lib/libSystem.B.dylib"];
     otool_output "/opt/lib/libfoo.1.dylib"
       ["/opt/lib/libfoo.1.dylib"; "/usr/lib/libSystem.B.dylib"]]
    [] [].

Definition app_start : State Machine := start default_settings app_machine [].

Definition libfoo : Dependency :=
  mkDependency "libfoo.1.dylib" "/opt/lib/" ["/opt/lib/libfoo.dylib"] "libfoo.1.dylib".

(** The state after the inspection of [/bin/app]. *)
Definition app_inspected : State Machine :=
  final_state (collectDependencies "/bin/app" app_start).

(** Two symlinks outside the system directories to one system library. *)
Definition libz_machine : Machine :=
  mkMachine
    ["/opt/lib/libz.dylib"; "/opt/compat/libz.dylib"; "/usr/lib/libz.1.dylib"]
    [("/opt/lib/libz.dylib", "/usr/lib/libz.1.dylib");
     ("/opt/compat/libz.dylib", "/usr/lib/libz.1.dylib")]
    [] [] [].

Definition libz_start : State Machine := start default_settings libz_machine [].

(** A destination directory that exists; no permission is given. *)
Definition libs_machine : Machine := mkMachine ["./libs/"] [] [] [] [].
Definition libs_start : State Machine := start default_settings libs_machine [].

(** A tool linked against the system library only. *)
Definition tool_machine : Machine :=
  mkMachine ["/bin/tool"] []
    [otool_output "/bin/tool" ["/usr/lib/libSystem.B.dylib"]] [] [].
Definition tool_start : State Machine := start default_settings tool_machine [].

(** An executable linked against a library in a subdirectory of an ignored
    directory, and against one in the ignored directory itself. *)
Definition ignoring_settings : Settings :=
  default (default_settings) (ignore_prefix "/custom/ignored" default_settings).

Definition ignored_machine : Machine :=
  mkMachine
    ["/bin/app"; "/custom/ignored/sub/libfoo.dylib"; "/custom/ignored/libbar.dylib"]
    [("/custom/ignored/sub/libfoo.dylib", "/custom/ignored/sub/libfoo.dylib");
     ("/custom/ignored/libbar.dylib", "/custom/ignored/libbar.dylib")]
    [otool_output "/bin/app" ["/custom/ignored/sub/libfoo.dylib"]]
    [] [].
Definition ignored_start : State Machine := start ignoring_settings ignored_machine [].

(** A reference with a blank at its end to a library that is not where the
    reference says; the user names the directory where it is. *)
Definition moved_machine : Machine :=
  mkMachine ["/opt/alt/libfoo.dylib"] [] [] [] [].
Definition moved_start : State Machine :=
  start default_settings moved_machine ["/opt/alt"].

(** A library referenced through [@rpath] by [/bin/app], whose rpaths are
    an absolute directory and one relative to the executable; the library
    is in both. *)
Definition rpath_machine : Machine :=
  mkMachine
    ["/opt/lib/libY.dylib"; "/lib/libY.dylib"]
    [("/opt/lib/libY.dylib", "/opt/lib/libY.dylib");
     ("/bin/../lib/libY.dylib", "/lib/libY.dylib")]
    [] [] [].
Definition rpath_start : State Machine := start default_settings rpath_machine [].

(** The two rpaths of [/bin/app] are recorded. *)
Definition rpath_listed : State Machine :=
  set_rpaths_per_file {["/bin/app" := ["/opt/lib/"; "@loader_path/../lib"]]} rpath_start.

(** A library that is in the second and in the third of three search
    paths. *)
Definition paths_machine : Machine :=
  mkMachine ["/b/libx.dylib"; "/c/libx.dylib"] [] [] [] [].
Definition paths_start : State Machine := start default_settings paths_machine [].

(** A state in which a prefix was found missing. *)
Definition degraded_start : State Machine :=
  set_missing_prefixes true app_start.

(** [/bin/app] and the library are to be fixed and have been inspected; a
    prefix was found missing. *)
Definition two_files_start : State Machine :=
  start (set_codesign false
           (addFileToFix "/opt/lib/libfoo.1.dylib" (addFileToFix "/bin/app" default_settings)))
    app_machine [].
Definition degraded_resolved : State Machine :=
  set_missing_prefixes true (final_state (resolve 3 two_files_start)).

(** The symlink and the real name of the library, one after the other. *)
Definition libfoo_first : State Machine :=
  final_state (addDependency "/opt/lib/libfoo.dylib" "/bin/app" app_start).
Definition libfoo_plain : Dependency :=
  mkDependency "libfoo.1.dylib" "/opt/lib/" [] "libfoo.1.dylib".

Definition libfoo_both : State Machine :=
  final_state (addDependency "/opt/lib/libfoo.1.dylib" "/bin/app" libfoo_first).
Definition libfoo_other_first : State Machine :=
  final_state (addDependency "/opt/lib/libfoo.1.dylib" "/bin/app" app_start).
Definition libfoo_other_both : State Machine :=
  final_state (addDependency "/opt/lib/libfoo.dylib" "/bin/app" libfoo_other_first).

Definition libz_first : State Machine :=
  final_state (addDependency "/opt/lib/libz.dylib" "/bin/app" libz_start).
Definition libz_both : State Machine :=
  final_state (addDependency "/opt/compat/libz.dylib" "/bin/app" libz_first).

Definition tool_inspected : State Machine :=
  final_state (collectDependencies "/bin/tool" tool_start).

Definition ignored_inspected : State Machine :=
  final_state (collectDependencies "/bin/app" ignored_start).

Definition moved_located : State Machine :=
  final_state (Dependency_ctor "/opt/lib/libfoo.dylib " "/bin/app" moved_start).

(** Three files linked in a cycle: [/bin/app] against [liba], [liba]
    against [libb], [libb] against [liba] again and against [libc], which
    is nowhere on the machine. *)
Definition cycle_machine : Machine :=
  mkMachine
    ["/bin/app"; "/opt/lib/liba.dylib"; "/opt/lib/libb.dylib"]
    [("/opt/lib/liba.dylib", "/opt/lib/liba.dylib");
     ("/opt/lib/libb.dylib", "/opt/lib/libb.dylib")]
    [otool_output "/bin/app" ["/opt/lib/liba.dylib"];
     otool_output "/opt/lib/liba.dylib" ["/opt/lib/libb.dylib"];
     otool_output "/opt/lib/libb.dylib" ["/opt/lib/liba.dylib"; "/opt/lib/libc.dylib"]]
    [] [].

(** The files of the cycle. *)
Definition cycle_files : gset string :=
  {["/bin/app"; "/opt/lib/liba.dylib"; "/opt/lib/libb.dylib"]}.

(** The state after the inspection of [/bin/app], with [input] to read. *)
Definition cycle_inspected (input : list string) : State Machine :=
  final_state (collectDependencies "/bin/app" (start default_settings cycle_machine input)).

(** On this machine [mkdtemp] makes the directory that the template
    names. *)
#[export] Instance demo_tempdir : TempDir Machine := {|
  mkdtemp w template := (Some template, w);
|}.

(** [app_machine] with its files listed otherwise. *)
Definition app_machine_again : Machine :=
  mkMachine
    ["/opt/lib/libfoo.1.dylib"; "/bin/app"; "/opt/lib/libfoo.dylib"; "/bin/app"]
    (m_realpath app_machine) (m_output app_machine) [] [].

(** [/bin/app] is to be fixed, without signing. *)
Definition app_args : list string := ["dylibbundler"; "-x"; "/bin/app"; "-ns"].

(** [/bin/app] is to be fixed, without bundling and without signing. *)
Definition fixing_start : State Machine :=
  start (set_codesign false (addFileToFix "/bin/app" default_settings)) app_machine [].

(** A machine that is not ARM, on which the signature of [/bin/app]
    fails. *)
Definition unsigned_machine : Machine :=
  mkMachine ["/bin/app"] [] [("machine", "x86_64h")] [codesign_cmd "/bin/app"]
    [("TMPDIR", "/tmp/")].
Definition unsigned_start : State Machine := start default_settings unsigned_machine [].

(** The search paths of the environment. *)
Definition env_machine : Machine :=
  mkMachine [] [] [] []
    [("DYLD_LIBRARY_PATH", "/opt/lib:/opt/local/lib/");
     ("DYLD_FALLBACK_LIBRARY_PATH", "/usr/local/lib")].
Definition env_start : State Machine := start default_settings env_machine [].

(** A reference that was resolved before [/bin/app] is inspected. *)
Definition cached_start : State Machine :=
  set_rpath_to_fullpath {["@rpath/libY.dylib" := "/lib/libY.dylib"]} app_start.
Definition cached_inspected : State Machine :=
  final_state (collectDependencies "/bin/app" cached_start).

(** The state after the dependencies of [/bin/app] were inspected too. *)
Definition app_resolved : State Machine :=
  final_state (collectSubDependencies 2 app_inspected).

(** What [otool -l] prints for an [LC_RPATH] load command. *)
Definition load_rpath (rpath : string) : list string :=
  ["          cmd LC_RPATH";
   "      cmdsize 32";
   "         path " +:+ rpath +:+ " (offset 12)"].

(** The user is asked where [libfoo.dylib] is. *)
Definition asked : State Machine :=
  final_state (getUserInputDirForFile "libfoo.dylib" moved_start).

(** The library is installed. *)
Definition installed : State Machine := final_state (copyYourself libfoo app_start).

End Demo.


(** * Properties *)

(** ** Strings *)

Lemma app_nil_str s : EmptyString +:+ s = s.
Proof. reflexivity. Qed.

Lemma app_cons_str c a b : String c a +:+ b = String c (a +:+ b).
Proof. reflexivity. Qed.

Lemma app_str_nil s : s +:+ EmptyString = s.
Proof. induction s as [|c s IH]; [done|]. by rewrite app_cons_str, IH. Qed.

Lemma app_assoc_str a b c : (a +:+ b) +:+ c = a +:+ (b +:+ c).
Proof. induction a as [|x a IH]; [done|]. by rewrite !app_cons_str, IH. Qed.

Lemma prefix_spec q s : String.prefix q s = true ↔ ∃ t, s = q +:+ t.
Proof.
  revert s. induction q as [|a q IH]; intros s; simpl.
  - destruct s; split; eauto.
  - destruct s as [|b s]; [split; [done|by intros [t ?]]|].
    simpl. destruct (ascii_dec a b) as [->|Hne].
    + rewrite IH. split; intros [t Ht]; exists t.
      * by rewrite app_cons_str, Ht.
      * rewrite app_cons_str in Ht. congruence.
    + split; [done|]. intros [t Ht]. rewrite app_cons_str in Ht. congruence.
Qed.

Lemma find_cons q c s :
  find q (String c s) = if String.prefix q (String c s) then Some 0 else S <$> find q s.
Proof. reflexivity. Qed.

Lemma starts_with_prefix q s : starts_with q s = String.prefix q s.
Proof.
  unfold starts_with. destruct s as [|c s].
  - by destruct q.
  - rewrite find_cons. destruct (String.prefix q (String c s)); [done|].
    by destruct (find q s).
Qed.

Lemma contains_spec q s : contains q s = true ↔ ∃ a b, s = a +:+ q +:+ b.
Proof.
  unfold contains. split.
  - induction s as [|c s IH].
    + destruct q; [|done]. intros _. by exists EmptyString, EmptyString.
    + rewrite find_cons. destruct (String.prefix q (String c s)) eqn:Hp.
      * intros _. apply prefix_spec in Hp as [t Ht]. by exists EmptyString, t.
      * destruct (find q s); [|done]. intros _.
        destruct IH as (a & b & ->); [done|]. by exists (String c a), b.
  - intros (a & b & ->). induction a as [|c a IH].
    + rewrite app_nil_str.
      assert (String.prefix q (q +:+ b) = true) as Hp by (apply prefix_spec; eauto).
      destruct (q +:+ b); simpl in *; by rewrite ?find_cons, Hp.
    + rewrite app_cons_str, find_cons. destruct (String.prefix _ _); [done|].
      by destruct (find q (a +:+ q +:+ b)).
Qed.

Lemma contains_false q s a b : contains q s = false → s ≠ a +:+ q +:+ b.
Proof.
  intros Hc ->. assert (contains q (a +:+ q +:+ b) = true) by (apply contains_spec; eauto).
  congruence.
Qed.

(** A string found in a part of [s] is found in [s]. *)
Lemma contains_part q s a t b : s = a +:+ t +:+ b → contains q t = true → contains q s = true.
Proof.
  intros -> (x & y & ->)%contains_spec. apply contains_spec.
  exists (a +:+ x), (y +:+ b). by rewrite !app_assoc_str.
Qed.

Lemma take_drop_str n s : s = take_str n s +:+ drop_str n s.
Proof.
  revert s. induction n as [|n IH]; intros [|c s]; simpl; try done.
  by rewrite app_cons_str, <- IH.
Qed.

Lemma dirPrefix_stripPrefix s : dirPrefix s +:+ stripPrefix s = s.
Proof. symmetry. apply take_drop_str. Qed.

Lemma rtrim_prefix s : ∃ t, s = rtrim s +:+ t.
Proof.
  induction s as [|c s [t IH]]; [by exists EmptyString|]. simpl.
  destruct (rtrim s) as [|a r] eqn:Hr.
  - destruct (Ascii.is_space c).
    + by exists (String c s).
    + exists s. by rewrite app_cons_str.
  - exists t. by rewrite app_cons_str, <- IH.
Qed.

Lemma rtrim_idem s : rtrim (rtrim s) = rtrim s.
Proof.
  induction s as [|c s IH]; [done|]. simpl.
  destruct (rtrim s) as [|a r] eqn:Hr.
  - destruct (Ascii.is_space c) eqn:Hc; [done|]. simpl. by rewrite Hc.
  - change (rtrim (String c (String a r))) with
      (match rtrim (String a r) with
       | EmptyString => if Ascii.is_space c then EmptyString else String c EmptyString
       | r' => String c r'
       end).
    by rewrite IH.
Qed.

Lemma prefix_rtrim q s : String.prefix q (rtrim s) = true → String.prefix q s = true.
Proof.
  intros [t Ht]%prefix_spec. destruct (rtrim_prefix s) as [u Hu].
  apply prefix_spec. exists (t +:+ u). by rewrite Hu at 1; rewrite Ht, app_assoc_str.
Qed.

Lemma contains_rtrim q s : contains q (rtrim s) = true → contains q s = true.
Proof.
  destruct (rtrim_prefix s) as [u Hu]. apply (contains_part q s EmptyString (rtrim s) u).
  by rewrite app_nil_str.
Qed.

Lemma contains_take q n s : contains q (take_str n s) = true → contains q s = true.
Proof.
  apply (contains_part q s EmptyString _ (drop_str n s)).
  rewrite app_nil_str. apply take_drop_str.
Qed.

Lemma contains_drop q n s : contains q (drop_str n s) = true → contains q s = true.
Proof.
  apply (contains_part q s (take_str n s) _ EmptyString).
  rewrite app_str_nil. apply take_drop_str.
Qed.

Lemma rfind_None q s : rfind q s = None → contains q s = false.
Proof.
  unfold contains. induction s as [|c s IH].
  - by destruct q.
  - change (rfind q (String c s)) with
      (match rfind q s with
       | Some n => Some (S n)
       | None => if String.prefix q (String c s) then Some 0 else None
       end).
    rewrite find_cons. destruct (rfind q s); [done|].
    destruct (String.prefix q (String c s)); [done|]. intros _.
    specialize (IH eq_refl). by destruct (find q s).
Qed.

Lemma prefix_single a c s :
  String.prefix (String a EmptyString) (String c s) = bool_decide (a = c).
Proof.
  change (String.prefix (String a EmptyString) (String c s)) with
    (match ascii_dec a c with
     | left _ => String.prefix EmptyString s
     | right _ => false
     end).
  destruct (ascii_dec a c);
    [rewrite bool_decide_eq_true_2 by done|rewrite bool_decide_eq_false_2 by done];
    by destruct s.
Qed.

Lemma contains_slash_cons c s :
  contains "/" (String c s) = bool_decide ("/"%char = c) || contains "/" s.
Proof.
  unfold contains. rewrite find_cons, prefix_single.
  case_bool_decide; [done|]. by destruct (find "/" s).
Qed.

(** The leaf name has no slash. *)
Lemma stripPrefix_no_slash s : contains "/" (stripPrefix s) = false.
Proof.
  unfold stripPrefix. induction s as [|c s IH]; [done|].
  change (rfind "/" (String c s)) with
    (match rfind "/" s with
     | Some n => Some (S n)
     | None => if String.prefix "/" (String c s) then Some 0 else None
     end).
  destruct (rfind "/" s) as [n|] eqn:Hr; [exact IH|].
  apply rfind_None in Hr. rewrite prefix_single.
  case_bool_decide as Hc; simpl; [done|].
  rewrite contains_slash_cons, Hr. by rewrite bool_decide_eq_false_2.
Qed.

(** A pattern that ends in a slash and begins [p +:+ f], where [f] has no
    slash, begins [p]. *)
Lemma prefix_cons a q c s :
  String.prefix (String a q) (String c s) = bool_decide (a = c) && String.prefix q s.
Proof.
  change (String.prefix (String a q) (String c s)) with
    (match ascii_dec a c with
     | left _ => String.prefix q s
     | right _ => false
     end).
  by destruct (ascii_dec a c);
    [rewrite bool_decide_eq_true_2 by done|rewrite bool_decide_eq_false_2 by done].
Qed.

Lemma prefix_app_no_slash q p f :
  String.prefix (q +:+ "/") (p +:+ f) = true → contains "/" f = false →
  String.prefix (q +:+ "/") p = true.
Proof.
  intros Hp Hf. revert p Hp. induction q as [|a q IH]; intros [|c p] Hp.
  - rewrite !app_nil_str in Hp. apply prefix_spec in Hp as [t ->].
    rewrite app_cons_str, contains_slash_cons in Hf.
    by rewrite bool_decide_eq_true_2 in Hf.
  - rewrite app_cons_str, app_nil_str in Hp. rewrite app_nil_str.
    rewrite prefix_cons in *. apply andb_true_iff in Hp as [-> _]. by destruct p.
  - rewrite app_nil_str in Hp. apply prefix_spec in Hp as [t ->].
    exfalso. eapply (contains_false _ _ (String a q) t); [exact Hf|].
    by rewrite app_assoc_str.
  - rewrite !app_cons_str in Hp. rewrite app_cons_str. rewrite prefix_cons in *.
    apply andb_true_iff in Hp as [-> Hp]. by apply IH.
Qed.

Lemma isSystemLibrary_app p f :
  isSystemLibrary (p +:+ f) = true → contains "/" f = false → isSystemLibrary p = true.
Proof.
  unfold isSystemLibrary. rewrite !starts_with_prefix. intros Hs Hf.
  destruct (String.prefix "/usr/lib/" (p +:+ f)) eqn:H1.
  - apply (prefix_app_no_slash "/usr/lib" p f) in H1; [|done].
    change ("/usr/lib" +:+ "/") with "/usr/lib/" in H1. by rewrite H1.
  - destruct (String.prefix "/System/Library/" (p +:+ f)) eqn:H2; [|done].
    apply (prefix_app_no_slash "/System/Library" p f) in H2; [|done].
    change ("/System/Library" +:+ "/") with "/System/Library/" in H2. rewrite H2.
    by destruct (String.prefix "/usr/lib/" p).
Qed.

Lemma isSystemLibrary_rtrim s : isSystemLibrary (rtrim s) = true → isSystemLibrary s = true.
Proof.
  unfold isSystemLibrary. rewrite !starts_with_prefix. intros Hs.
  destruct (String.prefix "/usr/lib/" (rtrim s)) eqn:H1.
  - by rewrite (prefix_rtrim _ _ H1).
  - destruct (String.prefix "/System/Library/" (rtrim s)) eqn:H2; [|done].
    rewrite (prefix_rtrim _ _ H2). by destruct (String.prefix "/usr/lib/" s).
Qed.

(** ** More on strings *)

Lemma chars_all_app P a b : chars_all P (a +:+ b) = chars_all P a && chars_all P b.
Proof.
  induction a as [|c a IH]; [done|]. rewrite app_cons_str. simpl.
  by rewrite IH, andb_assoc.
Qed.

Lemma is_empty_true s : is_empty s = true ↔ s = EmptyString.
Proof. by destruct s. Qed.

Lemma is_empty_app a b : is_empty (a +:+ b) = is_empty a && is_empty b.
Proof. by destruct a. Qed.

(** A run of characters that are no delimiters goes to the token being
    read. *)
Lemma tokenize_from_clean ds l s cur :
  chars_all (λ c, negb (bool_decide (c ∈ ds))) l = true →
  tokenize_from ds (l +:+ s) cur = tokenize_from ds s (cur +:+ l).
Proof.
  revert cur. induction l as [|a l IH]; intros cur Hl.
  - by rewrite app_nil_str, app_str_nil.
  - simpl in Hl. apply andb_true_iff in Hl as [Ha Hl].
    rewrite app_cons_str. simpl. apply negb_true_iff in Ha. rewrite Ha.
    rewrite IH by done. by rewrite app_assoc_str.
Qed.

Lemma tokenize_from_tokens ds s cur :
  chars_all (λ c, negb (bool_decide (c ∈ ds))) cur = true →
  Forall (λ tok, tok ≠ EmptyString
                 ∧ chars_all (λ c, negb (bool_decide (c ∈ ds))) tok = true)
    (tokenize_from ds s cur).
Proof.
  revert cur. induction s as [|c s IH]; intros cur Hcur; simpl.
  - destruct cur; [by apply Forall_nil|]. by apply Forall_singleton.
  - case_bool_decide as Hc.
    + destruct cur; simpl; [by apply IH|]. apply Forall_cons. split; [done|by apply IH].
    + apply IH. rewrite chars_all_app, Hcur. simpl.
      by rewrite bool_decide_eq_false_2.
Qed.

Lemma tokenize_from_delimiters ds s :
  chars_all (λ c, bool_decide (c ∈ ds)) s = true → tokenize_from ds s EmptyString = [].
Proof.
  induction s as [|c s IH]; [done|]. simpl. intros [Hc Hs]%andb_true_iff.
  rewrite Hc. simpl. by apply IH.
Qed.

(** X1.  [tokenize] gives back no empty token and no token with a
    delimiter in it; a string of delimiters only, the empty string among
    them, has no token. *)
Theorem tokenize_tokens (str : string) (delimiters : list ascii) :
  Forall (λ tok, tok ≠ EmptyString
                 ∧ chars_all (λ c, negb (bool_decide (c ∈ delimiters))) tok = true)
    (tokenize str delimiters)
  ∧ (chars_all (λ c, bool_decide (c ∈ delimiters)) str = true →
     tokenize str delimiters = []).
Proof.
  split.
  - by apply tokenize_from_tokens.
  - apply tokenize_from_delimiters.
Qed.

(** X2.  Lines that hold no delimiter, each followed by a delimiter, are
    what [tokenize] gives back, in order and without the empty ones. *)
Theorem tokenize_terminated (d : ascii) (delimiters : list ascii) (ls : list string) :
  d ∈ delimiters →
  Forall (λ l, chars_all (λ c, negb (bool_decide (c ∈ delimiters))) l = true) ls →
  tokenize (terminated d ls) delimiters = filter (λ l, l ≠ EmptyString) ls.
Proof.
  intros Hd Hls. unfold tokenize. induction Hls as [|l ls Hl _ IH]; [done|].
  simpl. rewrite tokenize_from_clean, app_nil_str by done. simpl.
  rewrite bool_decide_eq_true_2 by done. rewrite IH.
  destruct l; simpl.
  - by rewrite filter_cons_False by (by intros ?).
  - by rewrite filter_cons_True.
Qed.

Lemma rtrim_blank t : chars_all Ascii.is_space t = true → rtrim t = EmptyString.
Proof.
  induction t as [|c t IH]; [done|]. simpl. intros [Hc Ht]%andb_true_iff.
  by rewrite IH, Hc.
Qed.

Lemma rtrim_cons c s :
  rtrim (String c s) =
    match rtrim s with
    | EmptyString => if Ascii.is_space c then EmptyString else String c EmptyString
    | r => String c r
    end.
Proof. reflexivity. Qed.

(** X3.  [rtrim s] is the part of [s] before its trailing white space: what
    is cut off is white space, and what is left does not end in white
    space. *)
Theorem rtrim_spec (s : string) :
  ∃ t, s = rtrim s +:+ t
       ∧ chars_all Ascii.is_space t = true
       ∧ (∀ c, last_char (rtrim s) = Some c → Ascii.is_space c = false)
       ∧ rtrim (rtrim s) = rtrim s.
Proof.
  induction s as [|c s (t & Hs & Ht & Hlast & _)].
  - by exists EmptyString.
  - rewrite rtrim_idem, rtrim_cons. destruct (rtrim s) as [|a r] eqn:Hr.
    + destruct (Ascii.is_space c) eqn:Hc.
      * exists (String c s). split_and!; try done. simpl. rewrite Hc.
        rewrite app_nil_str in Hs. by rewrite Hs.
      * exists s. split_and!; try done.
        -- rewrite app_nil_str in Hs. by rewrite Hs.
        -- simpl. by intros ? [= <-].
    + exists t. split_and!; try done. by rewrite app_cons_str, <- Hs.
Qed.

Lemma rtrim_app_blank a r : chars_all Ascii.is_space r = true → rtrim (a +:+ r) = rtrim a.
Proof.
  intros Hr. induction a as [|c a IH].
  - by rewrite app_nil_str, rtrim_blank.
  - by rewrite app_cons_str, !rtrim_cons, IH.
Qed.

Lemma app_str_empty a b : a +:+ b = EmptyString → b = EmptyString.
Proof. by destruct a. Qed.

Lemma rtrim_app_kept l t : rtrim t ≠ EmptyString → rtrim (l +:+ t) = l +:+ rtrim t.
Proof.
  intros Ht. induction l as [|c l IH]; [done|].
  rewrite !app_cons_str, rtrim_cons, IH.
  destruct (l +:+ rtrim t) eqn:Hl; [|done]. by apply app_str_empty in Hl.
Qed.

Lemma ltrim_app_blank l t : chars_all Ascii.is_space l = true → ltrim (l +:+ t) = ltrim t.
Proof.
  induction l as [|c l IH]; [done|]. intros Hl. simpl in Hl.
  apply andb_true_iff in Hl as [Hc Hl].
  rewrite app_cons_str. simpl. rewrite Hc. by apply IH.
Qed.

Lemma last_char_take_rfind q n s :
  rfind (String q EmptyString) s = Some n → last_char (take_str (S n) s) = Some q.
Proof.
  revert n. induction s as [|c s IH]; intros n; [done|].
  change (rfind (String q EmptyString) (String c s)) with
    (match rfind (String q EmptyString) s with
     | Some n => Some (S n)
     | None => if String.prefix (String q EmptyString) (String c s) then Some 0 else None
     end).
  destruct (rfind _ s) as [m|] eqn:Hr.
  - intros [= <-]. specialize (IH m eq_refl).
    change (take_str (S (S m)) (String c s)) with (String c (take_str (S m) s)).
    destruct (take_str (S m) s) eqn:Ht; [done|]. exact IH.
  - rewrite prefix_single. case_bool_decide as Hc; [|done]. intros [= <-].
    subst. by destruct s.
Qed.

Lemma dirPrefix_cases path :
  dirPrefix path = EmptyString ∨ last_char (dirPrefix path) = Some "/"%char.
Proof.
  unfold dirPrefix. destruct (rfind "/" path) as [n|] eqn:Hr.
  - right. by apply last_char_take_rfind.
  - left. by destruct path.
Qed.

(** The constructor never has to add a slash to the directory. *)
Lemma ensure_trailing_slash_dirPrefix path :
  ensure_trailing_slash (dirPrefix path) = dirPrefix path.
Proof.
  unfold ensure_trailing_slash. destruct (dirPrefix_cases path) as [->| ->]; [done|].
  unfold ascii_eqb. by rewrite bool_decide_eq_true_2.
Qed.

Lemma last_char_slash_contains s : last_char s = Some "/"%char → contains "/" s = true.
Proof.
  induction s as [|c s IH]; [done|]. rewrite contains_slash_cons.
  destruct s as [|c' s'].
  - simpl. intros [= ->]. by rewrite bool_decide_eq_true_2.
  - intros Hl. rewrite IH by exact Hl. apply orb_true_r.
Qed.

(** X4.  A path falls into its directory and its leaf name: put together
    again they give the path, the leaf has no slash, and the directory is
    empty or ends in a slash, so the constructor never has to add one.  A
    path without slash is all leaf. *)
Theorem path_splits_into_directory_and_leaf (path : string) :
  dirPrefix path +:+ stripPrefix path = path
  ∧ contains "/" (stripPrefix path) = false
  ∧ ensure_trailing_slash (dirPrefix path) = dirPrefix path
  ∧ (dirPrefix path = EmptyString ∨ last_char (dirPrefix path) = Some "/"%char)
  ∧ (contains "/" path = false → stripPrefix path = path ∧ dirPrefix path = EmptyString).
Proof.
  split_and!.
  - apply dirPrefix_stripPrefix.
  - apply stripPrefix_no_slash.
  - apply ensure_trailing_slash_dirPrefix.
  - apply dirPrefix_cases.
  - intros Hno.
    assert (dirPrefix path = EmptyString) as Hd.
    { destruct (dirPrefix_cases path) as [?|Hl]; [done|].
      apply last_char_slash_contains in Hl. unfold dirPrefix in Hl.
      apply contains_take in Hl. congruence. }
    split; [|done]. pose proof (dirPrefix_stripPrefix path) as Hs.
    by rewrite Hd, app_nil_str in Hs.
Qed.

Lemma last_char_app_slash s : last_char (s +:+ "/") = Some "/"%char.
Proof.
  induction s as [|c s IH]; [done|]. rewrite app_cons_str.
  change (last_char (String c (s +:+ "/"))) with
    (match s +:+ "/" with EmptyString => Some c | _ => last_char (s +:+ "/") end).
  destruct (s +:+ "/") eqn:Hs; [by apply app_str_empty in Hs|exact IH].
Qed.

(** The path that the setters of the directories and
    [Settings::ignore_prefix] keep ends in a slash. *)
Lemma ends_with_slash_fixed c p :
  last_char p = Some c →
  ends_with_slash (if ascii_eqb c "/" then p else p +:+ "/").
Proof.
  intros Hc. unfold ends_with_slash, ascii_eqb. case_bool_decide as Heq.
  - by rewrite Hc, Heq.
  - apply last_char_app_slash.
Qed.

Lemma rfind_cons q c s :
  rfind q (String c s) =
    match rfind q s with
    | Some n => Some (S n)
    | None => if String.prefix q (String c s) then Some 0 else None
    end.
Proof. reflexivity. Qed.

Lemma rfind_app_Some q a s n :
  rfind q s = Some n → rfind q (a +:+ s) = Some (String.length a + n).
Proof.
  intros Hs. induction a as [|c a IH]; [done|].
  by rewrite app_cons_str, rfind_cons, IH.
Qed.

Lemma rfind_Some_contains q s n : rfind q s = Some n → contains q s = true.
Proof.
  unfold contains. revert n. induction s as [|c s IH]; intros n.
  - by destruct q.
  - rewrite rfind_cons, find_cons.
    destruct (String.prefix q (String c s)); [done|].
    destruct (rfind q s) as [m|]; [|done]. intros _.
    specialize (IH m eq_refl). by destruct (find q s).
Qed.

Lemma take_str_app a b : take_str (String.length a) (a +:+ b) = a.
Proof. induction a as [|c a IH]; [by destruct b|]. rewrite app_cons_str. simpl. by rewrite IH. Qed.

(** X5.  What [otool] prints after [name] is the reference, a blank, and
    the offset in brackets.  From the line kept for it,
    [collectDependencies] cuts the reference out again, whatever the
    reference is, blanks and brackets in it included; a line without
    bracket is taken whole. *)
Theorem dep_path_of_line_recovers_the_reference (reference offset : string) :
  contains " (" offset = false →
  dep_path_of_line (String tab (reference +:+ " (" +:+ offset)) = reference
  ∧ (contains " (" reference = false →
     dep_path_of_line (String tab reference) = reference).
Proof.
  intros Hoff. split.
  - unfold dep_path_of_line.
    assert (rfind " (" (" (" +:+ offset) = Some 0) as H0.
    { change (" (" +:+ offset) with (String " " (String "(" offset)).
      rewrite !rfind_cons.
      destruct (rfind " (" offset) as [n|] eqn:Hr;
        [apply rfind_Some_contains in Hr; congruence|].
      rewrite !prefix_cons. simpl. by destruct offset. }
    rewrite rfind_cons, (rfind_app_Some _ reference _ 0 H0), Nat.add_0_r.
    simpl. apply take_str_app.
  - intros Hno. unfold dep_path_of_line.
    destruct (rfind " (" (String tab reference)) as [[|n]|] eqn:Hr; try done.
    rewrite rfind_cons in Hr. destruct (rfind " (" reference) as [m|] eqn:Hm.
    + apply rfind_Some_contains in Hm. congruence.
    + by destruct (String.prefix _ _).
Qed.

(** ** Colon-separated lists *)

Lemma getline_all_clean d l s cur :
  chars_all (λ c, negb (ascii_eqb c d)) l = true →
  getline_all d (l +:+ s) cur = getline_all d s (cur +:+ l).
Proof.
  revert cur. induction l as [|a l IH]; intros cur Hl.
  - by rewrite app_nil_str, app_str_nil.
  - simpl in Hl. apply andb_true_iff in Hl as [Ha Hl].
    rewrite app_cons_str. simpl. apply negb_true_iff in Ha. rewrite Ha.
    rewrite IH by done. by rewrite app_assoc_str.
Qed.

(** A string that does not end in the delimiter, followed by the delimiter
    and another string: the pieces of the one, then those of the other. *)
Lemma getline_all_joined d a b cur :
  (a = EmptyString → cur ≠ EmptyString) →
  last_char a ≠ Some d →
  getline_all d (a +:+ String d b) cur
  = getline_all d a cur ++ getline_all d b EmptyString.
Proof.
  revert cur. induction a as [|c a IH]; intros cur Hne Hlast.
  - rewrite app_nil_str. simpl. unfold ascii_eqb. rewrite bool_decide_eq_true_2 by done.
    destruct cur; [by destruct Hne|done].
  - rewrite app_cons_str. simpl. unfold ascii_eqb. case_bool_decide as Hc.
    + subst c. destruct a as [|c' a']; [done|]. simpl. f_equal.
      apply IH; [done|]. exact Hlast.
    + apply IH.
      * intros _. by destruct cur.
      * destruct a; [done|exact Hlast].
Qed.

(** A string that ends in the delimiter, followed by another string. *)
Lemma getline_all_ended d a b cur :
  last_char a = Some d →
  getline_all d (a +:+ b) cur = getline_all d a cur ++ getline_all d b EmptyString.
Proof.
  revert cur. induction a as [|c a IH]; intros cur Hlast; [done|].
  rewrite app_cons_str. simpl. destruct a as [|c' a'].
  - simpl in Hlast. injection Hlast as ->. unfold ascii_eqb.
    rewrite bool_decide_eq_true_2 by done. by rewrite app_nil_str.
  - destruct (ascii_eqb c d); [simpl; f_equal|]; by apply IH.
Qed.

(** The pieces of a value of the environment. *)
Lemma getline_all_join_env acc v :
  getline_all ":" (join_env acc v) EmptyString
  = getline_all ":" acc EmptyString
    ++ match v with Some p => getline_all ":" p EmptyString | None => [] end.
Proof.
  destruct v as [p|]; simpl; [|by rewrite app_nil_r].
  destruct (last_char acc) as [c|] eqn:Hc.
  - unfold ascii_eqb. case_bool_decide as Hcolon.
    + subst c. by apply getline_all_ended.
    + rewrite app_assoc_str. change (":" +:+ p) with (String ":" p).
      apply getline_all_joined; [by intros ->|].
      rewrite Hc. by intros [= ->].
  - destruct acc as [|a acc]; [done|]. exfalso.
    revert a Hc. induction acc as [|b acc IH]; intros a Hc; [done|]. by apply (IH b).
Qed.

(** ** Finding a keyword in a line *)

Lemma String_length_app a b : String.length (a +:+ b) = String.length a + String.length b.
Proof. induction a as [|c a IH]; [done|]. rewrite app_cons_str. simpl. by rewrite IH. Qed.

Lemma drop_str_app a b : drop_str (String.length a) (a +:+ b) = b.
Proof. induction a as [|c a IH]; [done|]. rewrite app_cons_str. simpl. exact IH. Qed.

Lemma find_here q s : find q (q +:+ s) = Some 0.
Proof.
  assert (String.prefix q (q +:+ s) = true) as Hp by (apply prefix_spec; eauto).
  destruct (q +:+ s) as [|c t].
  - change (find q EmptyString) with (if String.prefix q EmptyString then Some 0 else None).
    by rewrite Hp.
  - by rewrite find_cons, Hp.
Qed.

(** A pattern is not found in front of the place where its first character
    occurs first. *)
Lemma find_after a q pre s :
  chars_all (λ c, negb (ascii_eqb c a)) pre = true →
  find (String a q) (pre +:+ s) = (λ n, String.length pre + n) <$> find (String a q) s.
Proof.
  intros Hpre. induction pre as [|c pre IH].
  - rewrite app_nil_str. by destruct (find _ s).
  - simpl in Hpre. apply andb_true_iff in Hpre as [Hc Hpre].
    rewrite app_cons_str, find_cons, prefix_cons, IH by done.
    unfold ascii_eqb in Hc. apply negb_true_iff, bool_decide_eq_false in Hc.
    rewrite bool_decide_eq_false_2 by congruence. simpl.
    by destruct (find (String a q) s).
Qed.

(** A pattern of two characters is not found in front of the place where
    its second character occurs first. *)
Lemma find_after_second a b pre s :
  chars_all (λ c, negb (ascii_eqb c b)) pre = true →
  String.prefix (String b EmptyString) s = false →
  find (String a (String b EmptyString)) (pre +:+ s)
  = (λ n, String.length pre + n) <$> find (String a (String b EmptyString)) s.
Proof.
  intros Hpre Hs. induction pre as [|c pre IH].
  - rewrite app_nil_str. by destruct (find _ s).
  - simpl in Hpre. apply andb_true_iff in Hpre as [Hc Hpre].
    rewrite app_cons_str, find_cons, prefix_cons, IH by done.
    assert (String.prefix (String b EmptyString) (pre +:+ s) = false) as ->.
    { destruct pre as [|c' pre']; [by rewrite app_nil_str|].
      rewrite app_cons_str, prefix_single. simpl in Hpre.
      apply andb_true_iff in Hpre as [Hc' _]. unfold ascii_eqb in Hc'.
      apply negb_true_iff, bool_decide_eq_false in Hc'.
      by rewrite bool_decide_eq_false_2 by congruence. }
    rewrite andb_false_r. by destruct (find _ s).
Qed.

Lemma chars_all_impl (P Q : ascii → bool) s :
  (∀ c, P c = true → Q c = true) → chars_all P s = true → chars_all Q s = true.
Proof.
  intros HPQ. induction s as [|c s IH]; [done|]. simpl.
  intros [Hc Hs]%andb_true_iff. by rewrite (HPQ c Hc), IH.
Qed.

Section Properties.
Context {World : Type} `{Platform World}.
Implicit Types st : State World.

(** *** Running the monad *)

Lemma run_bind {A B} (m : M A) (k : A → M B) st :
  bind m k st = match m st with Ret a st' => k a st' | Stop r st' => Stop r st' end.
Proof. reflexivity. Qed.
Lemma run_ret {A} (a : A) st : ret a st = Ret a st.
Proof. reflexivity. Qed.
Lemma run_gets {A} (f : State World → A) st : gets f st = Ret (f st) st.
Proof. reflexivity. Qed.
Lemma run_modify (f : State World → State World) st : modify f st = Ret tt (f st).
Proof. reflexivity. Qed.
Lemma run_stop {A} r st : stop (A:=A) r st = Stop r st.
Proof. reflexivity. Qed.
Lemma run_exit {A} c st : exit (A:=A) c st = Stop (ExitCode c) st.
Proof. reflexivity. Qed.
Lemma run_cerr msg st : cerr msg st = Ret tt (warned msg st).
Proof. reflexivity. Qed.
Lemma run_systemp cmd st : systemp cmd st = Ret (status cmd st) (ran cmd st).
Proof. reflexivity. Qed.
Lemma run_fileExists f st :
  fileExists f st =
    if access_ok (world st) f then Ret true st
    else if is_empty (rtrim f) then Stop Abort st
    else Ret (access_ok (world st) (ltrim (rtrim f))) st.
Proof.
  unfold fileExists. rewrite run_bind, run_gets.
  destruct (access_ok _ f); [done|]. by destruct (is_empty _).
Qed.

(** Symbolic execution of the primitive steps. *)
Ltac mrun :=
  repeat (rewrite ?run_bind, ?run_ret, ?run_gets, ?run_modify, ?run_stop,
            ?run_exit, ?run_cerr, ?run_systemp;
          cbv beta iota).

(** Two outcomes whose traces differ right after a common beginning are
    different. *)
Ltac trace_clash Heq :=
  apply (f_equal (fun o => trace (final_state o))) in Heq; simpl in Heq;
  rewrite <- ?app_assoc in Heq; apply app_inv_head in Heq; simpl in Heq;
  discriminate Heq.

(** ** [copyFile] *)

(** C10.  [copyFile(f, f)] skips the test for an existing destination and
    the [cp] command whatever [overwrite_files] is: the only command run is
    [chmod +w], and only its failure ends the run.  In general [copyFile]
    ends in the refusal to overwrite exactly when [from] differs from [to],
    overwriting is disabled and the destination exists. *)
Theorem copyFile_self_copy_skips_overwrite_check :
  (∀ (f : string) st,
      copyFile f f st =
        if nonzero (status (chmod_cmd f) st) then
          Stop (ExitCode 1)
            (warned ("Error : An error occured while trying to set write permissions on file " +:+ f)
               (ran (chmod_cmd f) st))
        else Ret tt (ran (chmod_cmd f) st))
  ∧ (∀ (from to : string) st,
      copyFile from to st = overwrite_refused to st
      ↔ from ≠ to ∧ overwrite_files (settings st) = false
        ∧ fileExists to st = Ret true st).
Proof.
  split.
  - intros f st. unfold copyFile, canOverwriteFiles, string_eqb. mrun.
    rewrite bool_decide_eq_true_2 by done. simpl. mrun.
    destruct (nonzero _); by mrun.
  - intros from to st. unfold copyFile, canOverwriteFiles, overwrite_refused, string_eqb.
    mrun. split.
    + destruct (decide (from = to)) as [->|Hne].
      * rewrite bool_decide_eq_true_2 by done. simpl. mrun.
        destruct (nonzero _); mrun; [|done]. intros Heq. trace_clash Heq.
      * rewrite bool_decide_eq_false_2 by done. simpl.
        destruct (overwrite_files (settings st)) eqn:Hov; simpl; mrun.
        -- destruct (nonzero _); mrun.
           ++ intros Heq. trace_clash Heq.
           ++ destruct (nonzero _); mrun; [|done].
              intros Heq. trace_clash Heq.
        -- rewrite !run_fileExists.
           destruct (access_ok (world st) to); [done|].
           destruct (is_empty (rtrim to)); [done|].
           destruct (access_ok (world st) (ltrim (rtrim to))); [done|].
           mrun. destruct (nonzero _); mrun.
           ++ intros Heq. trace_clash Heq.
           ++ destruct (nonzero _); mrun; [|done].
              intros Heq. trace_clash Heq.
    + intros (Hne & Hov & Hex).
      rewrite bool_decide_eq_false_2 by done. rewrite Hov. simpl. mrun.
      rewrite Hex. by mrun.
Qed.

(** ** [createDestDir] *)

(** C2, as amended.  Let [e] say whether the destination directory exists.
    If it exists and [overwrite_dir] is off, [createDestDir] returns and
    leaves the state as it was: no command is run.  If it exists and
    [overwrite_dir] is on, [rm -r] is run; its failure ends the run,
    otherwise the directory counts as absent.  An absent directory is made
    with [mkdir -p] when [create_dir] is on, and ends the run with status 1
    when it is off. *)
Theorem createDestDir_by_cases st (e : bool) :
  fileExists (dest_folder_str (settings st)) st = Ret e st →
  createDestDir st =
    let dest := dest_folder_str (settings st) in
    if e then
      if overwrite_dir (settings st) then
        if nonzero (status (rm_cmd dest) st) then
          Stop (ExitCode 1)
            (warned "Error : An error occured while attempting to overwrite dest folder."
               (ran (rm_cmd dest) st))
        else createMissingDestDir (ran (rm_cmd dest) st)
      else Ret tt st
    else createMissingDestDir st.
Proof.
  intros He. unfold createDestDir, destFolder, canOverwriteDir, canCreateDir.
  assert (Hmissing : ∀ st1, settings st1 = settings st →
    (if negb false then
       let* create := gets (λ st, create_dir (settings st)) in
       if create then
         let* rc := systemp (mkdir_cmd (dest_folder_str (settings st))) in
         if nonzero rc then
           cerr "Error : An error occured while creating dest folder.";; exit 1
         else ret tt
       else
         cerr "Error : Dest folder does not exist. Create it or pass the appropriate flag for automatic dest dir creation.";;
         exit 1
     else ret tt) st1 = createMissingDestDir st1).
  { intros st1 Hs. unfold createMissingDestDir. simpl. mrun. rewrite Hs.
    destruct (create_dir (settings st)); mrun; [|done].
    destruct (nonzero _); by mrun. }
  mrun. rewrite He. mrun.
  destruct e; simpl.
  - destruct (overwrite_dir (settings st)); mrun.
    + destruct (nonzero _); mrun; [done|]. by apply Hmissing.
    + done.
  - mrun. by apply Hmissing.
Qed.

(** ** [Dependency::fixFileThatDependsOnMe] *)

Lemma attempt_app file l1 l2 st :
  attempt file (l1 ++ l2) st =
    match attempt file l1 st with
    | Ret _ st' => attempt file l2 st'
    | Stop r st' => Stop r st'
    end.
Proof.
  revert st. induction l1 as [|c l1 IH]; intros st; [done|].
  simpl. destruct (nonzero _); [done|]. apply IH.
Qed.

Lemma attempt_Ret file l st st' :
  attempt file l st = Ret tt st' →
  settings st' = settings st ∧ missing_prefixes st' = missing_prefixes st
  ∧ trace st' = trace st ++ (Exec <$> l).
Proof.
  revert st. induction l as [|c l IH]; intros st; simpl.
  - intros [= <-]. by rewrite app_nil_r.
  - destruct (nonzero _); [done|]. intros Hrun.
    destruct (IH _ Hrun) as (-> & -> & ->). simpl.
    by rewrite <- app_assoc.
Qed.

Lemma changeInstallName_attempt file old new st :
  changeInstallName file old new st = attempt file [changeInstallName_cmd file old new] st.
Proof.
  unfold changeInstallName. mrun. simpl. destruct (nonzero _); by mrun.
Qed.

Lemma changeInstallNames_attempt s d file olds st :
  settings st = s →
  changeInstallNames file olds (getInnerPath d) st =
    attempt file (rewrite_cmd s d file <$> olds) st.
Proof.
  revert st. induction olds as [|old olds IH]; intros st Hs; [done|].
  simpl. unfold getInnerPath at 1, inside_lib_path. mrun.
  rewrite changeInstallName_attempt. simpl. unfold rewrite_cmd at 1. rewrite Hs.
  destruct (nonzero _); [done|]. mrun. by apply IH.
Qed.

(** The references that [fixFileThatDependsOnMe] rewrites, in order. *)
Lemma fixFileThatDependsOnMe_attempt d file st :
  fixFileThatDependsOnMe d file st =
    attempt file
      (rewrite_cmd (settings st) d file <$>
         (getOriginalPath d :: symlinks d)
         ++ (if missing_prefixes st then filename d :: symlinks d else []))
      st.
Proof.
  unfold fixFileThatDependsOnMe.
  rewrite fmap_app, attempt_app. rewrite fmap_cons.
  change (?x :: ?l) with ([x] ++ l) at 1. rewrite attempt_app.
  unfold getInnerPath at 1, inside_lib_path. mrun.
  rewrite changeInstallName_attempt. fold (rewrite_cmd (settings st) d file (getOriginalPath d)).
  destruct (attempt file [_] st) as [[] st1|] eqn:H1; [|done].
  apply attempt_Ret in H1 as (Hs1 & Hm1 & _).
  rewrite run_bind, (changeInstallNames_attempt (settings st)) by done.
  destruct (attempt file _ st1) as [[] st2|] eqn:H2; [|done].
  apply attempt_Ret in H2 as (Hs2 & Hm2 & _). mrun.
  rewrite Hm2, Hm1. destruct (missing_prefixes st); [|by mrun].
  rewrite fmap_cons. simpl attempt.
  unfold getInnerPath at 1, inside_lib_path. mrun.
  rewrite changeInstallName_attempt. simpl attempt. unfold rewrite_cmd at 1.
  rewrite Hs2, Hs1. destruct (nonzero _); [done|]. mrun.
  apply changeInstallNames_attempt. simpl. congruence.
Qed.

(** ** What a computation may change *)

Lemma spec_Ret {A} (R : relation (State World)) P (m : M A) st a st' :
  spec R P m → m st = Ret a st' → R st st' ∧ P a.
Proof. intros Hm Hrun. specialize (Hm st). by rewrite Hrun in Hm. Qed.

Lemma spec_fuel {A} (R : relation (State World)) P (m : M A) st st' :
  spec R P m → m st ≠ Stop OutOfFuel st'.
Proof. intros Hm Hrun. specialize (Hm st). by rewrite Hrun in Hm. Qed.

Lemma spec_weaken {A} (R R' : relation (State World)) (P P' : A → Prop) m :
  spec R P m → (∀ st st', R st st' → R' st st') → (∀ a, P a → P' a) → spec R' P' m.
Proof.
  intros Hm HR HP st. specialize (Hm st). destruct (m st); [|done].
  destruct Hm. split; auto.
Qed.

Lemma spec_ret {A} (R : relation (State World)) `{!Reflexive R} (P : A → Prop) a : P a → spec R P (ret a).
Proof. intros Ha st. by rewrite run_ret. Qed.

Lemma spec_gets {A} (R : relation (State World)) `{!Reflexive R} (f : State World → A) : spec R any (gets f).
Proof. intros st. by rewrite run_gets. Qed.

Lemma spec_modify (R : relation (State World)) (f : State World → State World) :
  (∀ st, R st (f st)) → spec R any (modify f).
Proof. intros Hf st. by rewrite run_modify. Qed.

Lemma spec_stop {A} (R : relation (State World)) (P : A → Prop) r : r ≠ OutOfFuel → spec R P (stop r).
Proof. intros Hr st. by rewrite run_stop. Qed.

Lemma spec_bind {A B} (R : relation (State World)) `{!Transitive R} (P : B → Prop) (m : M A) (k : A → M B) :
  spec R any m → (∀ a, spec R P (k a)) → spec R P (bind m k).
Proof.
  intros Hm Hk st. rewrite run_bind. specialize (Hm st).
  destruct (m st) as [a st1|]; [|done]. destruct Hm as [H1 _].
  specialize (Hk a st1). destruct (k a st1); [|done].
  destruct Hk. split; [by etrans|done].
Qed.

Lemma spec_any {A} (R : relation (State World)) (P : A → Prop) m : spec R P m → spec R any m.
Proof. intros Hm. by eapply spec_weaken. Qed.

#[local] Instance frame_preorder : PreOrder (@frame World).
Proof.
  split.
  - by intros st.
  - intros st1 st2 st3 (?&?&?&?&?&?&?) (?&?&?&?&?&?&?).
    unfold frame. split_and!; try congruence. auto.
Qed.

Create HintDb spec discriminated.

Ltac spec_step :=
  lazymatch goal with
  | |- spec _ _ (ret _) => apply spec_ret; [apply _ | done]
  | |- spec _ _ (gets _) => first [apply spec_gets; apply _ | eapply spec_weaken; [apply spec_gets; apply _|done|done]]
  | |- spec _ _ (modify _) =>
      first [apply spec_modify | eapply spec_weaken; [apply spec_modify|done|done]];
      try (by intros ?)
  | |- spec _ _ (stop _) => apply spec_stop; done
  | |- spec _ _ (exit _) => apply spec_stop; done
  | |- spec _ _ (bind _ _) => apply spec_bind; [apply _| |intros ?]
  | |- spec _ _ (when ?b _) => destruct b; simpl
  | |- spec _ _ (if ?b then _ else _) => destruct b
  | |- spec _ _ (match ?x with _ => _ end) => destruct x
  | |- spec _ any _ => solve [eauto with spec]
  | |- spec _ _ _ => solve [eauto with spec | eapply spec_weaken; [eauto with spec|done|done]]
  end.

Ltac spec_auto := repeat spec_step.

Lemma frame_cerr msg : spec (@frame World) any (cerr msg).
Proof. unfold cerr. spec_step. Qed.
Hint Resolve frame_cerr : spec.

Lemma frame_fileExists f : spec frame any (fileExists f).
Proof. unfold fileExists. spec_auto. Qed.
Hint Resolve frame_fileExists : spec.

Lemma frame_addSearchPath p : spec (@frame World) any (addSearchPath p).
Proof. unfold addSearchPath. spec_step. Qed.
Hint Resolve frame_addSearchPath : spec.

Lemma frame_searchPathsForFile paths f : spec frame any (searchPathsForFile paths f).
Proof. induction paths; simpl; spec_auto. Qed.
Hint Resolve frame_searchPathsForFile : spec.

Lemma frame_promptForDir input f : spec frame any (promptForDir input f).
Proof. induction input; simpl; spec_auto. Qed.
Hint Resolve frame_promptForDir : spec.

Lemma frame_getUserInputDirForFile f : spec frame any (getUserInputDirForFile f).
Proof. unfold getUserInputDirForFile. spec_auto. Qed.
Hint Resolve frame_getUserInputDirForFile : spec.

Lemma frame_addSearchPathItems items : spec (@frame World) any (addSearchPathItems items).
Proof. induction items; simpl; spec_auto. Qed.
Hint Resolve frame_addSearchPathItems : spec.

Lemma frame_initSearchPaths : spec frame any initSearchPaths.
Proof. unfold initSearchPaths. spec_auto. Qed.
Hint Resolve frame_initSearchPaths : spec.

Lemma frame_check_path r d p : spec frame any (check_path r d p).
Proof. unfold check_path. spec_auto. Qed.
Hint Resolve frame_check_path : spec.

Lemma frame_check_rpaths r d sfx rpaths : spec frame any (check_rpaths r d sfx rpaths).
Proof. induction rpaths; simpl; spec_auto. Qed.
Hint Resolve frame_check_rpaths : spec.

Lemma frame_firstSearchPathWith paths sfx : spec frame any (firstSearchPathWith paths sfx).
Proof. induction paths; simpl; spec_auto. Qed.
Hint Resolve frame_firstSearchPathWith : spec.

Lemma frame_rpaths_of key : spec (@frame World) any (rpaths_of key).
Proof. unfold rpaths_of. spec_auto. Qed.
Hint Resolve frame_rpaths_of : spec.

Lemma frame_searchFilenameInRpaths r d : spec frame any (searchFilenameInRpaths r d).
Proof. unfold searchFilenameInRpaths. spec_auto. Qed.
Hint Resolve frame_searchFilenameInRpaths : spec.

Lemma frame_resolveOriginalFile p d : spec frame any (resolveOriginalFile p d).
Proof. unfold resolveOriginalFile. spec_auto. Qed.
Hint Resolve frame_resolveOriginalFile : spec.

Lemma frame_findInSearchPaths paths f : spec frame any (findInSearchPaths paths f).
Proof. induction paths; simpl; spec_auto. Qed.
Hint Resolve frame_findInSearchPaths : spec.

Lemma frame_locationUnknown p f : spec frame any (locationUnknown p f).
Proof. unfold locationUnknown. spec_auto. Qed.
Hint Resolve frame_locationUnknown : spec.

(** ** [Dependency::Dependency] *)

(** C8, as amended.  For a reference that, once trimmed, does not begin
    with [@rpath] or [@loader_path] and that [realpath] cannot resolve, the
    first step of the constructor writes the warning and takes the
    reference with its trailing white space removed as the resolved file;
    it returns, and the constructor goes on from there. *)
Theorem Dependency_ctor_unresolved_reference (path dependent_file : string) st :
  isRpath (rtrim path) = false →
  realpath (world st) (rtrim path) = None →
  let warning := "/!\ WARNING : Cannot resolve path '" +:+ rtrim path +:+ "'" in
  resolveOriginalFile (rtrim path) dependent_file st = Ret (rtrim path) (warned warning st)
  ∧ Dependency_ctor path dependent_file st
    = locateDependency (rtrim path) (rtrim path) (warned warning st).
Proof.
  intros Hrel Hreal warning.
  assert (resolveOriginalFile (rtrim path) dependent_file st
          = Ret (rtrim path) (warned warning st)) as Hres.
  { unfold resolveOriginalFile. rewrite Hrel. mrun. by rewrite rtrim_idem, Hreal; mrun. }
  split; [done|]. unfold Dependency_ctor. by rewrite run_bind, Hres.
Qed.

Lemma locateDependency_spec path orig :
  spec frame
    (λ d, filename d = stripPrefix orig
          ∧ symlinks d = if negb (string_eqb orig path) then [path] else [])
    (locateDependency path orig).
Proof. unfold locateDependency. spec_auto. Qed.

(** What the constructor leaves alone, and what it builds: a leaf name
    without slash, and no symlink but the trimmed reference. *)
Lemma Dependency_ctor_spec path file :
  spec frame
    (λ d, contains "/" (filename d) = false ∧ ∀ s, s ∈ symlinks d → s = rtrim path)
    (Dependency_ctor path file).
Proof.
  unfold Dependency_ctor. apply spec_bind; [apply _|auto with spec|]. intros orig.
  eapply spec_weaken; [apply locateDependency_spec|done|].
  intros d [-> ->]. split; [apply stripPrefix_no_slash|].
  intros s. destruct (negb _); [|by intros ?%elem_of_nil].
  by intros ->%list_elem_of_singleton.
Qed.

(** ** The registry *)

Lemma elem_of_addSymlink x s syms : x ∈ addSymlink s syms ↔ x ∈ syms ∨ x = s.
Proof.
  unfold addSymlink. case_bool_decide as Hin.
  - split; [auto|]. by intros [?| ->].
  - rewrite elem_of_app, list_elem_of_singleton. done.
Qed.

(** [alias_union] is the union of the two sets of symlinks. *)
Lemma elem_of_alias_union x mine theirs :
  x ∈ alias_union mine theirs ↔ x ∈ mine ∨ x ∈ theirs.
Proof.
  unfold alias_union. revert mine. induction theirs as [|s theirs IH]; intros mine; simpl.
  - split; [auto|]. by intros [?|?%elem_of_nil].
  - rewrite IH, elem_of_addSymlink, elem_of_cons. tauto.
Qed.

Lemma mergeIfSameAs_eq dep entry :
  mergeIfSameAs dep entry
  = (string_eqb (filename entry) (filename dep), merged dep entry).
Proof. unfold mergeIfSameAs, merged, getOriginalFileName. by destruct (string_eqb _ _). Qed.

Lemma mergeInto_snd dep ds : (mergeInto dep ds).2 = merged dep <$> ds.
Proof.
  induction ds as [|e ds IH]; [done|]. simpl. rewrite mergeIfSameAs_eq.
  destruct (mergeInto dep ds). simpl in *. by rewrite IH.
Qed.

Lemma mergeInto_fst_false dep ds :
  Forall (λ e, filename e ≠ filename dep) ds → (mergeInto dep ds).1 = false.
Proof.
  induction 1 as [|e ds He _ IH]; [done|]. simpl. rewrite mergeIfSameAs_eq.
  destruct (mergeInto dep ds). simpl in *. rewrite IH.
  unfold string_eqb. by rewrite bool_decide_eq_false_2.
Qed.

Lemma mergeInto_fst_true dep ds :
  Exists (λ e, filename e = filename dep) ds → (mergeInto dep ds).1 = true.
Proof.
  induction 1 as [e ds He|e ds _ IH]; simpl; rewrite mergeIfSameAs_eq;
    destruct (mergeInto dep ds); simpl in *.
  - unfold string_eqb. by rewrite bool_decide_eq_true_2.
  - rewrite IH. apply orb_true_r.
Qed.

Lemma merged_other dep e : filename e ≠ filename dep → merged dep e = e.
Proof. intros Hne. unfold merged, string_eqb. by rewrite bool_decide_eq_false_2. Qed.

Lemma merged_fresh dep ds :
  Forall (λ e, filename e ≠ filename dep) ds → merged dep <$> ds = ds.
Proof.
  induction 1 as [|e ds He _ IH]; [done|]. rewrite fmap_cons, IH.
  by rewrite merged_other.
Qed.

Lemma filename_merged dep e : filename (merged dep e) = filename e.
Proof. unfold merged. by destruct (string_eqb _ _). Qed.

Lemma prefix_merged dep e : prefix (merged dep e) = prefix e.
Proof. unfold merged. by destruct (string_eqb _ _). Qed.

Lemma lookup_touch {V} (k : string) (d : V) (m : gmap string V) :
  is_Some (touch k d m !! k).
Proof.
  unfold touch. destruct (m !! k) eqn:Hk; [by rewrite Hk|].
  by rewrite lookup_insert_eq.
Qed.

Lemma lookup_touch_ne {V} (k g : string) (d : V) (m : gmap string V) :
  g ≠ k → touch k d m !! g = m !! g.
Proof.
  intros Hg. unfold touch. destruct (m !! k); [done|]. by rewrite lookup_insert_ne.
Qed.

Lemma touch_idem {V} (k : string) (d : V) (m : gmap string V) :
  touch k d (touch k d m) = touch k d m.
Proof. destruct (lookup_touch k d m) as [v Hv]. unfold touch at 1. by rewrite Hv. Qed.

(** [registerDependency] always returns.  The registry afterwards: every
    entry merged with [dep], and [dep] at the end when its prefix is
    bundled and no entry had its file name.  The index of [file] exists
    afterwards; no other index changes. *)
Lemma registerDependency_run dep file st :
  ∃ st', registerDependency dep file st = Ret tt st'
    ∧ deps st' = (merged dep <$> deps st)
        ++ (if isPrefixBundled (settings st) (prefix dep)
               && negb (mergeInto dep (deps st)).1 then [dep] else [])
    ∧ settings st' = settings st ∧ missing_prefixes st' = missing_prefixes st
    ∧ deps_collected st' = deps_collected st ∧ world st' = world st
    ∧ is_Some (deps_per_file st' !! file)
    ∧ (∀ g, g ≠ file → deps_per_file st' !! g = deps_per_file st !! g)
    ∧ (isPrefixBundled (settings st) (prefix dep) = false →
       deps_per_file st' = touch file [] (deps_per_file st)).
Proof.
  unfold registerDependency, deps_of, getPrefix. mrun. simpl.
  rewrite mergeInto_snd.
  pose proof (lookup_touch file ([] : list Dependency) (deps_per_file st)) as Htouch.
  pose proof (λ g, lookup_touch_ne file g ([] : list Dependency) (deps_per_file st)) as Hother.
  destruct (isPrefixBundled (settings st) (prefix dep)); simpl; mrun;
    [|eexists; split; [done|]; simpl; rewrite ?app_nil_r; split_and!; done].
  destruct (mergeInto dep (deps st)).1; simpl; mrun;
    destruct (mergeInto dep _).1; simpl; mrun; simpl; rewrite ?touch_idem;
    (eexists; split; [done|]); simpl; rewrite ?app_nil_r;
    split_and!; try done; rewrite ?lookup_insert_eq; try done;
    intros g Hg; rewrite ?lookup_insert_ne by done; by apply Hother.
Qed.

Lemma isPrefixBundled_ext s s' p :
  prefixes_to_ignore s' = prefixes_to_ignore s →
  isPrefixBundled s' p = isPrefixBundled s p.
Proof. intros Hs. unfold isPrefixBundled, isPrefixIgnored. by rewrite Hs. Qed.

Lemma isPrefixBundled_not_ignored s p :
  isPrefixIgnored s p = true → isPrefixBundled s p = false.
Proof.
  intros Hi. unfold isPrefixBundled. rewrite Hi.
  by repeat match goal with |- context [if ?b then _ else _] => destruct b end.
Qed.

Lemma isPrefixBundled_not_system s p :
  isPrefixBundled s p = true → isSystemLibrary p = false.
Proof.
  unfold isPrefixBundled.
  by repeat match goal with |- context [if ?b then _ else _] => destruct b eqn:? end.
Qed.

Lemma addDependency_run path file st d s1 :
  Dependency_ctor path file st = Ret d s1 →
  addDependency path file st = registerDependency d file s1.
Proof. intros Hc. unfold addDependency. by rewrite run_bind, Hc. Qed.

Lemma fmap_filename_merged dep (ds : list Dependency) :
  filename <$> (merged dep <$> ds) = filename <$> ds.
Proof.
  rewrite <- list_fmap_compose. apply list_fmap_ext. intros _ e _.
  apply filename_merged.
Qed.

(** What [Settings::ignore_prefix] adds to the ignore list. *)
Lemma ignore_prefix_adds p s s' :
  ignore_prefix p s = Some s' →
  prefixes_to_ignore s' = prefixes_to_ignore s ++ [ensure_trailing_slash p].
Proof.
  unfold ignore_prefix, ensure_trailing_slash.
  destruct (last_char p); [|done]. by intros [= <-].
Qed.

Lemma isPrefixIgnored_elem s p : isPrefixIgnored s p = true ↔ p ∈ prefixes_to_ignore s.
Proof.
  unfold isPrefixIgnored. induction (prefixes_to_ignore s) as [|q l IH]; simpl.
  - split; [done|by intros ?%elem_of_nil].
  - unfold string_eqb. rewrite elem_of_cons. case_bool_decide; [tauto|].
    rewrite IH. tauto.
Qed.

(** C4, as amended.  A reference whose resolved prefix is equal to an entry
    of the ignore list adds no entry to [deps]: [addDependency] returns,
    the entries of [deps] keep their file names and their number, and the
    index of the file gains nothing (it is created empty when it did not
    exist). *)
Theorem addDependency_ignored_prefix st (path file ignored : string) d s1 :
  ignored ∈ prefixes_to_ignore (settings st) →
  Dependency_ctor path file st = Ret d s1 →
  getPrefix d = ignored →
  ∃ st', addDependency path file st = Ret tt st'
    ∧ filename <$> deps st' = filename <$> deps st
    ∧ prefix <$> deps st' = prefix <$> deps st
    ∧ length (deps st') = length (deps st)
    ∧ deps_per_file st' = touch file [] (deps_per_file st).
Proof.
  intros Hin Hc Hpx. unfold getPrefix in Hpx.
  destruct (spec_Ret _ _ _ _ _ _ (Dependency_ctor_spec path file) Hc)
    as [(Hd & Hf & _ & _ & Hi & _) _].
  rewrite (addDependency_run _ _ _ _ _ Hc).
  destruct (registerDependency_run d file s1) as (st' & Hr & Hdeps & _ & _ & _ & _ & _ & _ & Hidx).
  assert (isPrefixBundled (settings s1) (prefix d) = false) as Hb.
  { apply isPrefixBundled_not_ignored, isPrefixIgnored_elem. by rewrite Hi, Hpx. }
  rewrite Hb in Hdeps. simpl in Hdeps. rewrite app_nil_r, Hd in Hdeps.
  exists st'. split; [done|]. rewrite Hdeps, (Hidx Hb), Hf. split_and!.
  - apply fmap_filename_merged.
  - rewrite <- list_fmap_compose. apply list_fmap_ext. intros _ e _. apply prefix_merged.
  - by rewrite length_fmap.
  - done.
Qed.

(** ** Inspection *)

#[local] Instance collecting_preorder : PreOrder (@collecting World).
Proof.
  split.
  - by intros st.
  - intros st1 st2 st3 (?&?&?&?&?&?) (?&?&?&?&?&?).
    unfold collecting. split_and!; try congruence; auto.
Qed.

#[local] Instance collecting_at_preorder file : PreOrder (@collecting_at World file).
Proof.
  split.
  - intros st. split; [done|]. split; [done|]. auto.
  - intros st1 st2 st3 (?&?&H12) (?&?&H23). split; [by etrans|].
    split; [congruence|]. intros g Hg. destruct (H23 g Hg); auto.
Qed.

#[local] Instance inspecting_preorder : PreOrder (@inspecting World _).
Proof.
  split.
  - intros st. split_and!; [done|done|auto|done].
  - intros st1 st2 st3 (Hc1 & Hi1 & Hn1 & Hg1) (Hc2 & Hi2 & Hn2 & Hg2).
    split_and!; [by etrans|auto| |].
    + intros f Hf. destruct (Hn2 f Hf) as [Hf2|Hf2]; [auto|].
      right. destruct Hc1 as [<- _]. done.
    + intros Hlen. destruct (decide (length (deps st2) = length (deps st1))) as [Heq|Hne].
      * destruct Hg2 as (f & Hnone & Hsome); [congruence|]. exists f. split; [|done].
        destruct (deps_collected st1 !! f) eqn:Hf; [|done].
        destruct Hc1 as (_ & _ & _ & _ & _ & Hmono).
        destruct (Hmono f) as [? Hx]; [by rewrite Hf|congruence].
      * destruct (Hg1 Hne) as (f & Hnone & Hsome). exists f. split; [done|].
        destruct Hc2 as (_ & _ & _ & _ & _ & Hmono). auto.
Qed.

Lemma frame_collecting st st' : frame st st' → collecting st st'.
Proof.
  intros (Hd & Hf & Hc & Hw & Hi & Hfs & Hm). unfold collecting. split_and!; try done.
  - intros Hok d Hin. rewrite Hd in Hin. destruct (Hok d Hin) as (Hb & ? & ?).
    split_and!; try done. by rewrite (isPrefixBundled_ext (settings st)).
  - intros f. by rewrite Hc.
Qed.

Lemma frame_collecting_at file st st' : frame st st' → collecting_at file st st'.
Proof.
  intros Hfr. split; [by apply frame_collecting|].
  destruct Hfr as (_ & Hf & Hc & _). split; [done|]. intros g. rewrite Hf. auto.
Qed.

Lemma frame_inspecting st st' : frame st st' → inspecting st st'.
Proof.
  intros Hfr. split; [by apply frame_collecting|].
  destruct Hfr as (Hd & Hf & Hc & _). split_and!.
  - unfold index_within. by rewrite Hf, Hc.
  - intros f. rewrite Hc. auto.
  - by rewrite Hd.
Qed.

Lemma spec_frame_collecting_at {A} file (m : M A) :
  spec (@frame World) any m → spec (collecting_at file) any m.
Proof. intros Hm. eapply spec_weaken; [done|apply frame_collecting_at|done]. Qed.

Lemma spec_frame_inspecting {A} (m : M A) : spec frame any m → spec inspecting any m.
Proof. intros Hm. eapply spec_weaken; [done|apply frame_inspecting|done]. Qed.
Hint Resolve spec_frame_collecting_at spec_frame_inspecting | 10 : spec.

(** Sequencing under three relations. *)
Lemma spec_seq {A B} (R1 R2 R : relation (State World)) (P : B → Prop)
    (m : M A) (k : A → M B) :
  spec R1 any m → (∀ a, spec R2 P (k a)) →
  (∀ s s1 s2, R1 s s1 → R2 s1 s2 → R s s2) →
  spec R P (bind m k).
Proof.
  intros Hm Hk HR st. rewrite run_bind. specialize (Hm st).
  destruct (m st) as [a st1|]; [|done]. destruct Hm as [H1 _].
  specialize (Hk a st1). destruct (k a st1); [|done].
  destruct Hk. split; [by eapply HR|done].
Qed.

Lemma entry_ok_merged s dep e :
  entry_ok s e → (∀ r, r ∈ symlinks dep → reference_kept r) → entry_ok s (merged dep e).
Proof.
  intros (Hb & Hn & Hs) Hdep. unfold merged. destruct (string_eqb _ _); [|done].
  split_and!; try done. simpl. intros r [?|?]%elem_of_alias_union; auto.
Qed.

(** A reference that passed the filters of [collectDependencies(filename)]
    keeps the registry in order. *)
Lemma spec_addDependency path file :
  reference_kept (rtrim path) → spec (collecting_at file) any (addDependency path file).
Proof.
  intros Hkept st. unfold addDependency. rewrite run_bind.
  pose proof (Dependency_ctor_spec path file st) as Hc.
  destruct (Dependency_ctor path file st) as [d s1|]; [|done].
  destruct Hc as [Hfr [Hns Hsym]].
  destruct (registerDependency_run d file s1)
    as (st' & -> & Hdeps & Hset & Hmiss & Hcol & Hw & _ & Hother & _).
  split; [|done]. etrans; [by apply frame_collecting_at|].
  assert (∀ r, r ∈ symlinks d → reference_kept r) as Hd.
  { intros r Hr. by rewrite (Hsym r Hr). }
  split; [|split; [done|]].
  - unfold collecting. rewrite Hset, Hmiss, Hcol. split_and!; try done.
    intros Hok e. rewrite Hdeps, Hset, elem_of_app. intros [Hin|Hin].
    + apply list_elem_of_fmap in Hin as (e0 & -> & Hin).
      by apply entry_ok_merged; [apply Hok|].
    + destruct (isPrefixBundled (settings s1) (prefix d)) eqn:Hb;
        [|by apply elem_of_nil in Hin].
      simpl in Hin. destruct (negb _); [|by apply elem_of_nil in Hin].
      by apply list_elem_of_singleton in Hin as ->.
  - intros g Hg. destruct (decide (g = file)) as [|Hne]; [by left|].
    right. by rewrite <- Hother.
Qed.

Lemma contains_dep_path_of_line q line :
  contains q (dep_path_of_line line) = true → contains q line = true.
Proof.
  unfold dep_path_of_line. destruct (rfind _ line) as [[|n]|].
  - apply contains_drop.
  - intros ?%contains_take. by eapply contains_drop.
  - apply contains_drop.
Qed.

Lemma not_true_false_rev (b c : bool) : (b = true → c = true) → c = false → b = false.
Proof. destruct b, c; intros Hbc Hc; try done. by specialize (Hbc eq_refl). Qed.

Lemma spec_collectLine file line : spec (collecting_at file) any (collectLine file line).
Proof.
  unfold collectLine. destruct line as [|c l]; [spec_step|].
  destruct (negb _); [spec_step|].
  destruct (contains ".framework" _) eqn:Hfw; [spec_step|].
  destruct (isSystemLibrary _) eqn:Hsys; [spec_step|].
  apply spec_addDependency. split.
  - eapply not_true_false_rev; [apply isSystemLibrary_rtrim|done].
  - eapply not_true_false_rev; [|exact Hfw].
    intros ?%contains_rtrim. by apply contains_dep_path_of_line.
Qed.
Hint Resolve spec_collectLine : spec.

Lemma spec_collectLines file lines : spec (collecting_at file) any (collectLines file lines).
Proof. induction lines; simpl; spec_auto. Qed.
Hint Resolve spec_collectLines : spec.

Lemma frame_scanRpaths_bounded file n :
  ∀ lc_lines read_rpath, length lc_lines ≤ n →
    spec (@frame World) any (scanRpaths file lc_lines read_rpath).
Proof.
  induction n as [|n IH]; intros [|line rest] read_rpath Hlen; simpl in *;
    try lia; spec_auto; try (apply IH; simpl in *; lia).
Qed.

Lemma frame_scanRpaths file lc_lines read_rpath :
  spec (@frame World) any (scanRpaths file lc_lines read_rpath).
Proof. by apply (frame_scanRpaths_bounded file (length lc_lines)). Qed.
Hint Resolve frame_scanRpaths : spec.

Lemma frame_collectRpaths file : spec frame any (collectRpaths file).
Proof. unfold collectRpaths, system_get_output. spec_auto. Qed.
Hint Resolve frame_collectRpaths : spec.

Lemma frame_scanLoadCommands raw searching lines :
  spec (@frame World) any (scanLoadCommands raw searching lines).
Proof. revert searching lines. induction raw; intros; simpl; spec_auto. Qed.
Hint Resolve frame_scanLoadCommands : spec.

Lemma frame_collectDependencies_lines file : spec frame any (collectDependencies_lines file).
Proof. unfold collectDependencies_lines, system_get_output. spec_auto. Qed.
Hint Resolve frame_collectDependencies_lines : spec.

Lemma collecting_at_marking file (s s1 s2 : State World) :
  collecting_at file s s1 → marking file s1 s2 → marking file s s2.
Proof. intros H1 (s' & H2 & ->). exists s'. split; [by etrans|done]. Qed.

Lemma collecting_at_inspected file (s s1 s2 : State World) :
  collecting_at file s s1 → inspected file s1 s2 → inspected file s s2.
Proof.
  intros H1 [H2 Hok]. split; [by eapply collecting_at_marking|].
  destruct H1 as [[<- _] _]. done.
Qed.

Lemma inspected_inspecting file st st' :
  deps_collected st !! file = None → inspected file st st' → inspecting st st'.
Proof.
  intros Hnew [(s & ((Hw & Hi & Hfs & Hm & Hreg & Hcol) & Hsame & Hidx) & ->) Hok].
  split_and!.
  - unfold collecting. simpl. split_and!; try done.
    intros f Hf. destruct (decide (f = file)) as [->|Hne].
    + by rewrite lookup_insert_eq.
    + rewrite lookup_insert_ne by done. auto.
  - intros Hin f. simpl. intros Hf. destruct (decide (f = file)) as [->|Hne].
    + by rewrite lookup_insert_eq.
    + rewrite lookup_insert_ne by done. rewrite Hsame.
      destruct (Hidx f Hf) as [?|?]; [done|auto].
  - intros f. simpl. destruct (decide (f = file)) as [->|Hne]; [auto|].
    rewrite lookup_insert_ne, Hsame by done. auto.
  - intros _. exists file. split; [done|]. simpl. by rewrite lookup_insert_eq.
Qed.

Lemma spec_collectDependencies_lines file :
  spec (λ st st', frame st st' ∧ inspectable (world st) file) any
    (collectDependencies_lines file).
Proof.
  intros st. pose proof (frame_collectDependencies_lines file st) as Hfr.
  unfold collectDependencies_lines, system_get_output, inspectable in *.
  rewrite run_bind, run_gets in *.
  destruct (otool_failed _); [by rewrite run_bind, run_cerr, run_exit|].
  destruct (scanLoadCommands _ _ _ st); [|done]. by destruct Hfr.
Qed.

Lemma spec_collectDependencies_fresh file :
  spec (inspected file) any
    (collectRpaths file;;
     let* lines := collectDependencies_lines file in
     collectLines file lines;;
     modify (λ st, set_deps_collected (<[file := true]> (deps_collected st)) st)).
Proof.
  eapply spec_seq; [by apply spec_frame_collecting_at, frame_collectRpaths|
                    |apply collecting_at_inspected].
  intros _.
  eapply (spec_seq _ (marking file)); [apply spec_collectDependencies_lines| |].
  2:{ intros s s1 s2 [Hfr Hok] Hmark. split; [|done].
      eapply collecting_at_marking; [|done]. by apply frame_collecting_at. }
  intros lines.
  eapply spec_seq; [apply spec_collectLines| |apply collecting_at_marking].
  intros _. apply spec_modify. intros st. by exists st.
Qed.

Lemma spec_collectDependencies file : spec inspecting any (collectDependencies file).
Proof.
  intros st. unfold collectDependencies. rewrite run_bind, run_gets.
  destruct (deps_collected st !! file) eqn:Hnew; [by rewrite run_ret|].
  pose proof (spec_collectDependencies_fresh file st) as Hrun.
  match goal with |- match ?m with _ => _ end => destruct m as [a st'|] end; [|done].
  destruct Hrun. split; [by eapply inspected_inspecting|done].
Qed.
Hint Resolve spec_collectDependencies : spec.

Lemma spec_collectSubDependency n : spec inspecting any (collectSubDependency n).
Proof. unfold collectSubDependency. spec_auto. Qed.
Hint Resolve spec_collectSubDependency : spec.

Lemma spec_collectSubDependencies_pass count n :
  spec inspecting any (collectSubDependencies_pass count n).
Proof. revert n. induction count; intros n; simpl; spec_auto. Qed.
Hint Resolve spec_collectSubDependencies_pass : spec.

Lemma spec_collectFilesToFix fs : spec inspecting any (collectFilesToFix fs).
Proof. induction fs; simpl; spec_auto. Qed.

Lemma collectSubDependencies_inspecting fuel st st' :
  collectSubDependencies fuel st = Ret tt st' → inspecting st st'.
Proof.
  revert st. induction fuel as [|fuel IH]; intros st; [done|]. simpl.
  rewrite run_bind, run_gets, run_bind.
  pose proof (spec_collectSubDependencies_pass (length (deps st)) 0 st) as Hpass.
  destruct (collectSubDependencies_pass _ _ st) as [[] s1|]; [|done].
  destruct Hpass as [Hpass _]. rewrite run_bind, run_gets.
  case_bool_decide.
  - rewrite run_ret. by intros [= <-].
  - intros Hrest. etrans; [done|]. by apply IH.
Qed.

Lemma inspects_inspecting st st' : rtc inspects st st' → inspecting st st'.
Proof.
  induction 1 as [|s1 s2 s3 Hstep _ IH]; [done|]. etrans; [|done].
  destruct Hstep as [f s1 s2 Hrun|fuel s1 s2 Hrun].
  - by destruct (spec_Ret _ _ _ _ _ _ (spec_collectDependencies f) Hrun).
  - by eapply collectSubDependencies_inspecting.
Qed.

(** C3.  A line whose reference is a system library or lies in a
    framework leaves the whole state as it is, however often it is met.
    And after any number of inspections, from a registry in order (an empty
    one is), no entry of [deps] has such a reference among its symlinks,
    nor a system library as its original path; [/usr/lib/libSystem.B.dylib]
    in particular is neither. *)
Theorem system_and_framework_references_not_registered :
  (∀ (file line : string) st,
      isSystemLibrary (dep_path_of_line line) = true
      ∨ contains ".framework" (dep_path_of_line line) = true →
      collectLine file line st = Ret tt st)
  ∧ (∀ st st' d (r : string),
      registry_ok st → rtc inspects st st' → d ∈ deps st' →
      isSystemLibrary r = true ∨ contains ".framework" r = true →
      (r ∉ symlinks d) ∧ (isSystemLibrary r = true → getOriginalPath d ≠ r))
  ∧ (∀ st st' d,
      deps st = [] → rtc inspects st st' → d ∈ deps st' →
      ("/usr/lib/libSystem.B.dylib" ∉ symlinks d)
      ∧ getOriginalPath d ≠ "/usr/lib/libSystem.B.dylib").
Proof.
  assert (Hgen : ∀ st st' d (r : string),
      registry_ok st → rtc inspects st st' → d ∈ deps st' →
      isSystemLibrary r = true ∨ contains ".framework" r = true →
      (r ∉ symlinks d) ∧ (isSystemLibrary r = true → getOriginalPath d ≠ r)).
  { intros st st' d r Hok Hrun Hd Hr.
    destruct (inspects_inspecting _ _ Hrun) as [(_ & _ & _ & _ & Hreg & _) _].
    destruct (Hreg Hok d Hd) as (Hb & Hns & Hsym). split.
    - intros Hin. destruct (Hsym r Hin) as [Hs Hf]. destruct Hr; congruence.
    - intros Hsys <-. unfold getOriginalPath in Hsys.
      apply isSystemLibrary_app in Hsys; [|done].
      apply isPrefixBundled_not_system in Hb. congruence. }
  split_and!; [|exact Hgen|].
  - intros file line st Hr. unfold collectLine. destruct line as [|c l]; [done|].
    destruct (negb _); [done|].
    destruct (contains ".framework" (String c l)) eqn:Hfw; [done|].
    destruct Hr as [->|Hr]; [done|].
    apply contains_dep_path_of_line in Hr. congruence.
  - intros st st' d Hempty Hrun Hd.
    destruct (Hgen st st' d "/usr/lib/libSystem.B.dylib") as [Hs Hp]; try done.
    + intros e. rewrite Hempty. by intros ?%elem_of_nil.
    + by left.
    + split; [done|]. by apply Hp.
Qed.

(** ** The turns of [collectSubDependencies] *)

Section Expansion.
Variable U : gset string.

Lemma inspecting_within_U st st' :
  within_U U st → inspecting st st' →
  within_U U st'
  ∧ (length (deps st') ≠ length (deps st) →
     size (deps_collected st) < size (deps_collected st')).
Proof.
  intros [HU Hdom] ((Hw & _ & _ & _ & _ & Hmono) & _ & Hnew & Hgrow). split_and!.
  - split; [by rewrite Hw|]. intros f [v Hf]%elem_of_dom.
    destruct (Hnew f) as [Hold|Hok]; [by rewrite Hf| |by apply HU].
    by apply Hdom, elem_of_dom.
  - intros Hlen. destruct (Hgrow Hlen) as (f & Hnone & Hsome).
    rewrite <- !size_dom. apply subset_size. split.
    + intros g. rewrite !elem_of_dom. apply Hmono.
    + intros Hsub. specialize (Hsub f). rewrite !elem_of_dom, Hnone in Hsub.
      destruct Hsub as [? ?]; done.
Qed.

Lemma collectSubDependencies_S fuel st :
  collectSubDependencies (S fuel) st =
    match collectSubDependencies_pass (length (deps st)) 0 st with
    | Ret _ s1 =>
        if bool_decide (length (deps s1) = length (deps st)) then Ret tt s1
        else collectSubDependencies fuel s1
    | Stop r s1 => Stop r s1
    end.
Proof.
  simpl. rewrite run_bind, run_gets, run_bind.
  destruct (collectSubDependencies_pass _ _ st) as [[] s1|]; [|done].
  rewrite run_bind, run_gets. by case_bool_decide.
Qed.

Lemma collectSubDependencies_more_fuel fuel k :
  ∀ st, (∀ st', collectSubDependencies fuel st ≠ Stop OutOfFuel st') →
        collectSubDependencies (fuel + k) st = collectSubDependencies fuel st.
Proof.
  induction fuel as [|fuel IH]; intros st Hfuel; [by destruct (Hfuel st)|].
  change (S fuel + k) with (S (fuel + k)).
  rewrite !collectSubDependencies_S. rewrite collectSubDependencies_S in Hfuel.
  destruct (collectSubDependencies_pass _ _ st) as [[] s1|r s1]; [|done].
  case_bool_decide; [done|]. by apply IH.
Qed.

End Expansion.

(** ** Ordered search lists *)

Lemma run_check_path rpath_file dependent_file path st :
  dependent_file ≠ rpath_file →
  check_path rpath_file dependent_file path st =
    match realpath (world st) (rpath_candidate dependent_file path) with
    | Some fullpath =>
        Ret (Some fullpath)
          (set_rpath_to_fullpath (<[rpath_file := fullpath]> (rpath_to_fullpath st)) st)
    | None => Ret None st
    end.
Proof.
  intros Hne. unfold check_path, string_eqb. rewrite bool_decide_eq_false_2 by done.
  simpl. rewrite run_bind, run_gets. fold (rpath_candidate dependent_file path).
  destruct (realpath _ _); by mrun.
Qed.

(** The rpaths of the dependent file: the first whose candidate
    [realpath] resolves ends the loop. *)
Lemma check_rpaths_first rpath_file dependent_file suffix before entry after fullpath st :
  dependent_file ≠ rpath_file →
  (∀ e, e ∈ before →
        last_char e ≠ None
        ∧ realpath (world st)
            (rpath_candidate dependent_file (ensure_trailing_slash e +:+ suffix)) = None) →
  last_char entry ≠ None →
  realpath (world st)
    (rpath_candidate dependent_file (ensure_trailing_slash entry +:+ suffix))
    = Some fullpath →
  check_rpaths rpath_file dependent_file suffix (before ++ entry :: after) st
  = Ret true (set_rpath_to_fullpath (<[rpath_file := fullpath]> (rpath_to_fullpath st)) st).
Proof.
  intros Hne Hbefore Hlast Hhit. induction before as [|e before IH]; simpl.
  - unfold ensure_trailing_slash in Hhit. destruct (last_char entry) as [c|]; [|done].
    rewrite run_bind, run_check_path, Hhit by done. by mrun.
  - destruct (Hbefore e) as [He Hmiss]; [by left|].
    unfold ensure_trailing_slash in Hmiss. destruct (last_char e) as [c|]; [|done].
    rewrite run_bind, run_check_path, Hmiss by done.
    apply IH. intros e' He'. apply Hbefore. by right.
Qed.

(** The search paths in [searchFilenameInRpaths]: the first under which
    the file exists. *)
Lemma firstSearchPathWith_first suffix before entry after st :
  (∀ e, e ∈ before → fileExists (e +:+ suffix) st = Ret false st) →
  fileExists (entry +:+ suffix) st = Ret true st →
  firstSearchPathWith (before ++ entry :: after) suffix st = Ret (Some entry) st.
Proof.
  intros Hbefore Hhit. induction before as [|e before IH]; simpl.
  - rewrite run_bind, Hhit. by mrun.
  - rewrite run_bind, (Hbefore e) by (by left).
    apply IH. intros e' He'. apply Hbefore. by right.
Qed.

(** The search paths in the constructor. *)
Lemma findInSearchPaths_first file before entry after st :
  (∀ e, e ∈ before → fileExists (e +:+ file) st = Ret false st) →
  fileExists (entry +:+ file) st = Ret true st →
  findInSearchPaths (before ++ entry :: after) file st
  = Ret (Some entry) (set_missing_prefixes true st).
Proof.
  intros Hbefore Hhit. induction before as [|e before IH]; simpl.
  - rewrite run_bind, Hhit. by mrun.
  - rewrite run_bind, (Hbefore e) by (by left).
    apply IH. intros e' He'. apply Hbefore. by right.
Qed.

(** The search paths in [getUserInputDirForFile]. *)
Lemma searchPathsForFile_first file before entry after st :
  (∀ e, e ∈ before → fileExists (ensure_trailing_slash e +:+ file) st = Ret false st) →
  fileExists (ensure_trailing_slash entry +:+ file) st = Ret true st →
  ∃ st', searchPathsForFile (before ++ entry :: after) file st
         = Ret (Some (ensure_trailing_slash entry)) st'.
Proof.
  intros Hbefore Hhit. induction before as [|e before IH]; simpl.
  - rewrite run_bind, Hhit. mrun. eauto.
  - rewrite run_bind, (Hbefore e) by (by left).
    apply IH. intros e' He'. apply Hbefore. by right.
Qed.

(** [searchFilenameInRpaths] on a reference that is not in the cache and
    that does not resolve next to the dependent file: the first rpath of
    the dependent file whose candidate resolves gives the result. *)
Lemma searchFilenameInRpaths_first_rpath
    rpath_file dependent_file before entry after fullpath st :
  let suffix := regex_replace rpath_file "^@[a-z_]+path/" EmptyString in
  rpath_to_fullpath st !! rpath_file = None →
  dependent_file ≠ rpath_file →
  realpath (world st) (rpath_candidate dependent_file rpath_file) = None →
  rpaths_per_file st !! dependent_file = Some (before ++ entry :: after) →
  (∀ e, e ∈ before →
        last_char e ≠ None
        ∧ realpath (world st)
            (rpath_candidate dependent_file (ensure_trailing_slash e +:+ suffix)) = None) →
  last_char entry ≠ None →
  realpath (world st)
    (rpath_candidate dependent_file (ensure_trailing_slash entry +:+ suffix))
    = Some fullpath →
  is_empty fullpath = false →
  ∃ st', searchFilenameInRpaths rpath_file dependent_file st = Ret fullpath st'
         ∧ rpath_to_fullpath st' !! rpath_file = Some fullpath.
Proof.
  intros suffix Hcache Hne Hdirect Hrpaths Hbefore Hlast Hhit Hfull.
  unfold searchFilenameInRpaths. fold suffix. mrun. rewrite Hcache. mrun.
  rewrite run_check_path, Hdirect by done. unfold rpaths_of. mrun. simpl.
  assert (at_key dependent_file [] (touch dependent_file [] (rpaths_per_file st))
          = before ++ entry :: after) as ->.
  { unfold at_key, touch. by rewrite !Hrpaths. }
  rewrite (check_rpaths_first _ _ _ _ _ _ fullpath) by done.
  mrun. simpl. rewrite lookup_insert_eq. simpl. rewrite Hfull. mrun.
  eexists. split; [done|]. simpl. by rewrite lookup_insert_eq.
Qed.

Lemma last_char_cons c s : last_char (String c s) ≠ None.
Proof. revert c. induction s as [|c' s IH]; intros c; [done|]. apply (IH c'). Qed.

Lemma check_path_eq rpath_file dependent_file path st :
  check_path rpath_file dependent_file path st =
    if bool_decide (dependent_file = rpath_file) then Ret None st
    else match realpath (world st) (rpath_candidate dependent_file path) with
         | Some fullpath =>
             Ret (Some fullpath)
               (set_rpath_to_fullpath (<[rpath_file := fullpath]> (rpath_to_fullpath st)) st)
         | None => Ret None st
         end.
Proof.
  case_bool_decide as Hself; [|by apply run_check_path].
  unfold check_path, string_eqb. by rewrite bool_decide_eq_true_2.
Qed.

Lemma check_rpaths_cons rpath_file dependent_file suffix c e rest st :
  check_rpaths rpath_file dependent_file suffix (String c e :: rest) st
  = (let* r := check_path rpath_file dependent_file
                 (ensure_trailing_slash (String c e) +:+ suffix) in
     match r with
     | Some _ => ret true
     | None => check_rpaths rpath_file dependent_file suffix rest
     end) st.
Proof.
  change (check_rpaths rpath_file dependent_file suffix (String c e :: rest))
    with (match last_char (String c e) with
          | None => stop Abort
          | Some c' =>
              let rpath := if ascii_eqb c' "/" then String c e else String c e +:+ "/" in
              let* r := check_path rpath_file dependent_file (rpath +:+ suffix) in
              match r with
              | Some _ => ret true
              | None => check_rpaths rpath_file dependent_file suffix rest
              end
          end).
  unfold ensure_trailing_slash.
  pose proof (last_char_cons c e) as Hlast.
  by destruct (last_char (String c e)).
Qed.

(** No entry whose candidate resolves: the loop goes through the list and
    records nothing. *)
Lemma check_rpaths_none rpath_file dependent_file suffix rpaths st :
  (∀ e, e ∈ rpaths →
        e ≠ EmptyString
        ∧ (dependent_file = rpath_file
           ∨ realpath (world st)
               (rpath_candidate dependent_file (ensure_trailing_slash e +:+ suffix)) = None)) →
  check_rpaths rpath_file dependent_file suffix rpaths st = Ret false st.
Proof.
  induction rpaths as [|e rest IH]; intros Hall; [done|].
  destruct (Hall e) as [Hne Hmiss]; [by left|]. destruct e as [|c e]; [done|].
  rewrite check_rpaths_cons, run_bind, check_path_eq.
  assert (∀ e', e' ∈ rest →
            e' ≠ EmptyString
            ∧ (dependent_file = rpath_file
               ∨ realpath (world st)
                   (rpath_candidate dependent_file (ensure_trailing_slash e' +:+ suffix)) = None))
    as Hrest by (intros e' He'; apply Hall; by right).
  case_bool_decide as Hself; [by apply IH|].
  destruct Hmiss as [?| ->]; [done|]. by apply IH.
Qed.

(** Two runs that get the same answers from [realpath] on the candidates
    of the list take the same entry. *)
Lemma check_rpaths_two_runs rpath_file dependent_file suffix rpaths st1 st2 :
  Forall (λ e, e ≠ EmptyString) rpaths →
  (∀ e, e ∈ rpaths →
        realpath (world st1)
          (rpath_candidate dependent_file (ensure_trailing_slash e +:+ suffix))
        = realpath (world st2)
            (rpath_candidate dependent_file (ensure_trailing_slash e +:+ suffix))) →
  returned (check_rpaths rpath_file dependent_file suffix rpaths st1)
  = returned (check_rpaths rpath_file dependent_file suffix rpaths st2)
  ∧ (returned (check_rpaths rpath_file dependent_file suffix rpaths st1) = Some true →
     rpath_to_fullpath (final_state (check_rpaths rpath_file dependent_file suffix rpaths st1))
       !! rpath_file
     = rpath_to_fullpath (final_state (check_rpaths rpath_file dependent_file suffix rpaths st2))
         !! rpath_file).
Proof.
  induction 1 as [|e rest Hne _ IH]; intros Hsame; [done|].
  destruct e as [|c e]; [done|].
  rewrite !check_rpaths_cons, !run_bind, !check_path_eq.
  assert (∀ e', e' ∈ rest →
            realpath (world st1)
              (rpath_candidate dependent_file (ensure_trailing_slash e' +:+ suffix))
            = realpath (world st2)
                (rpath_candidate dependent_file (ensure_trailing_slash e' +:+ suffix)))
    as Hrest by (intros e' He'; apply Hsame; by right).
  case_bool_decide as Hself; [by apply IH|].
  rewrite <- (Hsame (String c e)) by (by left).
  destruct (realpath (world st1) _) as [fullpath|]; [|by apply IH].
  rewrite !run_ret. simpl. by rewrite !lookup_insert_eq.
Qed.

Lemma returned_fileExists f st :
  fileExists f st = match returned (fileExists f st) with
                    | Some b => Ret b st
                    | None => Stop Abort st
                    end.
Proof.
  rewrite run_fileExists. destruct (access_ok _ f); [done|]. by destruct (is_empty _).
Qed.

Lemma firstSearchPathWith_two_runs paths suffix st1 st2 :
  (∀ e, e ∈ paths →
        returned (fileExists (e +:+ suffix) st1) = returned (fileExists (e +:+ suffix) st2)) →
  returned (firstSearchPathWith paths suffix st1)
  = returned (firstSearchPathWith paths suffix st2).
Proof.
  induction paths as [|e rest IH]; intros Hsame; [done|]. simpl.
  rewrite !run_bind, (returned_fileExists _ st1), (returned_fileExists _ st2).
  rewrite <- (Hsame e) by (by left).
  destruct (returned (fileExists (e +:+ suffix) st1)) as [[]|]; [done| |done].
  apply IH. intros e' He'. apply Hsame. by right.
Qed.

(** ** Files and settings *)

(** X6.  [fileExists] looks for the name as it is given and, failing that,
    for the name without the white space around it: a name that is padded
    on either side is found when the padded or the bare name exists.  On a
    name that is all white space, the empty name among them, and that does
    not exist, [substr] throws and the run ends there. *)
Theorem fileExists_trims_the_name (l t r blank : string) st :
  (chars_all Ascii.is_space l = true → chars_all Ascii.is_space r = true →
   t ≠ EmptyString → ltrim t = t → rtrim t = t →
   fileExists (l +:+ t +:+ r) st
   = Ret (access_ok (world st) (l +:+ t +:+ r) || access_ok (world st) t) st)
  ∧ (chars_all Ascii.is_space blank = true → access_ok (world st) blank = false →
     fileExists blank st = Stop Abort st).
Proof.
  split.
  - intros Hl Hr Ht Hlt Hrt. rewrite run_fileExists.
    destruct (access_ok (world st) (l +:+ t +:+ r)); [done|].
    rewrite <- app_assoc_str, rtrim_app_blank, rtrim_app_kept, Hrt by (done || congruence).
    rewrite ltrim_app_blank, Hlt by done.
    destruct (l +:+ t) eqn:Hlt'; [by apply app_str_empty in Hlt'|done].
  - intros Hb Hno. by rewrite run_fileExists, Hno, rtrim_blank.
Qed.

(** X7.  What [Settings::ignore_prefix] does to a prefix that is not empty:
    the prefix, with a slash at its end, is ignored from then on and is not
    bundled; what was ignored stays ignored, and nothing else becomes
    so. *)
Theorem ignore_prefix_then_ignored (p : string) (s : Settings) :
  p ≠ EmptyString →
  ∃ s', ignore_prefix p s = Some s'
    ∧ isPrefixIgnored s' (ensure_trailing_slash p) = true
    ∧ isPrefixBundled s' (ensure_trailing_slash p) = false
    ∧ (∀ q, isPrefixIgnored s' q = true
            ↔ isPrefixIgnored s q = true ∨ q = ensure_trailing_slash p).
Proof.
  intros Hp.
  assert (∃ s', ignore_prefix p s = Some s') as [s' Hs'].
  { unfold ignore_prefix. destruct (last_char p) eqn:Hl; [eauto|]. exfalso.
    clear -Hp Hl. induction p as [|c p IH]; [done|]. simpl in Hl.
    destruct p; [done|]. by apply IH. }
  pose proof (ignore_prefix_adds _ _ _ Hs') as Hadd.
  assert (∀ q, isPrefixIgnored s' q = true
               ↔ isPrefixIgnored s q = true ∨ q = ensure_trailing_slash p) as Hiff.
  { intros q. rewrite !isPrefixIgnored_elem, Hadd, elem_of_app, list_elem_of_singleton.
    done. }
  exists s'. split_and!; [done| | |done].
  - apply Hiff. by right.
  - apply isPrefixBundled_not_ignored, Hiff. by right.
Qed.

(** ** However a computation ends *)

Lemma always_ret {A} (R : relation (State World)) `{!Reflexive R} (a : A) : always R (ret a).
Proof. by intros st. Qed.

Lemma always_gets {A} (R : relation (State World)) `{!Reflexive R} (f : State World → A) :
  always R (gets f).
Proof. by intros st. Qed.

Lemma always_stop {A} (R : relation (State World)) `{!Reflexive R} r : always R (stop (A:=A) r).
Proof. by intros st. Qed.

Lemma always_modify (R : relation (State World)) (f : State World → State World) :
  (∀ st, R st (f st)) → always R (modify f).
Proof. intros Hf st. apply Hf. Qed.

Lemma always_bind {A B} (R : relation (State World)) `{!Transitive R}
    (m : M A) (k : A → M B) :
  always R m → (∀ a, always R (k a)) → always R (bind m k).
Proof.
  intros Hm Hk st. rewrite run_bind. specialize (Hm st).
  destruct (m st) as [a st1|r st1]; [|done]. simpl in Hm.
  etrans; [done|]. apply Hk.
Qed.

Lemma always_weaken {A} (R R' : relation (State World)) (m : M A) :
  always R m → (∀ st st', R st st' → R' st st') → always R' m.
Proof. intros Hm HR st. apply HR, Hm. Qed.

Lemma execs_app t1 t2 : execs (t1 ++ t2) = execs t1 ++ execs t2.
Proof. apply omap_app. Qed.

#[local] Instance quiet_preorder : PreOrder (@quiet World).
Proof.
  split.
  - by intros st.
  - intros st1 st2 st3 (?&?&?&?) (?&?&?&?). unfold quiet.
    split_and!; [congruence..|auto].
Qed.

Create HintDb always discriminated.

Ltac always_step :=
  lazymatch goal with
  | |- always _ (ret _) => apply always_ret; apply _
  | |- always _ (gets _) => apply always_gets; apply _
  | |- always _ (stop _) => apply always_stop; apply _
  | |- always _ (exit _) => apply always_stop; apply _
  | |- always _ (modify _) =>
      apply always_modify; intros ?; unfold quiet; simpl;
      rewrite ?execs_app, ?app_nil_r; split_and!; auto
  | |- always _ (bind _ _) => apply always_bind; [apply _| |intros ?]
  | |- always _ (when ?b _) => destruct b; simpl
  | |- always _ (if ?b then _ else _) => destruct b
  | |- always _ (match ?x with _ => _ end) => destruct x
  | |- always _ _ => solve [eauto with always]
  end.

Ltac always_auto := repeat always_step.

Lemma quiet_cerr msg : always (@quiet World) (cerr msg).
Proof. unfold cerr. always_step. Qed.
Hint Resolve quiet_cerr : always.

Lemma quiet_fileExists f : always quiet (fileExists f).
Proof. unfold fileExists. always_auto. Qed.
Hint Resolve quiet_fileExists : always.

Lemma quiet_addSearchPath p : always (@quiet World) (addSearchPath p).
Proof. unfold addSearchPath. always_step. Qed.
Hint Resolve quiet_addSearchPath : always.

Lemma quiet_searchPathsForFile paths f : always quiet (searchPathsForFile paths f).
Proof. induction paths; simpl; always_auto. Qed.
Hint Resolve quiet_searchPathsForFile : always.

Lemma quiet_promptForDir input f : always quiet (promptForDir input f).
Proof. induction input; simpl; always_auto. Qed.
Hint Resolve quiet_promptForDir : always.

Lemma quiet_getUserInputDirForFile f : always quiet (getUserInputDirForFile f).
Proof. unfold getUserInputDirForFile. always_auto. Qed.
Hint Resolve quiet_getUserInputDirForFile : always.

Lemma quiet_addSearchPathItems items : always (@quiet World) (addSearchPathItems items).
Proof. induction items; simpl; always_auto. Qed.
Hint Resolve quiet_addSearchPathItems : always.

Lemma quiet_initSearchPaths : always quiet initSearchPaths.
Proof. unfold initSearchPaths. always_auto. Qed.
Hint Resolve quiet_initSearchPaths : always.

Lemma quiet_firstSearchPathWith paths sfx : always quiet (firstSearchPathWith paths sfx).
Proof. induction paths; simpl; always_auto. Qed.
Hint Resolve quiet_firstSearchPathWith : always.

Lemma quiet_rpaths_of key : always (@quiet World) (rpaths_of key).
Proof. unfold rpaths_of. always_auto. Qed.
Hint Resolve quiet_rpaths_of : always.

Lemma quiet_deps_of key : always (@quiet World) (deps_of key).
Proof. unfold deps_of. always_auto. Qed.
Hint Resolve quiet_deps_of : always.

(** [check_path] either fails and leaves the state as it is, or succeeds
    and records the path it found for the reference. *)
Lemma check_path_cases r d p st :
  check_path r d p st = Ret None st
  ∨ ∃ fullpath,
      check_path r d p st
      = Ret (Some fullpath)
          (set_rpath_to_fullpath (<[r := fullpath]> (rpath_to_fullpath st)) st).
Proof.
  unfold check_path. destruct (negb _); [|by left]. rewrite run_bind, run_gets.
  destruct (realpath _ _) as [fullpath|]; mrun; [right; by exists fullpath|by left].
Qed.

Lemma quiet_recorded r fullpath st :
  rpath_to_fullpath st !! r = None →
  quiet st (set_rpath_to_fullpath (<[r := fullpath]> (rpath_to_fullpath st)) st).
Proof.
  intros Hnone. unfold quiet. simpl. split_and!; try done.
  intros r' p Hr'. rewrite lookup_insert_ne; [done|]. intros ->. congruence.
Qed.

(** A reference that is not in [rpath_to_fullpath] yet is recorded at most
    once. *)
Lemma quiet_check_rpaths r d sfx rpaths st :
  rpath_to_fullpath st !! r = None →
  quiet st (final_state (check_rpaths r d sfx rpaths st)).
Proof.
  intros Hnone. induction rpaths as [|rpath rest IH]; simpl; [done|].
  destruct (last_char rpath) as [c|]; [|done]. rewrite run_bind.
  destruct (check_path_cases r d ((if ascii_eqb c "/" then rpath else rpath +:+ "/") +:+ sfx) st)
    as [->|[fullpath ->]]; [done|].
  rewrite run_ret. by apply quiet_recorded.
Qed.

Lemma final_state_bind {A B} (m : M A) (k : A → M B) st :
  final_state (bind m k st)
  = match m st with
    | Ret a s => final_state (k a s)
    | Stop _ s => s
    end.
Proof. rewrite run_bind. by destruct (m st). Qed.

Lemma always_bind_from {A B} (R : relation (State World)) `{!Transitive R}
    (m : M A) (k : A → M B) st :
  R st (final_state (m st)) → (∀ a, always R (k a)) → R st (final_state (bind m k st)).
Proof.
  intros Hm Hk. rewrite final_state_bind. destruct (m st) as [a s|]; [|done].
  simpl in Hm. etrans; [done|]. apply Hk.
Qed.

Lemma quiet_searchFilenameInRpaths r d : always quiet (searchFilenameInRpaths r d).
Proof.
  intros st. unfold searchFilenameInRpaths. rewrite run_bind, run_gets.
  apply always_bind_from; [apply _| |intros fullpath; always_auto].
  destruct (rpath_to_fullpath st !! r) as [p|] eqn:Hcache; [done|].
  rewrite final_state_bind.
  destruct (check_path_cases r d r st) as [->|[fullpath ->]];
    [|rewrite run_ret; by apply quiet_recorded].
  rewrite final_state_bind. unfold rpaths_of. mrun.
  set (s1 := set_rpaths_per_file _ st).
  assert (quiet st s1) as H1 by (by unfold quiet).
  pose proof (quiet_check_rpaths r d (regex_replace r "^@[a-z_]+path/" EmptyString)
                (at_key d [] (rpaths_per_file s1)) s1 Hcache) as H2.
  destruct (check_rpaths _ _ _ _ s1) as [b s2|]; simpl in *; [|by etrans].
  mrun. simpl. by etrans.
Qed.
Hint Resolve quiet_searchFilenameInRpaths : always.

Lemma quiet_resolveOriginalFile p d : always quiet (resolveOriginalFile p d).
Proof. unfold resolveOriginalFile. always_auto. Qed.
Hint Resolve quiet_resolveOriginalFile : always.

Lemma quiet_findInSearchPaths paths f : always quiet (findInSearchPaths paths f).
Proof. induction paths; simpl; always_auto. Qed.
Hint Resolve quiet_findInSearchPaths : always.

Lemma quiet_locationUnknown p f : always quiet (locationUnknown p f).
Proof. unfold locationUnknown. always_auto. Qed.
Hint Resolve quiet_locationUnknown : always.

Lemma quiet_locateDependency path orig : always quiet (locateDependency path orig).
Proof. unfold locateDependency. always_auto. Qed.
Hint Resolve quiet_locateDependency : always.

Lemma quiet_Dependency_ctor path file : always quiet (Dependency_ctor path file).
Proof. unfold Dependency_ctor. always_auto. Qed.
Hint Resolve quiet_Dependency_ctor : always.

Lemma quiet_registerDependency dep file : always (@quiet World) (registerDependency dep file).
Proof. unfold registerDependency. always_auto. Qed.
Hint Resolve quiet_registerDependency : always.

Lemma quiet_addDependency path file : always quiet (addDependency path file).
Proof. unfold addDependency. always_auto. Qed.
Hint Resolve quiet_addDependency : always.

Lemma quiet_collectLine file line : always quiet (collectLine file line).
Proof. unfold collectLine. always_auto. Qed.
Hint Resolve quiet_collectLine : always.

Lemma quiet_collectLines file lines : always quiet (collectLines file lines).
Proof. induction lines; simpl; always_auto. Qed.
Hint Resolve quiet_collectLines : always.

Lemma quiet_scanRpaths_bounded file n :
  ∀ lc_lines read_rpath, length lc_lines ≤ n →
    always (@quiet World) (scanRpaths file lc_lines read_rpath).
Proof.
  induction n as [|n IH]; intros [|line rest] read_rpath Hlen; simpl in *;
    try lia; always_auto; try (apply IH; simpl in *; lia).
Qed.

Lemma quiet_scanRpaths file lc_lines read_rpath :
  always (@quiet World) (scanRpaths file lc_lines read_rpath).
Proof. by apply (quiet_scanRpaths_bounded file (length lc_lines)). Qed.
Hint Resolve quiet_scanRpaths : always.

Lemma quiet_collectRpaths file : always quiet (collectRpaths file).
Proof. unfold collectRpaths, system_get_output. always_auto. Qed.
Hint Resolve quiet_collectRpaths : always.

Lemma quiet_scanLoadCommands raw searching lines :
  always (@quiet World) (scanLoadCommands raw searching lines).
Proof. revert searching lines. induction raw; intros; simpl; always_auto. Qed.
Hint Resolve quiet_scanLoadCommands : always.

Lemma quiet_collectDependencies_lines file : always quiet (collectDependencies_lines file).
Proof. unfold collectDependencies_lines, system_get_output. always_auto. Qed.
Hint Resolve quiet_collectDependencies_lines : always.

Lemma quiet_collectDependencies file : always quiet (collectDependencies file).
Proof. unfold collectDependencies. always_auto. Qed.
Hint Resolve quiet_collectDependencies : always.

Lemma quiet_collectSubDependency n : always quiet (collectSubDependency n).
Proof. unfold collectSubDependency. always_auto. Qed.
Hint Resolve quiet_collectSubDependency : always.

Lemma quiet_collectSubDependencies_pass count n :
  always quiet (collectSubDependencies_pass count n).
Proof. revert n. induction count; intros n; simpl; always_auto. Qed.
Hint Resolve quiet_collectSubDependencies_pass : always.

Lemma quiet_collectSubDependencies fuel : always quiet (collectSubDependencies fuel).
Proof. induction fuel; simpl; always_auto. Qed.
Hint Resolve quiet_collectSubDependencies : always.

Lemma quiet_collectFilesToFix fs : always quiet (collectFilesToFix fs).
Proof. induction fs; simpl; always_auto. Qed.
Hint Resolve quiet_collectFilesToFix : always.

(** X8.  The resolution never calls [systemp]: however it ends, [resolve]
    has handed no command line to [system()], has changed no setting but
    the search paths, and has kept what [rpath_to_fullpath] held.  The same
    holds of the inspection of a single file.  What the resolution does
    hand to a shell it hands to [popen]: the [otool -l] command lines of
    [system_get_output], which are no part of the trace. *)
Theorem resolution_never_calls_system (fuel : nat) (file : string) st :
  let kept st' :=
    execs (trace st') = execs (trace st)
    ∧ set_searchPaths [] (settings st') = set_searchPaths [] (settings st)
    ∧ ∀ r fullpath, rpath_to_fullpath st !! r = Some fullpath →
                    rpath_to_fullpath st' !! r = Some fullpath in
  kept (final_state (resolve fuel st))
  ∧ kept (final_state (collectDependencies file st)).
Proof.
  intros kept. split.
  - assert (always quiet (resolve fuel)) as Hres by (unfold resolve; always_auto).
    by destruct (Hres st) as (_ & ? & ? & ?).
  - by destruct (quiet_collectDependencies file st) as (_ & ? & ? & ?).
Qed.

Lemma inspects_quiet st st' : rtc inspects st st' → quiet st st'.
Proof.
  induction 1 as [|s1 s2 s3 Hstep _ IH]; [done|]. etrans; [|done].
  destruct Hstep as [f s1 s2 Hrun|fuel s1 s2 Hrun].
  - pose proof (quiet_collectDependencies f s1) as Hq. by rewrite Hrun in Hq.
  - pose proof (quiet_collectSubDependencies fuel s1) as Hq. by rewrite Hrun in Hq.
Qed.

(** X9.  What [rpath_to_fullpath] holds for a reference is final: no
    inspection drops or replaces it, and from then on
    [searchFilenameInRpaths] answers with it for every dependent file,
    whatever the rpaths of that file are, and leaves the state as it
    is. *)
Theorem recorded_resolution_is_final (rpath_file fullpath : string) st st' :
  rpath_to_fullpath st !! rpath_file = Some fullpath →
  rtc inspects st st' →
  rpath_to_fullpath st' !! rpath_file = Some fullpath
  ∧ (fullpath ≠ EmptyString →
     ∀ dependent_file : string,
       searchFilenameInRpaths rpath_file dependent_file st' = Ret fullpath st').
Proof.
  intros Hcache Hrun. destruct (inspects_quiet _ _ Hrun) as (_ & _ & _ & Hkeep).
  specialize (Hkeep _ _ Hcache). split; [done|].
  intros Hne dependent_file. unfold searchFilenameInRpaths.
  rewrite run_bind, run_gets, Hkeep, run_bind, run_ret.
  by destruct fullpath.
Qed.

(** ** The search paths of the environment *)

Lemma addSearchPathItems_run items st :
  Forall (λ item, item ≠ EmptyString) items →
  addSearchPathItems items st
  = Ret tt (set_settings
              (set_searchPaths (searchPaths (settings st)
                                ++ (ensure_trailing_slash <$> items)) (settings st)) st).
Proof.
  intros Hitems. revert st. induction Hitems as [|item items Hne _ IH]; intros st; simpl.
  - rewrite run_ret, app_nil_r. by destruct st as [[]].
  - unfold ensure_trailing_slash. destruct (last_char item) as [c|] eqn:Hc.
    + unfold addSearchPath. rewrite run_bind, run_modify, IH. simpl.
      by rewrite <- app_assoc.
    + exfalso. destruct item as [|a item]; [done|].
      clear -Hc. revert a Hc. induction item as [|b item IH]; intros a Hc; [done|].
      by apply (IH b).
Qed.

(** X10.  [initSearchPaths] adds to the search paths the directories that
    [DYLD_LIBRARY_PATH], [DYLD_FALLBACK_FRAMEWORK_PATH] and
    [DYLD_FALLBACK_LIBRARY_PATH] list, those of the first variable first,
    each with a slash at its end; a variable that is not set gives none.
    Nothing else changes.  The directories of a variable are the pieces
    between its colons, the empty ones among them; for names without colon,
    each followed by a colon, they are the names. *)
Theorem initSearchPaths_adds_the_environment st :
  let pieces name :=
    match getenv (world st) name with
    | Some value => getline_all ":" value EmptyString
    | None => []
    end in
  let dirs := pieces "DYLD_LIBRARY_PATH" ++ pieces "DYLD_FALLBACK_FRAMEWORK_PATH"
              ++ pieces "DYLD_FALLBACK_LIBRARY_PATH" in
  (Forall (λ dir, dir ≠ EmptyString) dirs →
   initSearchPaths st
   = Ret tt (set_settings
               (set_searchPaths (searchPaths (settings st)
                                 ++ (ensure_trailing_slash <$> dirs)) (settings st)) st))
  ∧ (∀ names, Forall (λ n, chars_all (λ c, negb (ascii_eqb c ":")) n = true) names →
       getline_all ":" (terminated ":" names) EmptyString = names).
Proof.
  intros pieces dirs. split.
  - intros Hdirs. unfold initSearchPaths. rewrite run_bind, run_gets.
    set (all := join_env (join_env (join_env EmptyString _) _) _).
    assert (getline_all ":" all EmptyString = dirs) as Hall.
    { unfold all. rewrite !getline_all_join_env. simpl. by rewrite <- app_assoc. }
    destruct (is_empty all) eqn:Hempty.
    + apply is_empty_true in Hempty. rewrite Hempty in Hall. simpl in Hall.
      rewrite <- Hall. simpl. rewrite run_ret, app_nil_r. by destruct st as [[]].
    + rewrite Hall. by apply addSearchPathItems_run.
  - intros names Hnames. induction Hnames as [|n names Hn _ IH]; [done|].
    simpl. rewrite getline_all_clean, app_nil_str by done. simpl. by rewrite IH.
Qed.

(** ** Where a library is *)

(** The answer of [fileExists] depends on the machine and on the name
    alone, and the state is left as it is. *)
Lemma fileExists_Ret f st b st' : fileExists f st = Ret b st' → st' = st.
Proof.
  rewrite run_fileExists. destruct (access_ok _ f); [by intros [= _ <-]|].
  destruct (is_empty _); [done|]. by intros [= _ <-].
Qed.

Lemma fileExists_world f st st' b :
  world st' = world st → fileExists f st = Ret b st → fileExists f st' = Ret b st'.
Proof.
  intros Hw. rewrite !run_fileExists, Hw. destruct (access_ok _ f); [by intros [= <-]|].
  destruct (is_empty _); [done|]. by intros [= <-].
Qed.

Lemma ensure_trailing_slash_cases s :
  s = EmptyString ∧ ensure_trailing_slash s = EmptyString
  ∨ ends_with_slash (ensure_trailing_slash s).
Proof.
  unfold ensure_trailing_slash. destruct (last_char s) as [c|] eqn:Hc.
  - right. by apply ends_with_slash_fixed.
  - left. assert (s = EmptyString) as ->; [|done].
    destruct s as [|a s]; [done|]. exfalso.
    revert a Hc. induction s as [|b s IH]; intros a Hc; [done|]. by apply (IH b).
Qed.

Lemma searchPathsForFile_Ret paths f st found st' :
  searchPathsForFile paths f st = Ret found st' →
  world st' = world st ∧ settings st' = settings st ∧ stdin st' = stdin st
  ∧ missing_prefixes st' = missing_prefixes st
  ∧ match found with
    | Some p => p ∈ ensure_trailing_slash <$> paths ∧ fileExists (p +:+ f) st = Ret true st
    | None => st' = st
    end.
Proof.
  induction paths as [|e paths IH]; simpl.
  - rewrite run_ret. by intros [= <- <-].
  - rewrite run_bind. destruct (fileExists _ st) as [[] s1|] eqn:He; [| |done];
      apply fileExists_Ret in He as Hs1; subst s1.
    + mrun. intros [= <- <-]. split_and!; try done. apply list_elem_of_here.
    + intros Hrest. destruct (IH Hrest) as (?&?&?&?&Hfound). split_and!; try done.
      destruct found; [|done]. destruct Hfound. split; [|done]. by apply list_elem_of_further.
Qed.

Lemma promptForDir_Ret input f st dir st' :
  promptForDir input f st = Ret dir st' →
  world st' = world st
  ∧ fileExists (dir +:+ f) st' = Ret true st'
  ∧ (dir = EmptyString ∨ ends_with_slash dir)
  ∧ searchPaths (settings st') = searchPaths (settings st) ++ [dir]
  ∧ prefixes_to_ignore (settings st') = prefixes_to_ignore (settings st).
Proof.
  revert st. induction input as [|tok rest IH]; intros st; simpl.
  - rewrite run_bind. destruct (fileExists f st) as [[] s1|] eqn:He; [| |done];
      apply fileExists_Ret in He as Hs1; subst s1; mrun; [|done].
    intros [= <- <-]. simpl. split_and!; [done| |by left|done|done].
    rewrite app_nil_str. by eapply fileExists_world; [|done].
  - mrun. destruct (string_eqb tok "quit"); [done|]. rewrite run_bind.
    destruct (fileExists _ (set_stdin rest st)) as [[] s1|] eqn:He; [| |done];
      apply fileExists_Ret in He as Hs1; subst s1; mrun.
    + intros [= <- <-]. simpl. split_and!; [done| | |done|done].
      * by eapply fileExists_world; [|done].
      * destruct (ensure_trailing_slash_cases tok) as [[_ ->]|?]; [by left|by right].
    + intros Hrest. destruct (IH _ Hrest) as (?&?&?&?&?). by split_and!.
Qed.

Lemma getUserInputDirForFile_Ret filename dir st st' :
  getUserInputDirForFile filename st = Ret dir st' →
  fileExists (dir +:+ filename) st' = Ret true st'
  ∧ (dir = EmptyString ∨ ends_with_slash dir)
  ∧ world st' = world st
  ∧ (searchPaths (settings st') = searchPaths (settings st)
     ∧ dir ∈ ensure_trailing_slash <$> searchPaths (settings st)
     ∨ searchPaths (settings st') = searchPaths (settings st) ++ [dir]).
Proof.
  unfold getUserInputDirForFile. rewrite run_bind, run_gets, run_bind.
  destruct (searchPathsForFile _ _ st) as [[p|] s1|] eqn:Hs; [| |done];
    apply searchPathsForFile_Ret in Hs as (Hw & Hset & _ & _ & Hfound).
  - rewrite run_ret. intros [= <- <-]. destruct Hfound as [Hin Hex]. split_and!.
    + by eapply fileExists_world; [|done].
    + apply list_elem_of_fmap in Hin as (e & -> & _).
      destruct (ensure_trailing_slash_cases e) as [[_ ->]|?]; [by left|by right].
    + done.
    + left. by rewrite Hset.
  - subst s1. rewrite run_bind, run_gets. intros Hrun.
    destruct (promptForDir_Ret _ _ _ _ _ Hrun) as (?&?&?&?&?). split_and!; try done.
    by right.
Qed.

(** X11.  When [getUserInputDirForFile] returns a directory, the file is
    there: [fileExists] finds it under the directory and the file name put
    together.  The directory is empty or ends in a slash.  It is either one
    of the search paths, with a slash added where it lacked one, the search
    paths being left as they are, or what the user answered, which is then
    added to the search paths. *)
Theorem getUserInputDirForFile_finds_the_file (filename dir : string) st st' :
  getUserInputDirForFile filename st = Ret dir st' →
  fileExists (dir +:+ filename) st' = Ret true st'
  ∧ (dir = EmptyString ∨ ends_with_slash dir)
  ∧ world st' = world st
  ∧ (searchPaths (settings st') = searchPaths (settings st)
     ∧ dir ∈ ensure_trailing_slash <$> searchPaths (settings st)
     ∨ searchPaths (settings st') = searchPaths (settings st) ++ [dir]).
Proof.
  intros Hrun. destruct (getUserInputDirForFile_Ret _ _ _ _ Hrun) as (Hex & Hdir & Hw & Hsp).
  split_and!; [exact Hex|exact Hdir|exact Hw|exact Hsp].
Qed.

Lemma isPrefixBundled_true_not_ignored s p :
  isPrefixBundled s p = true → isPrefixIgnored s p = false.
Proof.
  intros Hb. destruct (isPrefixIgnored s p) eqn:Hi; [|done].
  apply isPrefixBundled_not_ignored in Hi. congruence.
Qed.

Lemma locationUnknown_run p f st :
  locationUnknown p f st =
    if is_empty p then Ret true st
    else match fileExists (p +:+ f) st with
         | Ret e _ => Ret (negb e) st
         | Stop r s => Stop r s
         end.
Proof.
  unfold locationUnknown. destruct (is_empty p); [done|]. rewrite run_bind.
  destruct (fileExists _ st) as [e s1|] eqn:He; [|done].
  apply fileExists_Ret in He as ->. by rewrite run_ret.
Qed.

Lemma locationUnknown_Ret p f st b st' :
  locationUnknown p f st = Ret b st' →
  st' = st ∧ (b = false → fileExists (p +:+ f) st = Ret true st).
Proof.
  rewrite locationUnknown_run. destruct (is_empty p); [by intros [= <- <-]|].
  destruct (fileExists _ st) as [e s1|] eqn:He; [|done].
  apply fileExists_Ret in He as Hs; subst s1. intros [= <- <-]. split; [done|].
  by destruct e.
Qed.

Lemma locationUnknown_world p f st st' b :
  world st' = world st → locationUnknown p f st = Ret b st →
  locationUnknown p f st' = Ret b st'.
Proof.
  intros Hw. rewrite !locationUnknown_run. destruct (is_empty p); [by intros [= <-]|].
  destruct (fileExists _ st) as [e s1|] eqn:He; [|done].
  apply fileExists_Ret in He as Hs; subst s1.
  rewrite (fileExists_world _ _ _ _ Hw He). by intros [= <-].
Qed.

Lemma findInSearchPaths_Ret paths f st found st' :
  findInSearchPaths paths f st = Ret found st' →
  match found with
  | Some sp => sp ∈ paths ∧ st' = set_missing_prefixes true st
               ∧ fileExists (sp +:+ f) st = Ret true st
  | None => st' = st
  end.
Proof.
  induction paths as [|e paths IH]; simpl.
  - rewrite run_ret. by intros [= <- <-].
  - rewrite run_bind. destruct (fileExists _ st) as [[] s1|] eqn:He; [| |done];
      apply fileExists_Ret in He as Hs1; subst s1.
    + mrun. intros [= <- <-]. split_and!; try done. apply list_elem_of_here.
    + intros Hrest. specialize (IH Hrest). destruct found as [sp|]; [|done].
      destruct IH as (?&?&?). split_and!; try done. by apply list_elem_of_further.
Qed.

(** The end of the constructor when the location is still unknown: the
    user is asked, and the directory goes to the search paths. *)
Lemma askForLocation_Ret f st st' :
  (cerr ("/!\ WARNING : Library " +:+ f +:+ " has an incomplete name (location unknown)");;
   modify (set_missing_prefixes true);;
   let* dir := getUserInputDirForFile f in
   addSearchPath dir) st = Ret tt st' →
  world st' = world st
  ∧ prefixes_to_ignore (settings st') = prefixes_to_ignore (settings st)
  ∧ missing_prefixes st' = true
  ∧ ∃ dir, dir ∈ searchPaths (settings st')
           ∧ fileExists (dir +:+ f) st' = Ret true st'.
Proof.
  mrun.
  match goal with |- context [getUserInputDirForFile f ?s] => set (s0 := s) end.
  pose proof (frame_getUserInputDirForFile f s0) as Hfr.
  destruct (getUserInputDirForFile f s0) as [dir s1|] eqn:Hask; [|done].
  destruct Hfr as [(_ & _ & _ & Hw & Hi & _ & Hm) _].
  destruct (getUserInputDirForFile_Ret _ _ _ _ Hask) as (Hex & _ & _ & _).
  unfold addSearchPath. mrun. intros [= <-]. simpl. split_and!; try done.
  - by apply Hm.
  - exists dir. split; [apply elem_of_app; right; apply list_elem_of_here|].
    by eapply fileExists_world; [|done].
Qed.

(** What the constructor makes of a resolved file. *)
Lemma locateDependency_Ret path orig st d st' :
  locateDependency path orig st = Ret d st' →
  world st' = world st
  ∧ prefixes_to_ignore (settings st') = prefixes_to_ignore (settings st)
  ∧ filename d = stripPrefix orig
  ∧ (isPrefixBundled (settings st) (dirPrefix orig) = false ∧ prefix d = dirPrefix orig
     ∨ new_name d = filename d
       ∧ (fileExists (getOriginalPath d) st' = Ret true st'
          ∨ isPrefixIgnored (settings st') (prefix d) = true
          ∨ missing_prefixes st' = true
            ∧ ∃ dir, dir ∈ searchPaths (settings st')
                     ∧ fileExists (dir +:+ filename d) st' = Ret true st')).
Proof.
  unfold locateDependency. rewrite ensure_trailing_slash_dirPrefix.
  rewrite run_bind, run_gets.
  destruct (isPrefixBundled (settings st) (dirPrefix orig)) eqn:Hb; simpl.
  2:{ rewrite run_ret. intros [= <- <-]. split_and!; try done. by left. }
  rewrite run_bind.
  destruct (locationUnknown (dirPrefix orig) (stripPrefix orig) st) as [unknown s0|] eqn:Hu;
    [|done].
  apply locationUnknown_Ret in Hu as Hu'. destruct Hu' as [-> Hknown].
  destruct unknown.
  - (* the library is not where the reference says *)
    rewrite run_bind, run_bind, run_gets, run_bind.
    set (init := if bool_decide (length (searchPaths (settings st)) = 0)
                 then initSearchPaths;; gets (λ st, searchPaths (settings st))
                 else ret (searchPaths (settings st))).
    assert (spec frame any init) as Hinit by (unfold init; spec_auto).
    specialize (Hinit st). destruct (init st) as [paths s1|]; [|done].
    destruct Hinit as [(_ & _ & _ & Hw1 & Hi1 & _ & _) _].
    rewrite run_bind.
    destruct (findInSearchPaths paths (stripPrefix orig) s1) as [found s2|] eqn:Hfind; [|done].
    apply findInSearchPaths_Ret in Hfind. rewrite run_ret, run_bind, run_gets, run_bind.
    destruct found as [sp|]; simpl.
    + destruct Hfind as (_ & -> & Hex). simpl.
      assert (fileExists (sp +:+ stripPrefix orig) (set_missing_prefixes true s1)
              = Ret true (set_missing_prefixes true s1)) as Hex2
        by (by eapply fileExists_world; [|done]).
      destruct (isPrefixIgnored (settings s1) sp) eqn:Hign; simpl.
      * mrun. intros [= <- <-]. simpl. split_and!; try done. right. split; [done|]. by left.
      * rewrite locationUnknown_run, Hex2. destruct (is_empty sp) eqn:Hsp.
        -- intros Hrun. rewrite run_bind in Hrun.
           match type of Hrun with
           | match ?m ?s with _ => _ end = _ => destruct (m s) as [[] s3|] eqn:Hask; [|done]
           end.
           rewrite run_ret in Hrun. injection Hrun as <- <-.
           apply askForLocation_Ret in Hask as (Hw3 & Hi3 & Hm3 & Hdir).
           simpl in *. split_and!; try congruence. right. split; [done|]. right. by right.
        -- simpl. mrun. intros [= <- <-]. simpl. split_and!; try done.
           right. split; [done|]. by left.
    + subst s2. simpl.
      rewrite (isPrefixBundled_true_not_ignored (settings s1)); simpl.
      2:{ by rewrite (isPrefixBundled_ext (settings st) (settings s1)). }
      rewrite (locationUnknown_world _ _ st s1 true) by done.
      intros Hrun. rewrite run_bind in Hrun.
      match type of Hrun with
      | match ?m ?s with _ => _ end = _ => destruct (m s) as [[] s3|] eqn:Hask; [|done]
      end.
      rewrite run_ret in Hrun. injection Hrun as <- <-.
      apply askForLocation_Ret in Hask as (Hw3 & Hi3 & Hm3 & Hdir).
      simpl in *. split_and!; try congruence. right. split; [done|]. right. by right.
  - (* the library is where the reference says *)
    rewrite run_bind, run_ret, run_bind, run_gets, run_bind.
    rewrite (isPrefixBundled_true_not_ignored (settings st)) by done. simpl.
    rewrite Hu. mrun. intros [= <- <-]. simpl. split_and!; try done.
    right. split; [done|]. left. by apply Hknown.
Qed.

Lemma resolveOriginalFile_frame path file st orig st' :
  resolveOriginalFile path file st = Ret orig st' →
  world st' = world st ∧ prefixes_to_ignore (settings st') = prefixes_to_ignore (settings st).
Proof.
  intros Hrun.
  by destruct (spec_Ret _ _ _ _ _ _ (frame_resolveOriginalFile path file) Hrun)
    as [(_ & _ & _ & ? & ? & _) _].
Qed.

(** X12.  A dependency that the constructor returns with a prefix that is
    bundled is a library that was found: either the file exists at its
    original path, or [missing_prefixes] is set and the file exists in a
    directory that was put among the search paths, the one the user was
    asked for.  In the second case the dependency keeps the prefix under
    which the library was not found.  Its new name is its file name. *)
Theorem Dependency_ctor_locates_or_flags (path file : string) st d st' :
  Dependency_ctor path file st = Ret d st' →
  isPrefixBundled (settings st') (prefix d) = true →
  new_name d = filename d
  ∧ (fileExists (getOriginalPath d) st' = Ret true st'
     ∨ missing_prefixes st' = true
       ∧ ∃ dir, dir ∈ searchPaths (settings st')
                ∧ fileExists (dir +:+ filename d) st' = Ret true st').
Proof.
  unfold Dependency_ctor. rewrite run_bind.
  destruct (resolveOriginalFile (rtrim path) file st) as [orig s1|] eqn:Hres; [|done].
  apply resolveOriginalFile_frame in Hres as [_ Hi1].
  intros Hloc Hb.
  destruct (locateDependency_Ret _ _ _ _ _ Hloc) as (_ & Hi & _ & [[Hnb Hp]|[Hn Hcases]]).
  - rewrite Hp, (isPrefixBundled_ext (settings s1)) in Hb by done. congruence.
  - split; [done|]. destruct Hcases as [?|[Hign|?]]; [by left| |by right].
    apply isPrefixBundled_not_ignored in Hign. congruence.
Qed.

(** X13.  The constructor on a reference that resolves to a library that
    exists in a directory that is bundled: the dependency is the resolved
    file, split into directory and leaf name, with the trimmed reference
    as its one symlink when it differs from the resolved path.  Nothing is
    asked, nothing is written, and the state is left as it is. *)
Theorem Dependency_ctor_of_existing_library (path file resolved : string) st :
  isRpath (rtrim path) = false →
  realpath (world st) (rtrim path) = Some resolved →
  dirPrefix resolved ≠ EmptyString →
  isPrefixBundled (settings st) (dirPrefix resolved) = true →
  access_ok (world st) resolved = true →
  Dependency_ctor path file st
  = Ret (mkDependency (stripPrefix resolved) (dirPrefix resolved)
           (if bool_decide (resolved = rtrim path) then [] else [rtrim path])
           (stripPrefix resolved)) st.
Proof.
  intros Hrp Hreal Hdir Hb Hex.
  pose proof (dirPrefix_stripPrefix resolved) as Hsplit.
  pose proof (ensure_trailing_slash_dirPrefix resolved) as Hslash.
  unfold Dependency_ctor, resolveOriginalFile. rewrite Hrp, run_bind, run_bind, run_gets.
  rewrite rtrim_idem, Hreal, run_ret. unfold locateDependency. rewrite Hslash.
  rewrite run_bind, run_gets, Hb. simpl.
  assert (locationUnknown (dirPrefix resolved) (stripPrefix resolved) st = Ret false st) as Hu.
  { rewrite locationUnknown_run, Hsplit, run_fileExists, Hex.
    by destruct (dirPrefix resolved). }
  rewrite run_bind, Hu, run_bind, run_ret, run_bind, run_gets, run_bind.
  rewrite (isPrefixBundled_true_not_ignored (settings st)) by done. simpl.
  rewrite Hu, run_bind, run_ret, run_ret. f_equal. f_equal.
  unfold string_eqb. by case_bool_decide.
Qed.

(** ** The registry and the index over the inspections *)

Lemma extends_refl e : extends e e.
Proof. by split_and!. Qed.

Lemma extends_trans e1 e2 e3 : extends e1 e2 → extends e2 e3 → extends e1 e3.
Proof.
  intros (?&?&?&H12) (?&?&?&H23). unfold extends. split_and!; try congruence. auto.
Qed.

Lemma extends_merged dep e : extends e (merged dep e).
Proof.
  unfold merged. destruct (string_eqb _ _); [|apply extends_refl].
  split_and!; try done. simpl. intros s Hs. apply elem_of_alias_union. by left.
Qed.

Lemma Forall2_extends_merged dep (ds : list Dependency) :
  Forall2 extends ds (merged dep <$> ds).
Proof. induction ds; constructor; [apply extends_merged|done]. Qed.

Lemma grown_refl ds : grown ds ds.
Proof.
  exists ds, []. split; [by rewrite app_nil_r|].
  induction ds; constructor; [apply extends_refl|done].
Qed.

Lemma Forall2_extends_trans l1 l2 l3 :
  Forall2 extends l1 l2 → Forall2 extends l2 l3 → Forall2 extends l1 l3.
Proof.
  intros H12. revert l3. induction H12 as [|e1 e2 l1 l2 He _ IH]; intros l3 H23.
  - by apply Forall2_nil_inv_l in H23 as ->.
  - apply Forall2_cons_inv_l in H23 as (e3 & l3' & He' & H23 & ->).
    constructor; [by eapply extends_trans|by apply IH].
Qed.

Lemma grown_trans ds1 ds2 ds3 : grown ds1 ds2 → grown ds2 ds3 → grown ds1 ds3.
Proof.
  intros (k1 & m1 & -> & H1) (k2 & m2 & -> & H2).
  apply Forall2_app_inv_l in H2 as (k2a & k2b & H2a & H2b & ->).
  exists k2a, (k2b ++ m2). split; [by rewrite app_assoc|].
  by eapply Forall2_extends_trans.
Qed.

(** An entry keeps its place. *)
Lemma grown_lookup ds ds' i e :
  grown ds ds' → ds !! i = Some e → ∃ e', ds' !! i = Some e' ∧ extends e e'.
Proof.
  intros (kept & more & -> & Hk) Hi.
  destruct (Forall2_lookup_l _ _ _ _ _ Hk Hi) as (e' & Hi' & He).
  exists e'. split; [|done]. by apply lookup_app_l_Some.
Qed.

Lemma grown_filenames ds ds' :
  grown ds ds' → ∃ more, filename <$> ds' = (filename <$> ds) ++ more.
Proof.
  intros (kept & more & -> & Hk). exists (filename <$> more). rewrite fmap_app. f_equal.
  induction Hk as [|e e' l l' (Hf & _) _ IH]; [done|]. rewrite !fmap_cons. by f_equal.
Qed.

#[local] Instance growing_preorder : PreOrder (@growing World).
Proof.
  split.
  - intros st. split_and!; [apply grown_refl| |done|done].
    intros g ds Hg. exists []. by rewrite app_nil_r.
  - intros st1 st2 st3 (Hg1 & Hi1 & Ht1 & Hr1) (Hg2 & Hi2 & Ht2 & Hr2).
    split_and!; [by eapply grown_trans| |auto|auto].
    intros g ds Hg. destruct (Hi1 g ds Hg) as (m1 & Hm1).
    destruct (Hi2 g _ Hm1) as (m2 & Hm2). exists (m1 ++ m2). by rewrite app_assoc.
Qed.

Lemma frame_growing st st' : frame st st' → growing st st'.
Proof.
  intros (Hd & Hf & _). unfold growing, index_registered. rewrite Hd, Hf.
  split_and!; [apply grown_refl| |done|done].
  intros g ds Hg. exists []. by rewrite app_nil_r.
Qed.

Lemma spec_frame_growing {A} (m : M A) : spec (@frame World) any m → spec growing any m.
Proof. intros Hm. eapply spec_weaken; [done|apply frame_growing|done]. Qed.
Hint Resolve spec_frame_growing | 10 : spec.

Lemma NoDup_addSymlink s syms : NoDup syms → NoDup (addSymlink s syms).
Proof.
  intros Hnd. unfold addSymlink. case_bool_decide as Hin; [done|].
  apply NoDup_app. split_and!; [done| |apply NoDup_singleton].
  by intros x Hx ->%list_elem_of_singleton.
Qed.

Lemma NoDup_alias_union mine theirs : NoDup mine → NoDup (alias_union mine theirs).
Proof.
  unfold alias_union. revert mine. induction theirs as [|s theirs IH]; intros mine Hnd; [done|].
  simpl. by apply IH, NoDup_addSymlink.
Qed.

Lemma NoDup_symlinks_merged dep e : NoDup (symlinks e) → NoDup (symlinks (merged dep e)).
Proof.
  intros Hnd. unfold merged. destruct (string_eqb _ _); [|done]. simpl.
  by apply NoDup_alias_union.
Qed.

(** [mergeInto] finds an entry exactly when one has the file name of the
    dependency. *)
Lemma mergeInto_fst dep ds :
  (mergeInto dep ds).1 = bool_decide (filename dep ∈ filename <$> ds).
Proof.
  induction ds as [|e ds IH]; [done|]. simpl. rewrite mergeIfSameAs_eq.
  destruct (mergeInto dep ds). simpl in *. rewrite IH. unfold string_eqb.
  rewrite <- bool_decide_or. apply bool_decide_ext. rewrite elem_of_cons.
  split; (intros [?|?]; [by left|by right]).
Qed.

(** The index of the file after [registerDependency]: what it was, and the
    dependency at the end when its prefix is bundled and no entry of the
    list had its file name. *)
Lemma registerDependency_index dep file st st' :
  registerDependency dep file st = Ret tt st' →
  deps_per_file st' !! file
  = Some (at_key file [] (deps_per_file st)
          ++ (if isPrefixBundled (settings st) (prefix dep)
                 && negb (mergeInto dep (at_key file [] (deps_per_file st))).1
              then [dep] else [])).
Proof.
  unfold registerDependency, deps_of, getPrefix. mrun. simpl.
  assert (at_key file [] (touch file [] (deps_per_file st))
          = at_key file ([] : list Dependency) (deps_per_file st)) as Hat.
  { unfold at_key, touch. destruct (deps_per_file st !! file) eqn:Hf; [by rewrite Hf|].
    by rewrite lookup_insert_eq. }
  assert (touch file [] (deps_per_file st) !! file
          = Some (at_key file ([] : list Dependency) (deps_per_file st))) as Htouch.
  { unfold at_key, touch. destruct (deps_per_file st !! file) eqn:Hf; [by rewrite Hf|].
    by rewrite lookup_insert_eq. }
  rewrite Hat.
  destruct (isPrefixBundled (settings st) (prefix dep)); simpl; mrun.
  - destruct (mergeInto dep (deps st)).1; simpl; mrun;
      destruct (mergeInto dep (at_key file [] (deps_per_file st))).1; simpl; mrun; simpl;
      intros [= <-]; simpl; rewrite ?touch_idem, ?Hat, ?lookup_insert_eq, ?app_nil_r; done.
  - intros [= <-]. simpl. by rewrite app_nil_r.
Qed.

Lemma registerDependency_growing dep file st st' :
  NoDup (symlinks dep) →
  registerDependency dep file st = Ret tt st' → growing st st'.
Proof.
  intros Hsym Hrun. pose proof (registerDependency_index _ _ _ _ Hrun) as Hidx.
  destruct (registerDependency_run dep file st)
    as (st'' & Hrun' & Hdeps & Hset & _ & _ & _ & _ & Hother & _).
  rewrite Hrun in Hrun'. injection Hrun' as <-.
  rewrite mergeInto_fst in Hdeps. rewrite mergeInto_fst in Hidx.
  assert (filename <$> deps st'
          = (filename <$> deps st)
            ++ (if isPrefixBundled (settings st) (prefix dep)
                   && negb (bool_decide (filename dep ∈ filename <$> deps st))
                then [filename dep] else [])) as Hnames.
  { rewrite Hdeps, fmap_app, fmap_filename_merged.
    by match goal with |- context [if ?b then [dep] else []] => destruct b end. }
  split_and!.
  - rewrite Hdeps. eexists _, _. split; [done|]. apply Forall2_extends_merged.
  - intros g ds Hg. destruct (decide (g = file)) as [->|Hne].
    + rewrite Hidx. unfold at_key. rewrite Hg. simpl. eauto.
    + exists []. by rewrite app_nil_r, Hother.
  - intros [Hnd Hs]. split.
    + rewrite Hnames. destruct (isPrefixBundled _ _); simpl; [|by rewrite app_nil_r].
      case_bool_decide as Hin; simpl; [by rewrite app_nil_r|].
      apply NoDup_app. split_and!; [done| |apply NoDup_singleton].
      by intros x Hx ->%list_elem_of_singleton.
    + intros d. rewrite Hdeps, elem_of_app. intros [Hd|Hd].
      * apply list_elem_of_fmap in Hd as (e & -> & He).
        by apply NoDup_symlinks_merged, Hs.
      * match type of Hd with context [if ?b then _ else _] => destruct b end;
          [|by apply elem_of_nil in Hd].
        by apply list_elem_of_singleton in Hd as ->.
  - intros Hreg g ds. destruct (decide (g = file)) as [->|Hne].
    + rewrite Hidx. intros [= <-].
      assert (NoDup (filename <$> at_key file [] (deps_per_file st))
              ∧ ∀ d, d ∈ at_key file [] (deps_per_file st) →
                     filename d ∈ filename <$> deps st) as [Hnd Hin].
      { unfold at_key. destruct (deps_per_file st !! file) as [ds|] eqn:Hf; simpl.
        - by apply (Hreg file).
        - split; [apply NoDup_nil_2|]. by intros d ?%elem_of_nil. }
      split.
      * rewrite fmap_app. destruct (isPrefixBundled _ _); simpl; [|by rewrite app_nil_r].
        destruct (decide (filename dep ∈ filename <$> at_key file [] (deps_per_file st)))
          as [Hd|Hd];
          [rewrite bool_decide_eq_true_2 by done|rewrite bool_decide_eq_false_2 by done];
          simpl; [by rewrite app_nil_r|].
        apply NoDup_app. split_and!; [done| |apply NoDup_singleton].
        by intros x Hx ->%list_elem_of_singleton.
      * intros d. rewrite elem_of_app, Hnames. intros [Hd|Hd].
        -- apply elem_of_app. left. by apply Hin.
        -- destruct (isPrefixBundled _ _); simpl in *; [|by apply elem_of_nil in Hd].
           destruct (negb (bool_decide (filename dep ∈ filename <$> at_key _ _ _)));
             [|by apply elem_of_nil in Hd].
           apply list_elem_of_singleton in Hd as ->. apply elem_of_app.
           destruct (decide (filename dep ∈ filename <$> deps st)) as [Hd|Hd];
             [by left|right].
           rewrite bool_decide_eq_false_2 by done. apply list_elem_of_here.
    + rewrite Hother by done. intros Hg. destruct (Hreg g ds Hg) as [Hnd Hin].
      split; [done|]. intros d Hd. rewrite Hnames. apply elem_of_app. left. by apply Hin.
Qed.

(** The symlinks of a dependency fresh from its constructor: none, or the
    trimmed reference. *)
Lemma Dependency_ctor_symlinks path file :
  spec frame (λ d, NoDup (symlinks d)) (Dependency_ctor path file).
Proof.
  unfold Dependency_ctor. apply spec_bind; [apply _|auto with spec|]. intros orig.
  eapply spec_weaken; [apply locateDependency_spec|done|].
  intros d [_ ->]. destruct (negb _); [apply NoDup_singleton|apply NoDup_nil_2].
Qed.

Lemma growing_addDependency path file : spec growing any (addDependency path file).
Proof.
  intros st. unfold addDependency. rewrite run_bind.
  pose proof (Dependency_ctor_symlinks path file st) as Hc.
  destruct (Dependency_ctor path file st) as [d s1|]; [|done].
  destruct Hc as [Hfr Hsym].
  destruct (registerDependency_run d file s1) as (st' & Hrun & _).
  rewrite Hrun. split; [|done]. etrans; [by apply frame_growing|].
  by eapply registerDependency_growing.
Qed.
Hint Resolve growing_addDependency : spec.

Lemma growing_collectLine file line : spec growing any (collectLine file line).
Proof. unfold collectLine. spec_auto. Qed.
Hint Resolve growing_collectLine : spec.

Lemma growing_collectLines file lines : spec growing any (collectLines file lines).
Proof. induction lines; simpl; spec_auto. Qed.
Hint Resolve growing_collectLines : spec.

Lemma growing_collectDependencies file : spec growing any (collectDependencies file).
Proof.
  unfold collectDependencies. spec_auto.
  intros st. unfold growing, index_registered. simpl.
  split_and!; [apply grown_refl| |done|done].
  intros g ds Hg. exists []. by rewrite app_nil_r.
Qed.
Hint Resolve growing_collectDependencies : spec.

Lemma growing_collectSubDependency n : spec growing any (collectSubDependency n).
Proof. unfold collectSubDependency. spec_auto. Qed.
Hint Resolve growing_collectSubDependency : spec.

Lemma growing_collectSubDependencies_pass count n :
  spec growing any (collectSubDependencies_pass count n).
Proof. revert n. induction count; intros n; simpl; spec_auto. Qed.
Hint Resolve growing_collectSubDependencies_pass : spec.

Lemma collectSubDependencies_growing fuel st st' :
  collectSubDependencies fuel st = Ret tt st' → growing st st'.
Proof.
  revert st. induction fuel as [|fuel IH]; intros st; [done|].
  rewrite collectSubDependencies_S.
  pose proof (growing_collectSubDependencies_pass (length (deps st)) 0 st) as Hpass.
  destruct (collectSubDependencies_pass _ _ st) as [[] s1|]; [|done].
  destruct Hpass as [Hpass _]. case_bool_decide.
  - by intros [= <-].
  - intros Hrest. etrans; [done|]. by apply IH.
Qed.

Lemma inspects_growing st st' : rtc inspects st st' → growing st st'.
Proof.
  induction 1 as [|s1 s2 s3 Hstep _ IH]; [done|]. etrans; [|done].
  destruct Hstep as [f s1 s2 Hrun|fuel s1 s2 Hrun].
  - by destruct (spec_Ret _ _ _ _ _ _ (growing_collectDependencies f) Hrun).
  - by eapply collectSubDependencies_growing.
Qed.

(** X14.  Over any number of inspections the registry only grows: an entry
    stays at its index with its file name, prefix and new name, and keeps
    the symlinks it has; new entries come after it.  A registry that has
    one entry for a file name and no symlink twice in an entry, as the
    empty one does, stays so. *)
Theorem registry_grows_one_entry_per_file_name st st' :
  rtc inspects st st' →
  (∀ i e, deps st !! i = Some e →
     ∃ e', deps st' !! i = Some e' ∧ filename e' = filename e ∧ prefix e' = prefix e
           ∧ new_name e' = new_name e ∧ symlinks e ⊆ symlinks e')
  ∧ (NoDup (filename <$> deps st) → (∀ d, d ∈ deps st → NoDup (symlinks d)) →
     NoDup (filename <$> deps st') ∧ ∀ d, d ∈ deps st' → NoDup (symlinks d)).
Proof.
  intros Hrun. destruct (inspects_growing _ _ Hrun) as (Hg & _ & Ht & _). split.
  - intros i e Hi. destruct (grown_lookup _ _ _ _ Hg Hi) as (e' & Hi' & Hf & Hp & Hn & Hs).
    exists e'. by split_and!.
  - intros Hnd Hsym. by apply Ht.
Qed.

(** X15.  The list that [deps_per_file] keeps for a file is never rewritten:
    over any number of inspections it only gets longer at its end, so the
    symlinks merged into the registry later do not reach the entries that
    are in the list.  No list has a file name twice, and every file name in
    a list is the file name of an entry of the registry. *)
Theorem index_lists_only_get_longer st st' :
  rtc inspects st st' →
  (∀ (file : string) ds, deps_per_file st !! file = Some ds →
     ∃ more, deps_per_file st' !! file = Some (ds ++ more))
  ∧ (index_registered st →
     ∀ (file : string) ds, deps_per_file st' !! file = Some ds →
       NoDup (filename <$> ds) ∧ ∀ d, d ∈ ds → filename d ∈ filename <$> deps st').
Proof.
  intros Hrun. destruct (inspects_growing _ _ Hrun) as (_ & Hi & _ & Hr). split.
  - exact Hi.
  - intros Hreg. by apply Hr.
Qed.

(** A file that was inspected is in [deps_collected]. *)
Lemma collectDependencies_marks file st st' :
  collectDependencies file st = Ret tt st' → is_Some (deps_collected st' !! file).
Proof.
  unfold collectDependencies. rewrite run_bind, run_gets.
  destruct (deps_collected st !! file) eqn:Hcol.
  - rewrite run_ret. intros [= <-]. by rewrite Hcol.
  - intros Hrun.
    destruct (spec_Ret _ _ _ _ _ _ (spec_collectDependencies_fresh file) Hrun)
      as [[(s & _ & ->) _] _].
    simpl. by rewrite lookup_insert_eq.
Qed.

Lemma collected_mono st st' f :
  inspecting st st' → is_Some (deps_collected st !! f) → is_Some (deps_collected st' !! f).
Proof. intros ((_ & _ & _ & _ & _ & Hmono) & _). apply Hmono. Qed.

(** After a pass, the entries it went over have been inspected. *)
Lemma collectSubDependencies_pass_inspects count :
  ∀ n st st', collectSubDependencies_pass count n st = Ret tt st' →
    ∀ i d, n ≤ i < n + count → deps st' !! i = Some d →
           isRpath (getOriginalPath d) = false →
           is_Some (deps_collected st' !! getOriginalPath d).
Proof.
  induction count as [|count IH]; intros n st st' Hrun i d Hi Hd Hrp; [lia|].
  simpl in Hrun. rewrite run_bind in Hrun.
  destruct (collectSubDependency n st) as [[] s1|] eqn:Hone; [|done].
  destruct (decide (i = n)) as [->|Hne].
  2:{ eapply (IH (S n)); [done| |done|done]. lia. }
  destruct (spec_Ret _ _ _ _ _ _ (spec_collectSubDependencies_pass count (S n)) Hrun)
    as [Hins _].
  destruct (spec_Ret _ _ _ _ _ _ (growing_collectSubDependencies_pass count (S n)) Hrun)
    as [(Hg & _) _].
  destruct (spec_Ret _ _ _ _ _ _ (growing_collectSubDependency n) Hone) as [(Hg1 & _) _].
  unfold collectSubDependency in Hone. rewrite run_bind, run_gets in Hone.
  destruct (deps st !! n) as [d0|] eqn:Hd0; [|done].
  destruct (grown_lookup _ _ _ _ Hg1 Hd0) as (d1 & Hd1 & Hf1 & Hp1 & _).
  destruct (grown_lookup _ _ _ _ Hg Hd1) as (d2 & Hd2 & Hf2 & Hp2 & _).
  assert (d2 = d) as -> by congruence.
  assert (getOriginalPath d0 = getOriginalPath d) as Hpath.
  { unfold getOriginalPath. congruence. }
  rewrite Hpath, Hrp, run_bind, run_ret in Hone.
  eapply collected_mono; [done|]. by eapply collectDependencies_marks.
Qed.

(** X16.  When [collectSubDependencies] returns the fixed point is reached:
    every entry of the registry whose original path is a plain path has
    been inspected, and when all of them are plain paths a further run
    finds nothing to do and leaves the state as it is. *)
Theorem collectSubDependencies_reaches_fixed_point (fuel : nat) st st' :
  collectSubDependencies fuel st = Ret tt st' →
  (∀ d, d ∈ deps st' → isRpath (getOriginalPath d) = false →
        is_Some (deps_collected st' !! getOriginalPath d))
  ∧ ((∀ d, d ∈ deps st' → isRpath (getOriginalPath d) = false) →
     ∀ fuel', collectSubDependencies (S fuel') st' = Ret tt st').
Proof.
  intros Hrun.
  assert (∀ d, d ∈ deps st' → isRpath (getOriginalPath d) = false →
               is_Some (deps_collected st' !! getOriginalPath d)) as Hdone.
  { revert st Hrun. induction fuel as [|fuel IH]; intros st; [done|].
    rewrite collectSubDependencies_S.
    destruct (collectSubDependencies_pass _ _ st) as [[] s1|] eqn:Hpass; [|done].
    case_bool_decide as Hlen; [|by apply IH].
    intros [= <-] d [i Hi]%list_elem_of_lookup Hrp.
    eapply (collectSubDependencies_pass_inspects _ _ _ _ Hpass i); [|done|done].
    apply lookup_lt_Some in Hi. lia. }
  split; [done|]. intros Hplain fuel'. rewrite collectSubDependencies_S.
  assert (∀ count n, n + count ≤ length (deps st') →
            collectSubDependencies_pass count n st' = Ret tt st') as Hpass.
  { induction count as [|count IH]; intros n Hn; [done|]. simpl. rewrite run_bind.
    unfold collectSubDependency at 1. rewrite run_bind, run_gets.
    destruct (lookup_lt_is_Some_2 (deps st') n) as [d Hd]; [lia|]. rewrite Hd.
    assert (d ∈ deps st') as Hin by (by eapply list_elem_of_lookup_2).
    rewrite (Hplain d Hin), run_bind, run_ret.
    destruct (Hdone d Hin (Hplain d Hin)) as [b Hb].
    unfold collectDependencies. rewrite run_bind, run_gets, Hb, run_ret.
    apply IH. lia. }
  rewrite Hpass by lia. by rewrite bool_decide_eq_true_2.
Qed.

(** ** Two references to one library *)

Lemma returned_Some {A} (m : M A) st a :
  returned (m st) = Some a → ∃ st', m st = Ret a st'.
Proof. destruct (m st) as [a' st'|]; [|done]. intros [= ->]. eauto. Qed.

(** A dependency whose prefix is bundled when the constructor is done was
    built to the end: its new name is its file name. *)
Lemma locateDependency_new_name path orig st d st' :
  locateDependency path orig st = Ret d st' →
  isPrefixBundled (settings st) (prefix d) = true → new_name d = filename d.
Proof.
  unfold locateDependency. rewrite run_bind, run_gets.
  destruct (isPrefixBundled (settings st) _) eqn:Hb; simpl.
  - match goal with |- ?m st = _ → _ =>
      assert (spec frame (λ d, new_name d = filename d) m) as Hm by spec_auto end.
    intros Hrun. by destruct (spec_Ret _ _ _ _ _ _ Hm Hrun).
  - rewrite run_ret. intros [= <- _]. simpl. congruence.
Qed.

Lemma Dependency_ctor_new_name path file st d st' :
  Dependency_ctor path file st = Ret d st' →
  isPrefixBundled (settings st) (prefix d) = true → new_name d = filename d.
Proof.
  unfold Dependency_ctor. rewrite run_bind.
  destruct (resolveOriginalFile _ file st) as [orig s1|] eqn:Hres; [|done].
  destruct (spec_Ret _ _ _ _ _ _ (frame_resolveOriginalFile _ file) Hres)
    as [(_ & _ & _ & _ & Hi & _) _].
  intros Hrun Hb. eapply locateDependency_new_name; [done|].
  by rewrite (isPrefixBundled_ext (settings st)).
Qed.

(** What the constructor makes of the file a reference was resolved to. *)
Lemma Dependency_ctor_of_resolved (r f : string) st o s1 d s2 :
  resolveOriginalFile (rtrim r) f st = Ret o s1 →
  locateDependency (rtrim r) o s1 = Ret d s2 →
  Dependency_ctor r f st = Ret d s2
  ∧ filename d = stripPrefix o
  ∧ symlinks d = (if bool_decide (o = rtrim r) then [] else [rtrim r]).
Proof.
  intros Hres Hloc. split.
  - unfold Dependency_ctor. by rewrite run_bind, Hres.
  - destruct (spec_Ret _ _ _ _ _ _ (locateDependency_spec (rtrim r) o) Hloc) as [_ [Hf Hs]].
    split; [done|]. rewrite Hs. unfold string_eqb. by case_bool_decide.
Qed.

Lemma count_merged n dep (ds : list Dependency) :
  length (filter (λ e, filename e = n) (merged dep <$> ds))
  = length (filter (λ e, filename e = n) ds).
Proof.
  induction ds as [|e ds IH]; [done|]. rewrite fmap_cons, !filter_cons, filename_merged.
  destruct (decide (filename e = n)); simpl; by rewrite IH.
Qed.

Lemma count_fresh n (ds : list Dependency) :
  n ∉ filename <$> ds → length (filter (λ e, filename e = n) ds) = 0.
Proof.
  induction ds as [|e ds IH]; [done|]. rewrite fmap_cons, not_elem_of_cons, filter_cons.
  intros [Hne Hds]. destruct (decide (filename e = n)); [congruence|]. by apply IH.
Qed.

(** Two references to one library, handled one after the other. *)
Lemma addDependency_twice st (r1 f1 r2 f2 : string) d1 d2 :
  let A1 := final_state (addDependency r1 f1 st) in
  let A2 := final_state (addDependency r2 f2 A1) in
  returned (Dependency_ctor r1 f1 st) = Some d1 →
  returned (Dependency_ctor r2 f2 A1) = Some d2 →
  filename d2 = filename d1 → prefix d2 = prefix d1 →
  addDependency r1 f1 st = Ret tt A1
  ∧ addDependency r2 f2 A1 = Ret tt A2
  ∧ prefixes_to_ignore (settings A1) = prefixes_to_ignore (settings st)
  ∧ deps A2
    = (merged d2 <$> (merged d1 <$> deps st))
      ++ (if isPrefixBundled (settings st) (prefix d1)
             && bool_decide (filename d1 ∉ filename <$> deps st)
          then [with_symlinks (alias_union (symlinks d1) (symlinks d2)) d1] else []).
Proof.
  intros A1 A2 [s1 Hc1]%returned_Some [s2 Hc2]%returned_Some Hfn Hpx.
  destruct (spec_Ret _ _ _ _ _ _ (Dependency_ctor_spec r1 f1) Hc1)
    as [(Hd1 & _ & _ & _ & Hi1 & _) _].
  destruct (spec_Ret _ _ _ _ _ _ (Dependency_ctor_spec r2 f2) Hc2)
    as [(Hd2 & _ & _ & _ & Hi2 & _) _].
  destruct (registerDependency_run d1 f1 s1) as (sm & Hr1 & Hdeps1 & Hset1 & _).
  assert (addDependency r1 f1 st = Ret tt sm) as Ha1
    by (by rewrite (addDependency_run _ _ _ _ _ Hc1)).
  assert (A1 = sm) as HA1 by (unfold A1; by rewrite Ha1).
  clearbody A1. subst A1.
  destruct (registerDependency_run d2 f2 s2) as (sn & Hr2 & Hdeps2 & Hset2 & _).
  assert (addDependency r2 f2 sm = Ret tt sn) as Ha2
    by (by rewrite (addDependency_run _ _ _ _ _ Hc2)).
  assert (A2 = sn) as HA2 by (unfold A2; by rewrite Ha2).
  clearbody A2. subst A2.
  split_and!; [done|done|congruence|].
  rewrite Hdeps2, Hd2, Hdeps1, Hd1, !mergeInto_fst, Hpx, Hfn.
  rewrite (isPrefixBundled_ext (settings st) (settings s1)) by done.
  rewrite (isPrefixBundled_ext (settings st) (settings s2)) by congruence.
  destruct (isPrefixBundled (settings st) (prefix d1)); simpl;
    [|by rewrite !app_nil_r].
  destruct (decide (filename d1 ∈ filename <$> deps st)) as [Hin|Hout].
  - rewrite (bool_decide_eq_true_2 _ Hin), (bool_decide_eq_false_2 (_ ∉ _)) by (by intros []).
    simpl. rewrite !app_nil_r, fmap_filename_merged.
    rewrite (bool_decide_eq_true_2 _ Hin). simpl. by rewrite ?app_nil_r.
  - rewrite (bool_decide_eq_false_2 _ Hout), (bool_decide_eq_true_2 (_ ∉ _)) by done.
    simpl. rewrite fmap_app, fmap_app, bool_decide_eq_true_2.
    2:{ apply elem_of_app. right. apply list_elem_of_here. }
    simpl. rewrite app_nil_r. f_equal. unfold merged, string_eqb.
    by rewrite bool_decide_eq_true_2.
Qed.

Lemma merged_same dep e :
  filename e = filename dep →
  merged dep e = with_symlinks (alias_union (symlinks e) (symlinks dep)) e.
Proof. intros He. unfold merged, string_eqb. by rewrite bool_decide_eq_true_2. Qed.

Lemma same_library_merged_twice d1 d2 e :
  filename d2 = filename d1 →
  same_library (merged d2 (merged d1 e)) (merged d1 (merged d2 e)).
Proof.
  intros Hfn. destruct (decide (filename e = filename d1)) as [He|He].
  - rewrite (merged_same d1 e), (merged_same d2 e), !merged_same by (simpl; congruence).
    split_and!; try done. simpl. intros x. rewrite !elem_of_alias_union. tauto.
  - rewrite (merged_other d1 e), (merged_other d2 e) by congruence.
    rewrite (merged_other d1 e) by congruence. by split_and!.
Qed.

Lemma Forall2_same_library_merged d1 d2 (ds : list Dependency) :
  filename d2 = filename d1 →
  Forall2 same_library (merged d2 <$> (merged d1 <$> ds)) (merged d1 <$> (merged d2 <$> ds)).
Proof.
  intros Hfn. induction ds as [|e ds IH]; [done|]. rewrite !fmap_cons.
  constructor; [by apply same_library_merged_twice|exact IH].
Qed.

(** C1, as amended.  Let the constructor resolve two references to the
    same file name and prefix, whichever of the two is handled first.
    [addDependency] returns in either order.  When the prefix is bundled
    and no entry of [deps] had the file name, [deps] gains exactly one
    entry for the two, and none otherwise: the number of entries of that
    file name is one afterwards if it was none or one before.  Every entry
    of that file name, the new one or one that was there, has as symlinks
    what it had and the symlinks of the two dependencies.  The registries
    that the two orders give have the same entries at the same places, the
    same but for the order of the symlinks.  A dependency has its trimmed
    reference as its one symlink when the file it was resolved to is not
    the trimmed reference, and no symlink when it is. *)
Theorem addDependency_same_file_merges st (r1 f1 r2 f2 : string) d1 d2 :
  let A1 := final_state (addDependency r1 f1 st) in
  let A2 := final_state (addDependency r2 f2 A1) in
  let B1 := final_state (addDependency r2 f2 st) in
  let B2 := final_state (addDependency r1 f1 B1) in
  let added := isPrefixBundled (settings st) (prefix d1)
               && bool_decide (filename d1 ∉ filename <$> deps st) in
  let count ds := length (filter (λ e, filename e = filename d1) ds) in
  returned (Dependency_ctor r1 f1 st) = Some d1 →
  returned (Dependency_ctor r2 f2 A1) = Some d2 →
  returned (Dependency_ctor r2 f2 st) = Some d2 →
  returned (Dependency_ctor r1 f1 B1) = Some d1 →
  filename d2 = filename d1 → prefix d2 = prefix d1 →
  (addDependency r1 f1 st = Ret tt A1 ∧ addDependency r2 f2 A1 = Ret tt A2
   ∧ addDependency r2 f2 st = Ret tt B1 ∧ addDependency r1 f1 B1 = Ret tt B2)
  ∧ deps A2
    = (merged d2 <$> (merged d1 <$> deps st))
      ++ (if added then [with_symlinks (alias_union (symlinks d1) (symlinks d2)) d1]
          else [])
  ∧ deps B2
    = (merged d1 <$> (merged d2 <$> deps st))
      ++ (if added then [with_symlinks (alias_union (symlinks d2) (symlinks d1)) d2]
          else [])
  ∧ Forall2 same_library (deps A2) (deps B2)
  ∧ count (deps A2) = (if added then 1 else count (deps st))
  ∧ (∀ i e, deps A2 !! i = Some e → filename e = filename d1 →
       ∀ x, x ∈ symlinks e
            ↔ (∃ e0, deps st !! i = Some e0 ∧ x ∈ symlinks e0)
              ∨ x ∈ symlinks d1 ∨ x ∈ symlinks d2)
  ∧ (∀ (r f : string) s o s1 d s2,
       resolveOriginalFile (rtrim r) f s = Ret o s1 →
       locateDependency (rtrim r) o s1 = Ret d s2 →
       Dependency_ctor r f s = Ret d s2
       ∧ filename d = stripPrefix o
       ∧ symlinks d = (if bool_decide (o = rtrim r) then [] else [rtrim r])).
Proof.
  intros A1 A2 B1 B2 added count HcA1 HcA2 HcB2 HcB1 Hfn Hpx.
  destruct (addDependency_twice st r1 f1 r2 f2 d1 d2 HcA1 HcA2 Hfn Hpx)
    as (HA1 & HA2 & _ & HdA).
  destruct (addDependency_twice st r2 f2 r1 f1 d2 d1 HcB2 HcB1 (eq_sym Hfn) (eq_sym Hpx))
    as (HB1 & HB2 & _ & HdB).
  fold A1 A2 in HdA. fold B1 B2 in HdB. rewrite Hpx, Hfn in HdB. fold added in HdA, HdB.
  split; [by split_and!|]. split; [done|]. split; [done|]. split_and!.
  - rewrite HdA, HdB. apply Forall2_app.
    + by apply Forall2_same_library_merged.
    + destruct added eqn:Hadded; [|done]. constructor; [|done].
      apply andb_true_iff in Hadded as [Hb _].
      apply returned_Some in HcA1 as [s1 HcA1]. apply returned_Some in HcB2 as [s2 HcB2].
      pose proof (Dependency_ctor_new_name _ _ _ _ _ HcA1 Hb) as Hn1.
      rewrite <- Hpx in Hb.
      pose proof (Dependency_ctor_new_name _ _ _ _ _ HcB2 Hb) as Hn2.
      split_and!; simpl; [done|done|congruence|].
      intros x. rewrite !elem_of_alias_union. tauto.
  - rewrite HdA. unfold count. rewrite filter_app, length_app, !count_merged.
    destruct added eqn:Hadded; simpl; [|lia].
    apply andb_true_iff in Hadded as [_ Hfresh%bool_decide_eq_true].
    rewrite count_fresh by done. rewrite filter_cons. simpl.
    by destruct (decide (filename d1 = filename d1)).
  - intros i e Hi He x. rewrite HdA in Hi.
    apply lookup_app_Some in Hi as [Hi|[Hlen Hi]].
    + rewrite !list_lookup_fmap in Hi.
      destruct (deps st !! i) as [e0|] eqn:H0; [|done]. simpl in Hi. injection Hi as <-.
      rewrite !filename_merged in He.
      rewrite (merged_same d1 e0), merged_same by (simpl; congruence). simpl.
      rewrite !elem_of_alias_union. split.
      * intros [[?|?]|?]; [left; eauto|auto..].
      * intros [(e1 & [= <-] & ?)|[?|?]]; auto.
    + rewrite !length_fmap in Hlen, Hi.
      destruct added; [|by rewrite lookup_nil in Hi].
      apply list_lookup_singleton_Some in Hi as [Hi <-]. simpl.
      rewrite elem_of_alias_union. split; [auto|].
      intros [(e0 & H0 & _)|?]; [|done].
      apply lookup_lt_Some in H0. lia.
  - intros r f s o s1 d s2. apply Dependency_ctor_of_resolved.
Qed.

(** ** The index and the inspected files *)

Lemma collectLine_passes_filters file line st :
  collectLine file line st
  = if passes_filters line then addDependency (dep_path_of_line line) file st
    else Ret tt st.
Proof.
  unfold collectLine, passes_filters. destruct line as [|c l]; [done|].
  destruct (ascii_eqb c tab); [|done]. simpl.
  destruct (contains ".framework" _); [done|]. simpl.
  by destruct (isSystemLibrary _).
Qed.

Lemma scanLoadCommands_returned raw :
  ∀ searching lines st st',
    returned (scanLoadCommands raw searching lines st)
    = returned (scanLoadCommands raw searching lines st').
Proof.
  induction raw as [|line raw IH]; intros searching lines st st'; simpl; [done|].
  destruct (_ || _).
  - destruct searching; [by mrun|]. apply IH.
  - destruct searching; [|apply IH]. destruct (find "name " line); apply IH.
Qed.

Lemma collectDependencies_lines_returned file st st' :
  world st' = world st →
  returned (collectDependencies_lines file st')
  = returned (collectDependencies_lines file st).
Proof.
  intros Hw. unfold collectDependencies_lines, system_get_output.
  rewrite !run_bind, !run_gets, Hw. destruct (otool_failed _); [by mrun|].
  apply scanLoadCommands_returned.
Qed.

Lemma lists_kept_reference_world file st st' :
  world st' = world st → lists_kept_reference file st' = lists_kept_reference file st.
Proof.
  intros Hw. unfold lists_kept_reference.
  pose proof (collectDependencies_lines_returned file st st' Hw) as Hret.
  destruct (collectDependencies_lines file st'), (collectDependencies_lines file st);
    simpl in Hret; by simplify_eq.
Qed.

#[local] Instance indexing_preorder : PreOrder (@indexing World _).
Proof.
  split.
  - by intros st.
  - intros st1 st2 st3 [? ?] [? ?]. split; [congruence|auto].
Qed.

Lemma frame_indexing st st' : frame st st' → indexing st st'.
Proof.
  intros (_ & Hf & Hc & Hw & _). split; [done|]. intros Hin f.
  rewrite Hf, Hc, (lists_kept_reference_world f st st' Hw). apply Hin.
Qed.

Lemma spec_frame_indexing {A} (m : M A) : spec (@frame World) any m → spec indexing any m.
Proof. intros Hm. eapply spec_weaken; [done|apply frame_indexing|done]. Qed.
Hint Resolve spec_frame_indexing | 10 : spec.

(** The lines of a file handed to [addDependency] one after the other: the
    file has an entry in the index afterwards exactly when it had one
    before or a line passed the filters. *)
Lemma collectLines_index file lines :
  ∀ st st', collectLines file lines st = Ret tt st' →
    (is_Some (deps_per_file st' !! file)
     ↔ is_Some (deps_per_file st !! file) ∨ existsb passes_filters lines = true)
    ∧ ∀ g, g ≠ file → is_Some (deps_per_file st' !! g) ↔ is_Some (deps_per_file st !! g).
Proof.
  induction lines as [|line lines IH]; intros st st'; simpl.
  - rewrite run_ret. intros [= <-]. split; [|done]. split; [auto|]. by intros [?|?].
  - rewrite run_bind, collectLine_passes_filters.
    destruct (passes_filters line) eqn:Hp; simpl.
    + destruct (addDependency _ file st) as [[] s1|] eqn:Hadd; [|done]. intros Hrest.
      destruct (IH _ _ Hrest) as [Hfile Hother].
      unfold addDependency in Hadd. rewrite run_bind in Hadd.
      destruct (Dependency_ctor _ file st) as [d s0|] eqn:Hc; [|done].
      destruct (spec_Ret _ _ _ _ _ _ (Dependency_ctor_spec _ file) Hc)
        as [(_ & Hf0 & _) _].
      destruct (registerDependency_run d file s0)
        as (s1' & Hr & _ & _ & _ & _ & _ & Hsome & Hne & _).
      rewrite Hr in Hadd. injection Hadd as ->. split.
      * rewrite Hfile. split; [auto|]. intros _. by left.
      * intros g Hg. rewrite (Hother g Hg), (Hne g Hg), Hf0. done.
    + intros Hrest. destruct (IH _ _ Hrest) as [Hfile Hother]. split; [|done].
      rewrite Hfile. done.
Qed.

Lemma indexing_collectDependencies file : spec indexing any (collectDependencies file).
Proof.
  intros st. unfold collectDependencies. rewrite run_bind, run_gets.
  destruct (deps_collected st !! file) eqn:Hnew; [by rewrite run_ret|].
  rewrite run_bind.
  pose proof (frame_collectRpaths file st) as Hr.
  destruct (collectRpaths file st) as [[] s0|]; [|done].
  destruct Hr as [(_ & Hf0 & Hc0 & Hw0 & _) _]. rewrite run_bind.
  pose proof (frame_collectDependencies_lines file s0) as Hl.
  destruct (collectDependencies_lines file s0) as [lines s0'|] eqn:Hlines; [|done].
  destruct Hl as [(_ & Hf0' & Hc0' & Hw0' & _) _]. rewrite run_bind.
  pose proof (spec_collectLines file lines s0') as Hcl.
  destruct (collectLines file lines s0') as [[] s1|] eqn:Hrun; [|done].
  destruct Hcl as [((Hw1 & _) & Hc1 & _) _].
  destruct (collectLines_index _ _ _ _ Hrun) as [Hfile Hother].
  rewrite run_modify. split; [|done]. split; [simpl; congruence|].
  assert (world s1 = world st) as Hw by congruence.
  assert (lists_kept_reference file st = existsb passes_filters lines) as Hkept.
  { rewrite <- (lists_kept_reference_world file st s0) by done.
    unfold lists_kept_reference. by rewrite Hlines. }
  intros Hin f. simpl.
  rewrite (lists_kept_reference_world f st) by (simpl; congruence).
  destruct (decide (f = file)) as [->|Hne].
  - rewrite lookup_insert_eq, Hfile, Hf0', Hf0, Hkept. split.
    + intros [Hold|Hp]; [|done]. apply Hin in Hold as [[? Hold] _]. congruence.
    + intros [_ ?]. by right.
  - rewrite lookup_insert_ne, (Hother f Hne), Hf0', Hf0, Hc1, Hc0', Hc0 by done.
    apply Hin.
Qed.
Hint Resolve indexing_collectDependencies : spec.

Lemma indexing_collectSubDependency n : spec indexing any (collectSubDependency n).
Proof. unfold collectSubDependency. spec_auto. Qed.
Hint Resolve indexing_collectSubDependency : spec.

Lemma indexing_collectSubDependencies_pass count n :
  spec indexing any (collectSubDependencies_pass count n).
Proof. revert n. induction count; intros n; simpl; spec_auto. Qed.

Lemma collectSubDependencies_indexing fuel st st' :
  collectSubDependencies fuel st = Ret tt st' → indexing st st'.
Proof.
  revert st. induction fuel as [|fuel IH]; intros st; [done|].
  rewrite collectSubDependencies_S.
  pose proof (indexing_collectSubDependencies_pass (length (deps st)) 0 st) as Hpass.
  destruct (collectSubDependencies_pass _ _ st) as [[] s1|]; [|done].
  destruct Hpass as [Hpass _]. case_bool_decide.
  - by intros [= <-].
  - intros Hrest. etrans; [done|]. by apply IH.
Qed.

Lemma inspects_indexing st st' : rtc inspects st st' → indexing st st'.
Proof.
  induction 1 as [|s1 s2 s3 Hstep _ IH]; [done|]. etrans; [|done].
  destruct Hstep as [f s1 s2 Hrun|fuel s1 s2 Hrun].
  - by destruct (spec_Ret _ _ _ _ _ _ (indexing_collectDependencies f) Hrun).
  - by eapply collectSubDependencies_indexing.
Qed.

(** C6, as amended.  The loop of [collectDependencies(filename)] hands a
    line to [addDependency] exactly when it passes the three tests.  After
    any number of inspections a file has an entry in [deps_per_file] if and
    only if it is in [deps_collected] and [otool] lists for it a reference
    that passes the tests: this is kept by every inspection, and it holds
    from the empty maps.  A file whose inspection returned is in
    [deps_collected]. *)
Theorem index_entry_iff_inspected_with_kept_reference :
  (∀ (file line : string) st,
      collectLine file line st
      = if passes_filters line then addDependency (dep_path_of_line line) file st
        else Ret tt st)
  ∧ (∀ st st', index_as_inspected st → rtc inspects st st' → index_as_inspected st')
  ∧ (∀ st st' (f : string),
      deps_per_file st = ∅ → deps_collected st = ∅ → rtc inspects st st' →
      (is_Some (deps_per_file st' !! f)
       ↔ is_Some (deps_collected st' !! f) ∧ lists_kept_reference f st' = true))
  ∧ (∀ (file : string) st st',
      collectDependencies file st = Ret tt st' →
      is_Some (deps_collected st' !! file)).
Proof.
  split_and!.
  - apply collectLine_passes_filters.
  - intros st st' Hin Hrun. destruct (inspects_indexing _ _ Hrun) as [_ Hidx]. auto.
  - intros st st' f Hf Hc Hrun. destruct (inspects_indexing _ _ Hrun) as [_ Hidx].
    apply Hidx. intros g. rewrite Hf, Hc, !lookup_empty. split.
    + by intros [? ?].
    + by intros [[? ?] _].
  - apply collectDependencies_marks.
Qed.

(** ** Reading what [otool] prints *)

Lemma scanRpaths_returns_bounded file n :
  ∀ lc_lines read_rpath st, length lc_lines ≤ n →
    ∃ st', scanRpaths file lc_lines read_rpath st = Ret tt st'.
Proof.
  induction n as [|n IH]; intros [|line rest] read_rpath st Hlen; simpl in *;
    try lia; [by eexists..|].
  destruct read_rpath.
  - destruct (find "path " line), (find " (" line); unfold rpaths_of; mrun;
      apply IH; lia.
  - destruct (contains "LC_RPATH" line); [|apply IH; lia].
    destruct rest as [|skipped rest']; [by eexists|]. apply IH. simpl in Hlen. lia.
Qed.

(** [collectRpaths] returns, unless the name of the file is all white
    space. *)
Lemma collectRpaths_returns file st :
  is_empty (rtrim file) = false → ∃ st', collectRpaths file st = Ret tt st'.
Proof.
  intros Hname. unfold collectRpaths, system_get_output.
  rewrite run_bind, run_fileExists, Hname.
  destruct (access_ok (world st) file); simpl.
  - mrun. by eapply scanRpaths_returns_bounded.
  - destruct (access_ok _ _); simpl; mrun; [by eapply scanRpaths_returns_bounded|by eexists].
Qed.

(** X17.  A file that [otool] cannot read ends the run: when its output is
    empty or reports a file that cannot be opened, the inspection of a file
    not inspected before stops with status 1 after the diagnostic that
    names the file.  The file is not marked as inspected, and the registry
    and the index are as before. *)
Theorem collectDependencies_unreadable_file_is_fatal (file : string) st :
  deps_collected st !! file = None →
  is_empty (rtrim file) = false →
  otool_failed (popen_output (world st) (otool_cmd file)) = true →
  ∃ st', collectDependencies file st = Stop (ExitCode 1) st'
    ∧ last (trace st')
      = Some (Stderr ("Cannot find file " +:+ file +:+ " to read its dependencies"))
    ∧ deps st' = deps st ∧ deps_per_file st' = deps_per_file st
    ∧ deps_collected st' = deps_collected st.
Proof.
  intros Hnew Hname Hfail. unfold collectDependencies. rewrite run_bind, run_gets, Hnew.
  destruct (collectRpaths_returns file st Hname) as [s1 Hr]. rewrite run_bind, Hr.
  destruct (spec_Ret _ _ _ _ _ _ (frame_collectRpaths file) Hr)
    as [(Hd & Hf & Hc & Hw & _) _].
  unfold collectDependencies_lines, system_get_output. mrun. rewrite Hw, Hfail. mrun.
  eexists. split; [done|]. simpl. split_and!; try done. by rewrite last_snoc.
Qed.

Lemma insert_touch {V} (k : string) (d v : V) (m : gmap string V) :
  <[k := v]> (touch k d m) = <[k := v]> m.
Proof. unfold touch. destruct (m !! k); [done|]. apply insert_insert_eq. Qed.

Lemma at_key_touch {V} (k : string) (d : V) (m : gmap string V) :
  at_key k d (touch k d m) = at_key k d m.
Proof.
  unfold at_key, touch. destruct (m !! k) eqn:Hk; [by rewrite Hk|].
  by rewrite lookup_insert_eq.
Qed.

(** X18.  How [collectRpaths] reads an [LC_RPATH] load command: the line
    after the one that names the command is skipped, and the line after
    that gives the rpath, which is what stands between [path] and the
    bracket with the offset; it is added at the end of the rpaths of the
    file.  This holds for every rpath without an opening bracket in
    it. *)
Theorem scanRpaths_records_the_rpath
    (file cmd skipped pad rpath offset : string) (rest : list string) st :
  contains "LC_RPATH" cmd = true →
  chars_all (λ c, ascii_eqb c " ") pad = true →
  chars_all (λ c, negb (ascii_eqb c "(")) rpath = true →
  scanRpaths file
    (cmd :: skipped :: (pad +:+ "path " +:+ rpath +:+ " (" +:+ offset) :: rest) false st
  = scanRpaths file rest false
      (set_rpaths_per_file
         (<[file := at_key file [] (rpaths_per_file st) ++ [rpath]]> (rpaths_per_file st))
         st).
Proof.
  intros Hcmd Hpad Hrpath.
  change (scanRpaths file (cmd :: skipped :: ?l) false st)
    with ((if contains "LC_RPATH" cmd then scanRpaths file l true
           else scanRpaths file (skipped :: l) false) st).
  rewrite Hcmd.
  set (line := pad +:+ "path " +:+ rpath +:+ " (" +:+ offset).
  assert (find "path " line = Some (String.length pad)) as Hstart.
  { unfold line. rewrite (find_after "p" "ath " pad).
    - rewrite find_here. simpl. by rewrite Nat.add_0_r.
    - eapply chars_all_impl; [|exact Hpad]. intros c. unfold ascii_eqb.
      case_bool_decide as Hc; [subst c|]; done. }
  assert (find " (" line = Some (String.length pad + 5 + String.length rpath)) as Hend.
  { unfold line. rewrite <- (app_assoc_str pad), <- (app_assoc_str (pad +:+ "path ")).
    rewrite (find_after_second " " "(" ((pad +:+ "path ") +:+ rpath)); [|..|done].
    - rewrite find_here. simpl. by rewrite !String_length_app, Nat.add_0_r.
    - rewrite !chars_all_app, Hrpath, andb_true_r. apply andb_true_iff. split; [|done].
      eapply chars_all_impl; [|exact Hpad]. intros c. unfold ascii_eqb.
      case_bool_decide as Hc; [subst c|]; done. }
  change (scanRpaths file (line :: rest) true st)
    with (match find "path " line, find " (" line with
          | Some start_pos, Some end_pos =>
              let start_pos := (start_pos + 5)%nat in
              let rpath :=
                if Nat.ltb end_pos start_pos then drop_str start_pos line
                else take_str (end_pos - start_pos)%nat (drop_str start_pos line) in
              let* rpaths := rpaths_of file in
              modify (fun st =>
                set_rpaths_per_file (<[file := rpaths ++ [rpath]]> (rpaths_per_file st)) st);;
              scanRpaths file rest false
          | _, _ =>
              cerr "/!\ WARNING: Unexpected LC_RPATH format";;
              scanRpaths file rest true
          end st).
  rewrite Hstart, Hend. cbv zeta.
  assert ((String.length pad + 5 + String.length rpath <? String.length pad + 5) = false) as ->
    by (apply Nat.ltb_ge; lia).
  replace (String.length pad + 5 + String.length rpath - (String.length pad + 5))
    with (String.length rpath) by lia.
  assert (drop_str (String.length pad + 5) line = rpath +:+ " (" +:+ offset) as ->.
  { unfold line. rewrite <- (app_assoc_str pad).
    replace (String.length pad + 5) with (String.length (pad +:+ "path "))
      by (by rewrite String_length_app).
    apply drop_str_app. }
  rewrite take_str_app. unfold rpaths_of. mrun. simpl.
  by rewrite insert_touch, at_key_touch.
Qed.

Lemma scanLoadCommands_Ret raw :
  ∀ searching lines st ls st',
    scanLoadCommands raw searching lines st = Ret ls st' →
    st' = st
    ∧ (Forall (λ l, ∃ rest, l = String tab rest) lines →
       Forall (λ l, ∃ rest, l = String tab rest) ls).
Proof.
  induction raw as [|line raw IH]; intros searching lines st ls st'; simpl.
  - rewrite run_ret. by intros [= <- <-].
  - destruct (_ || _).
    + destruct searching; [by mrun|]. apply IH.
    + destruct searching; [|apply IH].
      destruct (find "name " line) as [found|]; [|apply IH].
      intros Hrun. destruct (IH _ _ _ _ _ Hrun) as [-> Htabs]. split; [done|].
      intros Hlines. apply Htabs, Forall_app. split; [done|].
      apply Forall_singleton. eauto.
Qed.

(** X19.  Every line that [collectDependencies(filename, lines)] hands on
    begins with a tab, so the test for the tab in the loop of
    [collectDependencies(filename)] never skips a line; and the reading of
    the load commands leaves the state as it is. *)
Theorem collectDependencies_lines_begin_with_tab (file : string) st lines st' :
  collectDependencies_lines file st = Ret lines st' →
  st' = st
  ∧ Forall (λ line, ∃ rest, line = String tab rest) lines
  ∧ Forall (λ line,
      collectLine file line st
      = if contains ".framework" line then Ret tt st
        else if isSystemLibrary (dep_path_of_line line) then Ret tt st
        else addDependency (dep_path_of_line line) file st) lines.
Proof.
  unfold collectDependencies_lines, system_get_output. rewrite run_bind, run_gets.
  destruct (otool_failed _); [by mrun|]. intros Hrun.
  destruct (scanLoadCommands_Ret _ _ _ _ _ _ Hrun) as [-> Htabs].
  specialize (Htabs (Forall_nil_2 _)). split_and!; [done|done|].
  eapply Forall_impl; [exact Htabs|]. intros line [rest ->]. unfold collectLine.
  unfold ascii_eqb. rewrite bool_decide_eq_true_2 by done. simpl.
  destruct (contains ".framework" _); [done|]. by destruct (isSystemLibrary _).
Qed.

(** ** Copying and rewriting *)

Lemma copyFile_Ret from to st st' :
  copyFile from to st = Ret tt st' →
  trace st'
  = trace st
    ++ (Exec <$> (if bool_decide (from = to) then []
                  else [cp_cmd (overwrite_files (settings st)) from to])
                 ++ [chmod_cmd to])
  ∧ set_trace (trace st) (set_world (world st) st') = st
  ∧ (overwrite_files (settings st) = false → from ≠ to →
     fileExists to st = Ret false st).
Proof.
  unfold copyFile, canOverwriteFiles, string_eqb. rewrite run_bind, run_gets.
  destruct (decide (from = to)) as [->|Hne].
  - rewrite !bool_decide_eq_true_2 by done. simpl. mrun.
    destruct (nonzero _); mrun; [done|]. intros [= <-]. simpl.
    split_and!; [done|by destruct st|done].
  - rewrite !bool_decide_eq_false_2 by done. simpl.
    destruct (overwrite_files (settings st)) eqn:Hov; simpl.
    + mrun. destruct (nonzero _); mrun; [done|]. destruct (nonzero _); mrun; [done|].
      intros [= <-]. simpl. rewrite <- app_assoc. split_and!; [done|by destruct st|done].
    + rewrite run_bind, run_bind.
      destruct (fileExists to st) as [[] s1|] eqn:He; [| |done];
        apply fileExists_Ret in He as Hs1; subst s1; mrun; [done|].
      destruct (nonzero _); mrun; [done|]. destruct (nonzero _); mrun; [done|].
      intros [= <-]. simpl. rewrite <- app_assoc. split_and!; [done|by destruct st|done].
Qed.

(** X20.  When [copyYourself] returns, the library has been copied to the
    destination folder under its new name with [cp], made writable with
    [chmod +w] and given its inner path as identity with
    [install_name_tool -id], in this order and with nothing else run;
    nothing but the machine and the trace has changed.  Without the
    permission to overwrite files, no file was at the destination
    before. *)
Theorem copyYourself_installs_the_library (d : Dependency) st st' :
  copyYourself d st = Ret tt st' →
  let install := dest_folder_str (settings st) +:+ new_name d in
  let inner := inside_path_str (settings st) +:+ new_name d in
  trace st'
  = trace st
    ++ (Exec <$> (if bool_decide (getOriginalPath d = install) then []
                  else [cp_cmd (overwrite_files (settings st)) (getOriginalPath d) install])
                 ++ [chmod_cmd install;
                     "install_name_tool -id " +:+ quoted inner +:+ " " +:+ quoted install])
  ∧ set_trace (trace st) (set_world (world st) st') = st
  ∧ (overwrite_files (settings st) = false → getOriginalPath d ≠ install →
     fileExists install st = Ret false st).
Proof.
  intros Hrun install inner. unfold copyYourself, getInstallPath, getInnerPath, destFolder,
    inside_lib_path in Hrun. rewrite run_bind, run_bind, run_gets, run_ret, run_bind in Hrun.
  fold install in Hrun.
  destruct (copyFile (getOriginalPath d) install st) as [[] s1|] eqn:Hcopy; [|done].
  apply copyFile_Ret in Hcopy as (Htrace & Hsame & Hfresh).
  assert (settings s1 = settings st) as Hset
    by (by apply (f_equal settings) in Hsame).
  revert Hrun. mrun. rewrite Hset. fold install inner.
  destruct (nonzero _); mrun; [done|]. intros [= <-]. simpl. split_and!.
  - rewrite Htrace, <- !app_assoc. f_equal. by destruct (bool_decide _).
  - rewrite <- Hsame at 3. by destruct s1.
  - done.
Qed.

Lemma fixAll_attempt ds file st :
  fixAll ds file st =
    attempt file
      (concat ((λ d, rewrite_cmd (settings st) d file <$>
                  (getOriginalPath d :: symlinks d)
                  ++ (if missing_prefixes st then filename d :: symlinks d else []))
               <$> ds))
      st.
Proof.
  revert st. induction ds as [|d ds IH]; intros st; [done|].
  rewrite fmap_cons, concat_cons, attempt_app.
  change (fixAll (d :: ds) file st)
    with ((fixFileThatDependsOnMe d file;; fixAll ds file) st).
  rewrite run_bind, fixFileThatDependsOnMe_attempt.
  destruct (attempt file _ st) as [[] s1|] eqn:Hone; [|done].
  apply attempt_Ret in Hone as (Hs & Hm & _). by rewrite IH, Hs, Hm.
Qed.

(** X21.  On a file that was inspected, [changeLibPathsOnFile] inspects
    nothing: it runs, one after the other and up to the first that fails,
    the commands that [fixFileThatDependsOnMe] has for each dependency
    that the index lists for the file, in the order of the list.  A file
    without an entry in the index gets an empty one. *)
Theorem changeLibPathsOnFile_rewrites_what_the_index_lists (file : string) st :
  is_Some (deps_collected st !! file) →
  changeLibPathsOnFile file st
  = attempt file
      (concat ((λ d, rewrite_cmd (settings st) d file <$>
                  (getOriginalPath d :: symlinks d)
                  ++ (if missing_prefixes st then filename d :: symlinks d else []))
               <$> at_key file [] (deps_per_file st)))
      (set_deps_per_file (touch file [] (deps_per_file st)) st).
Proof.
  intros [b Hcol]. unfold changeLibPathsOnFile, deps_of.
  rewrite run_bind, run_gets, Hcol. mrun. simpl. rewrite fixAll_attempt. simpl.
  f_equal. unfold at_key, touch. destruct (deps_per_file st !! file) eqn:Hf; [by rewrite Hf|].
  by rewrite lookup_insert_eq.
Qed.

(** ** The work on the files to fix *)

Lemma fix_cmd_ext s s' f cmd :
  inside_path_str s' = inside_path_str s → fix_cmd s' f cmd → fix_cmd s f cmd.
Proof.
  intros Hs [?|[?|[rpath ->]]]; [by left|by right; left|].
  right; right. exists rpath. unfold rpath_cmd. by rewrite Hs.
Qed.

#[local] Instance fixing_preorder f : PreOrder (@fixing World f).
Proof.
  split.
  - intros st Hcs. split_and!; try done. exists []. by rewrite app_nil_r.
  - intros st1 st2 st3 H12 H23 Hcs.
    destruct (H12 Hcs) as (Hcs2 & Hf12 & Hi12 & c12 & He12 & Hc12).
    destruct (H23 Hcs2) as (Hcs3 & Hf23 & Hi23 & c23 & He23 & Hc23).
    split_and!; [done|congruence..|]. exists (c12 ++ c23). split.
    + by rewrite He23, He12, app_assoc.
    + apply Forall_app. split; [done|].
      eapply Forall_impl; [exact Hc23|]. intros cmd. by apply fix_cmd_ext.
Qed.

#[local] Instance fixing_files_preorder : PreOrder (@fixing_files World).
Proof.
  split.
  - intros st Hcs. split_and!; try done. exists []. by rewrite app_nil_r.
  - intros st1 st2 st3 H12 H23 Hcs.
    destruct (H12 Hcs) as (Hcs2 & Hf12 & Hi12 & c12 & He12 & Hc12).
    destruct (H23 Hcs2) as (Hcs3 & Hf23 & Hi23 & c23 & He23 & Hc23).
    split_and!; [done|congruence..|]. exists (c12 ++ c23). split.
    + by rewrite He23, He12, app_assoc.
    + apply Forall_app. split; [done|].
      eapply Forall_impl; [exact Hc23|]. intros cmd (g & Hg & Hcmd).
      exists g. rewrite <- Hf12. split; [done|]. by eapply fix_cmd_ext.
Qed.

Lemma quiet_fixing f st st' : quiet st st' → fixing f st st'.
Proof.
  intros (_ & He & Hs & _) Hcs. split_and!.
  - apply (f_equal codesign) in Hs. simpl in Hs. congruence.
  - by apply (f_equal files) in Hs.
  - by apply (f_equal inside_path_str) in Hs.
  - exists []. by rewrite app_nil_r.
Qed.

Lemma always_quiet_fixing {A} f (m : M A) : always (@quiet World) m → always (fixing f) m.
Proof. intros Hm. eapply always_weaken; [done|apply quiet_fixing]. Qed.
Hint Resolve always_quiet_fixing | 10 : always.

Lemma fixing_ran f cmd st : fix_cmd (settings st) f cmd → fixing f st (ran cmd st).
Proof.
  intros Hcmd Hcs. simpl. split_and!; try done.
  exists [cmd]. rewrite execs_app. split; [done|]. by apply Forall_singleton.
Qed.

Lemma fixing_systemp f cmd :
  (∀ s, fix_cmd s f cmd) → always (@fixing World f) (systemp cmd).
Proof. intros Hcmd st. rewrite run_systemp. by apply fixing_ran. Qed.

Lemma fixing_changeInstallName file old new :
  always (fixing file) (changeInstallName file old new).
Proof.
  unfold changeInstallName. always_step; [|always_auto].
  apply fixing_systemp. intros s. right; left. eauto.
Qed.
Hint Resolve fixing_changeInstallName : always.

Lemma fixing_getInnerPath f d : always (@fixing World f) (getInnerPath d).
Proof. unfold getInnerPath, inside_lib_path. always_auto. Qed.
Hint Resolve fixing_getInnerPath : always.

Lemma fixing_changeInstallNames file olds d :
  always (fixing file) (changeInstallNames file olds (getInnerPath d)).
Proof. induction olds; simpl; always_auto. Qed.
Hint Resolve fixing_changeInstallNames : always.

Lemma fixing_fixFileThatDependsOnMe d file :
  always (fixing file) (fixFileThatDependsOnMe d file).
Proof. unfold fixFileThatDependsOnMe. always_auto. Qed.
Hint Resolve fixing_fixFileThatDependsOnMe : always.

Lemma fixing_fixAll ds file : always (fixing file) (fixAll ds file).
Proof. induction ds; simpl; always_auto. Qed.
Hint Resolve fixing_fixAll : always.

Lemma fixing_changeLibPathsOnFile file : always (fixing file) (changeLibPathsOnFile file).
Proof. unfold changeLibPathsOnFile. always_auto. Qed.
Hint Resolve fixing_changeLibPathsOnFile : always.

Lemma fixing_copyFile_self f : always (fixing f) (copyFile f f).
Proof.
  unfold copyFile, canOverwriteFiles, string_eqb. rewrite bool_decide_eq_true_2 by done.
  simpl. always_step; [always_step|]. always_step; [always_step|].
  always_step; [always_step|]. always_step; [|always_auto].
  apply fixing_systemp. intros s. by left.
Qed.
Hint Resolve fixing_copyFile_self : always.

Lemma fixing_fixRpaths rpaths file : always (@fixing World file) (fixRpaths rpaths file).
Proof.
  induction rpaths as [|rpath rest IH]; simpl; [always_auto|].
  intros st. rewrite run_bind, run_gets.
  apply always_bind_from; [apply _| |intros rc; always_auto].
  rewrite run_systemp. apply fixing_ran. right; right. by exists rpath.
Qed.
Hint Resolve fixing_fixRpaths : always.

Lemma fixing_fixRpathsOnFile file : always (fixing file) (fixRpathsOnFile file file).
Proof. unfold fixRpathsOnFile. always_auto. Qed.
Hint Resolve fixing_fixRpathsOnFile : always.

(** [fixRpathsOnFile] always returns: a command that fails is reported,
    nothing more. *)
Lemma fixRpaths_run rpaths file st :
  ∃ st', fixRpaths rpaths file st = Ret tt st'
    ∧ execs (trace st') = execs (trace st) ++ (rpath_cmd (settings st) file <$> rpaths)
    ∧ settings st' = settings st
    ∧ rpaths_per_file st' = rpaths_per_file st
    ∧ deps st' = deps st ∧ deps_per_file st' = deps_per_file st
    ∧ deps_collected st' = deps_collected st.
Proof.
  revert st. induction rpaths as [|rpath rest IH]; intros st; simpl.
  - eexists. split; [done|]. by rewrite app_nil_r.
  - mrun.
    assert (∃ s1, (if nonzero (status (rpath_cmd (settings st) file rpath) st)
                   then cerr ("Error : An error occured while trying to fix dependencies of " +:+ file)
                   else ret tt) (ran (rpath_cmd (settings st) file rpath) st) = Ret tt s1
                  ∧ execs (trace s1) = execs (trace st) ++ [rpath_cmd (settings st) file rpath]
                  ∧ settings s1 = settings st ∧ rpaths_per_file s1 = rpaths_per_file st
                  ∧ deps s1 = deps st ∧ deps_per_file s1 = deps_per_file st
                  ∧ deps_collected s1 = deps_collected st)
      as (s1 & -> & He1 & Hs1 & Hr1 & Hd1 & Hp1 & Hc1).
    { destruct (nonzero _); mrun; eexists; (split; [done|]); simpl;
        rewrite ?execs_app; simpl; rewrite ?app_nil_r; done. }
    destruct (IH s1) as (st' & -> & He & Hs & Hr & Hd & Hp & Hc).
    exists st'. split; [done|]. rewrite He, He1, Hs1, <- app_assoc.
    split_and!; [done|congruence..].
Qed.

(** X22.  [fixRpathsOnFile] is never fatal: it returns whatever the commands
    answer, having run one [install_name_tool -rpath] for each rpath
    recorded for the original file, in order.  A file without recorded
    rpaths gets no entry in [rpaths_per_file] by being asked for. *)
Theorem fixRpathsOnFile_always_returns (original_file file_to_fix : string) st :
  ∃ st', fixRpathsOnFile original_file file_to_fix st = Ret tt st'
    ∧ execs (trace st')
      = execs (trace st)
        ++ (rpath_cmd (settings st) file_to_fix
              <$> default [] (rpaths_per_file st !! original_file))
    ∧ rpaths_per_file st' = rpaths_per_file st
    ∧ settings st' = settings st.
Proof.
  unfold fixRpathsOnFile. mrun.
  destruct (fixRpaths_run (default [] (rpaths_per_file st !! original_file)) file_to_fix st)
    as (st' & Hrun & He & Hs & Hr & _).
  exists st'. by split_and!.
Qed.

(** ** The expansion over a finite graph *)

Lemma answering_ret {A} (a : A) : answering (World:=World) (ret a).
Proof. intros st. by rewrite run_ret. Qed.

Lemma answering_gets {A} (f : State World → A) : answering (World:=World) (gets f).
Proof. intros st. by rewrite run_gets. Qed.

Lemma answering_modify (f : State World → State World) :
  (∀ st, stdin (f st) = stdin st) → answering (modify f).
Proof. intros Hf st. rewrite run_modify. by rewrite Hf. Qed.

Lemma answering_stop {A} r : r ≠ Hang → answering (World:=World) (stop (A:=A) r).
Proof. intros Hr st. rewrite run_stop. by destruct r. Qed.

Lemma answering_bind {A B} (m : M A) (k : A → M B) :
  answering (World:=World) m → (∀ a, answering (k a)) → answering (bind m k).
Proof.
  intros Hm Hk st. rewrite run_bind. specialize (Hm st).
  destruct (m st) as [a s1|r s1]; [|done]. specialize (Hk a s1).
  destruct (k a s1) as [b s2|[] s2]; auto.
  destruct Hk as [Hq He]. split; [|done]. intros Hin. by apply Hq, Hm.
Qed.

Create HintDb answering discriminated.

Ltac answering_step :=
  lazymatch goal with
  | |- answering (ret _) => apply answering_ret
  | |- answering (gets _) => apply answering_gets
  | |- answering (modify _) => apply answering_modify; by intros []
  | |- answering (stop _) => by apply answering_stop
  | |- answering (exit _) => by apply answering_stop
  | |- answering (bind _ _) => apply answering_bind; [|intros ?]
  | |- answering (when ?b _) => destruct b; simpl
  | |- answering (if ?b then _ else _) => destruct b
  | |- answering (match ?x with _ => _ end) => destruct x
  | |- answering _ => solve [eauto with answering]
  end.

Ltac answering_auto := repeat answering_step.

Lemma answering_cerr msg : answering (World:=World) (cerr msg).
Proof. unfold cerr. answering_step. Qed.
Hint Resolve answering_cerr : answering.

Lemma answering_fileExists f : answering (World:=World) (fileExists f).
Proof. unfold fileExists. answering_auto. Qed.
Hint Resolve answering_fileExists : answering.

Lemma answering_addSearchPath p : answering (World:=World) (addSearchPath p).
Proof. unfold addSearchPath. answering_step. Qed.
Hint Resolve answering_addSearchPath : answering.

Lemma answering_searchPathsForFile paths f : answering (World:=World) (searchPathsForFile paths f).
Proof. induction paths; simpl; answering_auto. Qed.
Hint Resolve answering_searchPathsForFile : answering.

Lemma promptForDir_answers input f :
  ∀ st, stdin st = input →
        match promptForDir input f st with
        | Ret _ st' => "quit" ∈ stdin st → "quit" ∈ stdin st'
        | Stop Hang st' => ("quit" ∉ stdin st) ∧ stdin st' = []
        | Stop _ _ => True
        end.
Proof.
  induction input as [|tok rest IH]; intros st Hin; simpl.
  - rewrite run_bind. destruct (fileExists f st) as [[] s1|r s1] eqn:He.
    + apply fileExists_Ret in He as ->. mrun. simpl. by rewrite Hin.
    + apply fileExists_Ret in He as ->. mrun. rewrite Hin. split; [|done].
      by intros ?%elem_of_nil.
    + pose proof (answering_fileExists f st) as Hf. by rewrite He in Hf.
  - mrun. unfold string_eqb. case_bool_decide as Htok; [by rewrite run_exit|].
    rewrite run_bind.
    destruct (fileExists _ (set_stdin rest st)) as [[] s1|r s1] eqn:He.
    + apply fileExists_Ret in He as ->. mrun. simpl. rewrite Hin.
      intros [?|?]%elem_of_cons; [congruence|done].
    + apply fileExists_Ret in He as ->. mrun.
      specialize (IH (warned (ensure_trailing_slash tok +:+ f +:+ " does not exist. Try again")
                        (set_stdin rest st)) eq_refl).
      destruct (promptForDir rest f _) as [dir s2|[] s2]; try done.
      * rewrite Hin. intros [?|?]%elem_of_cons; [congruence|by apply IH].
      * destruct IH as [Hq He2]. split; [|done]. rewrite Hin.
        intros [?|?]%elem_of_cons; [congruence|by apply Hq].
    + pose proof (answering_fileExists (ensure_trailing_slash tok +:+ f) (set_stdin rest st)) as Hf.
      rewrite He in Hf. destruct r; try done. destruct Hf as [Hq He2]. split; [|done].
      rewrite Hin. intros [?|?]%elem_of_cons; [congruence|by apply Hq].
Qed.

Lemma answering_getUserInputDirForFile f : answering (World:=World) (getUserInputDirForFile f).
Proof.
  unfold getUserInputDirForFile.
  apply answering_bind; [answering_auto|intros paths].
  apply answering_bind; [answering_auto|intros [p|]]; [answering_auto|].
  intros st. rewrite run_bind, run_gets. by apply promptForDir_answers.
Qed.
Hint Resolve answering_getUserInputDirForFile : answering.

Lemma answering_addSearchPathItems items : answering (World:=World) (addSearchPathItems items).
Proof. induction items; simpl; answering_auto. Qed.
Hint Resolve answering_addSearchPathItems : answering.

Lemma answering_initSearchPaths : answering initSearchPaths.
Proof. unfold initSearchPaths. answering_auto. Qed.
Hint Resolve answering_initSearchPaths : answering.

Lemma answering_check_path r d p : answering (World:=World) (check_path r d p).
Proof. unfold check_path. answering_auto. Qed.
Hint Resolve answering_check_path : answering.

Lemma answering_check_rpaths r d sfx rpaths : answering (World:=World) (check_rpaths r d sfx rpaths).
Proof. induction rpaths; simpl; answering_auto. Qed.
Hint Resolve answering_check_rpaths : answering.

Lemma answering_firstSearchPathWith paths sfx : answering (World:=World) (firstSearchPathWith paths sfx).
Proof. induction paths; simpl; answering_auto. Qed.
Hint Resolve answering_firstSearchPathWith : answering.

Lemma answering_rpaths_of key : answering (World:=World) (rpaths_of key).
Proof. unfold rpaths_of. answering_auto. Qed.
Hint Resolve answering_rpaths_of : answering.

Lemma answering_deps_of key : answering (World:=World) (deps_of key).
Proof. unfold deps_of. answering_auto. Qed.
Hint Resolve answering_deps_of : answering.

Lemma answering_searchFilenameInRpaths r d : answering (World:=World) (searchFilenameInRpaths r d).
Proof. unfold searchFilenameInRpaths. answering_auto. Qed.
Hint Resolve answering_searchFilenameInRpaths : answering.

Lemma answering_resolveOriginalFile p d : answering (World:=World) (resolveOriginalFile p d).
Proof. unfold resolveOriginalFile. answering_auto. Qed.
Hint Resolve answering_resolveOriginalFile : answering.

Lemma answering_findInSearchPaths paths f : answering (World:=World) (findInSearchPaths paths f).
Proof. induction paths; simpl; answering_auto. Qed.
Hint Resolve answering_findInSearchPaths : answering.

Lemma answering_locationUnknown p f : answering (World:=World) (locationUnknown p f).
Proof. unfold locationUnknown. answering_auto. Qed.
Hint Resolve answering_locationUnknown : answering.

Lemma answering_locateDependency p o : answering (World:=World) (locateDependency p o).
Proof. unfold locateDependency. answering_auto. Qed.
Hint Resolve answering_locateDependency : answering.

Lemma answering_Dependency_ctor p f : answering (World:=World) (Dependency_ctor p f).
Proof. unfold Dependency_ctor. answering_auto. Qed.
Hint Resolve answering_Dependency_ctor : answering.

Lemma answering_registerDependency d f : answering (World:=World) (registerDependency d f).
Proof. unfold registerDependency. answering_auto. Qed.
Hint Resolve answering_registerDependency : answering.

Lemma answering_addDependency p f : answering (World:=World) (addDependency p f).
Proof. unfold addDependency. answering_auto. Qed.
Hint Resolve answering_addDependency : answering.

Lemma answering_collectLine f line : answering (World:=World) (collectLine f line).
Proof. unfold collectLine. answering_auto. Qed.
Hint Resolve answering_collectLine : answering.

Lemma answering_collectLines f lines : answering (World:=World) (collectLines f lines).
Proof. induction lines; simpl; answering_auto. Qed.
Hint Resolve answering_collectLines : answering.

Lemma answering_scanRpaths_bounded file n :
  ∀ lc_lines read_rpath, length lc_lines ≤ n →
    answering (World:=World) (scanRpaths file lc_lines read_rpath).
Proof.
  induction n as [|n IH]; intros [|line rest] read_rpath Hlen; simpl in *;
    try lia; answering_auto; try (apply IH; simpl in *; lia).
Qed.

Lemma answering_scanRpaths file lc_lines read_rpath :
  answering (World:=World) (scanRpaths file lc_lines read_rpath).
Proof. by apply (answering_scanRpaths_bounded file (length lc_lines)). Qed.
Hint Resolve answering_scanRpaths : answering.

Lemma answering_system_get_output cmd : answering (World:=World) (system_get_output cmd).
Proof. unfold system_get_output. answering_auto. Qed.
Hint Resolve answering_system_get_output : answering.

Lemma answering_collectRpaths f : answering (World:=World) (collectRpaths f).
Proof. unfold collectRpaths. answering_auto. Qed.
Hint Resolve answering_collectRpaths : answering.

Lemma answering_scanLoadCommands raw b lines : answering (World:=World) (scanLoadCommands raw b lines).
Proof.
  revert b lines. induction raw as [|line rest IH]; intros b lines; simpl; answering_auto.
Qed.
Hint Resolve answering_scanLoadCommands : answering.

Lemma answering_collectDependencies_lines f : answering (World:=World) (collectDependencies_lines f).
Proof. unfold collectDependencies_lines. answering_auto. Qed.
Hint Resolve answering_collectDependencies_lines : answering.

Lemma answering_collectDependencies f : answering (World:=World) (collectDependencies f).
Proof. unfold collectDependencies. answering_auto. Qed.
Hint Resolve answering_collectDependencies : answering.

Lemma answering_collectSubDependency n : answering (World:=World) (collectSubDependency n).
Proof. unfold collectSubDependency. answering_auto. Qed.
Hint Resolve answering_collectSubDependency : answering.

Lemma answering_collectSubDependencies_pass count n :
  answering (World:=World) (collectSubDependencies_pass count n).
Proof. revert n. induction count; intros n; simpl; answering_auto. Qed.
Hint Resolve answering_collectSubDependencies_pass : answering.

Lemma collectSubDependencies_answers fuel st :
  match collectSubDependencies fuel st with
  | Ret _ st' => "quit" ∈ stdin st → "quit" ∈ stdin st'
  | Stop Hang st' => ("quit" ∉ stdin st) ∧ stdin st' = []
  | Stop _ _ => True
  end.
Proof.
  revert st. induction fuel as [|fuel IH]; intros st; [done|].
  rewrite collectSubDependencies_S.
  pose proof (answering_collectSubDependencies_pass (length (deps st)) 0 st) as Hpass.
  destruct (collectSubDependencies_pass _ _ st) as [[] s1|r s1]; [|done].
  case_bool_decide; [done|]. specialize (IH s1).
  destruct (collectSubDependencies fuel s1) as [[] s2|[] s2]; auto.
  destruct IH as [Hq He]. split; [|done]. intros Hin. by apply Hq, Hpass.
Qed.

Lemma collectSubDependencies_pass_expands count :
  ∀ n st st', collectSubDependencies_pass count n st = Ret tt st' → rtc expands st st'.
Proof.
  induction count as [|count IH]; intros n st st'; simpl.
  - rewrite run_ret. by intros [= <-].
  - rewrite run_bind. destruct (collectSubDependency n st) as [[] s1|] eqn:Hn; [|done].
    intros Hrest. eapply rtc_l; [by apply (expands_at n)|by eapply IH].
Qed.

Lemma inspecting_size st st' :
  inspecting st st' → length (deps st') ≠ length (deps st) →
  size (deps_collected st) < size (deps_collected st').
Proof.
  intros ((_ & _ & _ & _ & _ & Hmono) & _ & _ & Hgrow) Hlen.
  destruct (Hgrow Hlen) as (f & Hnone & Hsome).
  rewrite <- !size_dom. apply subset_size. split.
  - intros g. rewrite !elem_of_dom. apply Hmono.
  - intros Hsub. specialize (Hsub f). rewrite !elem_of_dom, Hnone in Hsub.
    destruct Hsub as [? ?]; done.
Qed.

Section Graph.
Variable U : gset string.

Lemma graph_within_size st : graph_within U st → size (deps_collected st) ≤ size U.
Proof. intros HU. rewrite <- size_dom. by apply subseteq_size, HU. Qed.

Lemma collectSubDependencies_graph_fuel fuel :
  ∀ st, graph_within U st → size U - size (deps_collected st) < fuel →
        ∀ st', collectSubDependencies fuel st ≠ Stop OutOfFuel st'.
Proof.
  induction fuel as [|fuel IH]; intros st HU Hfuel st'; [lia|].
  rewrite collectSubDependencies_S.
  pose proof (spec_collectSubDependencies_pass (length (deps st)) 0 st) as Hpass.
  destruct (collectSubDependencies_pass _ _ st) as [[] s1|r s1] eqn:Hrun.
  - destruct Hpass as [Hpass _].
    case_bool_decide as Hlen; [done|].
    apply collectSubDependencies_pass_expands in Hrun.
    assert (graph_within U s1) as HU1 by (intros s2 H2; apply HU; by etrans).
    pose proof (inspecting_size _ _ Hpass Hlen). pose proof (graph_within_size _ HU1).
    apply IH; [done|lia].
  - intros [= -> _]. done.
Qed.

Lemma collectSubDependencies_last_pass fuel :
  ∀ st st', collectSubDependencies fuel st = Ret tt st' →
    ∃ s, rtc expands st s
         ∧ collectSubDependencies_pass (length (deps s)) 0 s = Ret tt st'
         ∧ length (deps st') = length (deps s).
Proof.
  induction fuel as [|fuel IH]; intros st st'; [done|].
  rewrite collectSubDependencies_S.
  destruct (collectSubDependencies_pass _ _ st) as [[] s1|r s1] eqn:Hrun; [|done].
  case_bool_decide as Hlen.
  - intros [= <-]. by exists st.
  - intros Hrest. destruct (IH _ _ Hrest) as (s & Hs & Hlast). exists s. split; [|done].
    etrans; [|done]. by eapply collectSubDependencies_pass_expands.
Qed.

(** With the files [otool] can be run on in [U], the expansion stays in
    [U]. *)
Lemma within_U_graph st : within_U U st → graph_within U st.
Proof.
  intros HU st' Hrun. revert HU. induction Hrun as [|s1 s2 s3 Hstep _ IH]; [by intros [_ ?]|].
  intros HU. apply IH. destruct Hstep as [n s1 s2 Hn].
  destruct (spec_Ret _ _ _ _ _ _ (spec_collectSubDependency n) Hn) as [Hi _].
  by destruct (inspecting_within_U U _ _ HU Hi).
Qed.

(** C5, as amended.  Let [U] be a finite set that holds every file the
    turns of the [for] loop of [collectSubDependencies] can come to inspect
    from [st].  Then [size U + 1] turns of the [while] loop are enough: at
    most [size U] turns add a dependency, each with a file inspected that
    was not before, and the turn after them adds none; when a file has been
    inspected already, [size U] turns are enough.  More fuel does not
    change the outcome.  The call returns, exits or is aborted, or else it
    is caught in the prompt loop of [getUserInputDirForFile] with the input
    exhausted; with [quit] left in the input it is never caught.  When it
    returns, its last turn has added no dependency.  A file that is in
    [deps_collected] is not inspected again. *)
Theorem collectSubDependencies_turns_bounded st :
  (∀ st', rtc expands st st' → dom (deps_collected st') ⊆ U) →
  let run := collectSubDependencies (S (size U)) st in
  (∀ st', run ≠ Stop OutOfFuel st')
  ∧ (∀ fuel, size U < fuel → collectSubDependencies fuel st = run)
  ∧ (ends run ∨ ∃ st', run = Stop Hang st' ∧ stdin st' = [] ∧ "quit" ∉ stdin st)
  ∧ ("quit" ∈ stdin st → ends run)
  ∧ (∀ st', run = Ret tt st' →
       ∃ s, rtc expands st s
            ∧ collectSubDependencies_pass (length (deps s)) 0 s = Ret tt st'
            ∧ length (deps st') = length (deps s))
  ∧ (∀ s s', rtc expands st s →
       collectSubDependencies_pass (length (deps s)) 0 s = Ret tt s' →
       length (deps s') ≠ length (deps s) →
       size (deps_collected s) < size (deps_collected s') ≤ size U)
  ∧ (deps_collected st ≠ ∅ → collectSubDependencies (size U) st = run)
  ∧ (∀ f, is_Some (deps_collected st !! f) → collectDependencies f st = Ret tt st).
Proof.
  intros HU run.
  assert (∀ st', run ≠ Stop OutOfFuel st') as Hfuel
    by (apply collectSubDependencies_graph_fuel; [done|lia]).
  pose proof (collectSubDependencies_answers (S (size U)) st) as Hans. fold run in Hans.
  split_and!; [done| | | | | | |].
  - intros fuel Hle. replace fuel with (S (size U) + (fuel - S (size U))) by lia.
    by apply collectSubDependencies_more_fuel.
  - destruct run as [[] s1|[] s1]; simpl; auto.
    + right. exists s1. by destruct Hans.
    + by destruct (Hfuel s1).
  - intros Hq. destruct run as [[] s1|[] s1]; simpl; auto.
    + by destruct Hans.
    + by destruct (Hfuel s1).
  - apply collectSubDependencies_last_pass.
  - intros s s' Hs Hpass Hlen. split.
    + eapply inspecting_size; [|done].
      by destruct (spec_Ret _ _ _ _ _ _ (spec_collectSubDependencies_pass _ _) Hpass).
    + apply graph_within_size. intros s2 H2. apply HU.
      etrans; [done|]. etrans; [by eapply collectSubDependencies_pass_expands|done].
  - intros Hne. unfold run. replace (S (size U)) with (size U + 1) by lia.
    symmetry. apply collectSubDependencies_more_fuel.
    apply collectSubDependencies_graph_fuel; [done|].
    pose proof (graph_within_size st HU).
    assert (size (deps_collected st) ≠ 0); [|lia].
    by intros ?%map_size_empty_iff.
  - intros f [b Hf]. unfold collectDependencies. by rewrite run_bind, run_gets, Hf.
Qed.

End Graph.

(** *** What the work after the resolution keeps *)

Lemma index_grown_refl (m : gmap string (list Dependency)) : index_grown m m.
Proof. intros g ds Hg. exists []. by rewrite app_nil_r. Qed.

Lemma index_grown_touch f (m : gmap string (list Dependency)) :
  index_grown m (touch f [] m).
Proof.
  intros g ds Hg. exists []. rewrite app_nil_r. unfold touch.
  destruct (m !! f) eqn:Hf; [done|]. rewrite lookup_insert_ne; [done|]. congruence.
Qed.

Lemma index_grown_at_key f d (m m' : gmap string (list Dependency)) :
  index_grown m m' → d ∈ at_key f [] m → d ∈ at_key f [] m'.
Proof.
  intros Hg. unfold at_key. destruct (m !! f) as [ds|] eqn:Hf; simpl;
    [|by intros ?%elem_of_nil].
  destruct (Hg f ds Hf) as [more ->]. simpl. intros Hd. apply elem_of_app. by left.
Qed.

#[local] Instance rewriting_preorder : PreOrder (@rewriting World).
Proof.
  split.
  - intros st. split_and!; try done; [apply grown_refl|apply index_grown_refl].
  - intros st1 st2 st3 (Hm1 & Hf1 & Hi1 & Hd1 & Hg1 & Hx1 & He1 & Hs1)
      (Hm2 & Hf2 & Hi2 & Hd2 & Hg2 & Hx2 & He2 & Hs2).
    split_and!; [auto|congruence..|by eapply grown_trans| |by etrans|].
    + intros g ds Hg. destruct (Hx1 g ds Hg) as (m1 & Hm1').
      destruct (Hx2 g _ Hm1') as (m2 & Hm2'). exists (m1 ++ m2). by rewrite app_assoc.
    + intros f Hc. destruct (Hs1 f Hc) as [Hc2 Heq1]. destruct (Hs2 f Hc2) as [Hc3 Heq2].
      split; [done|congruence].
Qed.

(** A step that changes the machine and the trace only. *)
Lemma rewriting_outside st st' :
  set_trace (trace st) (set_world (world st) st') = st →
  execs (trace st) `prefix_of` execs (trace st') → rewriting st st'.
Proof.
  intros Hsame Hpre.
  assert (settings st' = settings st) as Hs by (by apply (f_equal settings) in Hsame).
  assert (missing_prefixes st' = missing_prefixes st) as Hm
    by (by apply (f_equal missing_prefixes) in Hsame).
  assert (deps st' = deps st) as Hd by (by apply (f_equal deps) in Hsame).
  assert (deps_per_file st' = deps_per_file st) as Hx
    by (by apply (f_equal deps_per_file) in Hsame).
  assert (deps_collected st' = deps_collected st) as Hc
    by (by apply (f_equal deps_collected) in Hsame).
  unfold rewriting. rewrite Hs, Hm, Hd, Hx, Hc.
  split_and!; try done; [apply grown_refl|apply index_grown_refl].
Qed.

Lemma rewriting_cerr msg : spec (@rewriting World) any (cerr msg).
Proof.
  intros st. rewrite run_cerr. split; [|done]. apply rewriting_outside; [by destruct st|].
  unfold warned. simpl. rewrite execs_app. simpl. by rewrite app_nil_r.
Qed.
Hint Resolve rewriting_cerr : spec.

Lemma rewriting_systemp cmd : spec (@rewriting World) any (systemp cmd).
Proof.
  intros st. rewrite run_systemp. split; [|done]. apply rewriting_outside; [by destruct st|].
  simpl. rewrite execs_app. by apply prefix_app_r.
Qed.
Hint Resolve rewriting_systemp : spec.

Lemma rewriting_set_world w : spec (@rewriting World) any (modify (set_world w)).
Proof.
  intros st. rewrite run_modify. split; [|done]. apply rewriting_outside; [by destruct st|done].
Qed.
Hint Resolve rewriting_set_world : spec.

Lemma rewriting_fileExists f : spec (@rewriting World) any (fileExists f).
Proof.
  intros st. destruct (fileExists f st) as [b st'|r st'] eqn:Hrun.
  - by apply fileExists_Ret in Hrun as ->.
  - rewrite run_fileExists in Hrun. destruct (access_ok _ f); [done|].
    destruct (is_empty _); [|done]. by injection Hrun as <- _.
Qed.
Hint Resolve rewriting_fileExists : spec.

Lemma rewriting_deps_of f : spec (@rewriting World) any (deps_of f).
Proof.
  intros st. unfold deps_of. mrun. split; [|done]. unfold rewriting. simpl.
  split_and!; try done; [apply grown_refl|apply index_grown_touch|].
  intros g Hg. split; [done|]. unfold at_key, touch.
  destruct (deps_per_file st !! f) eqn:Hf; [done|].
  destruct (decide (g = f)) as [->|Hne]; [by rewrite lookup_insert_eq, Hf|].
  by rewrite lookup_insert_ne.
Qed.
Hint Resolve rewriting_deps_of : spec.

Lemma quiet_rewriting_settings st st' :
  quiet st st' →
  files (settings st') = files (settings st)
  ∧ inside_path_str (settings st') = inside_path_str (settings st)
  ∧ dest_folder_str (settings st') = dest_folder_str (settings st)
  ∧ execs (trace st) `prefix_of` execs (trace st').
Proof.
  intros (_ & He & Hs & _). split_and!.
  - by apply (f_equal files) in Hs.
  - by apply (f_equal inside_path_str) in Hs.
  - by apply (f_equal dest_folder_str) in Hs.
  - by rewrite He.
Qed.

(** The lines of a file handed to [addDependency] one after the other: the
    lists of the other files in the index are what they were. *)
Lemma collectLines_other file lines :
  ∀ st st', collectLines file lines st = Ret tt st' →
    ∀ g, g ≠ file → deps_per_file st' !! g = deps_per_file st !! g.
Proof.
  induction lines as [|line lines IH]; intros st st'; simpl.
  - rewrite run_ret. by intros [= <-].
  - rewrite run_bind, collectLine_passes_filters.
    destruct (passes_filters line) eqn:Hp; simpl; [|by apply IH].
    destruct (addDependency _ file st) as [[] s1|] eqn:Hadd; [|done]. intros Hrest g Hg.
    rewrite (IH _ _ Hrest g Hg).
    unfold addDependency in Hadd. rewrite run_bind in Hadd.
    destruct (Dependency_ctor _ file st) as [d s0|] eqn:Hc; [|done].
    destruct (spec_Ret _ _ _ _ _ _ (Dependency_ctor_spec _ file) Hc)
      as [(_ & Hf0 & _) _].
    destruct (registerDependency_run d file s0)
      as (s1' & Hr & _ & _ & _ & _ & _ & _ & Hne & _).
    rewrite Hr in Hadd. injection Hadd as ->. by rewrite (Hne g Hg), Hf0.
Qed.

(** An inspection leaves the files inspected before, and their lists in
    the index, as they were. *)
Lemma collectDependencies_settled file st st' :
  collectDependencies file st = Ret tt st' →
  ∀ g, is_Some (deps_collected st !! g) →
       is_Some (deps_collected st' !! g)
       ∧ at_key g [] (deps_per_file st') = at_key g [] (deps_per_file st).
Proof.
  unfold collectDependencies. rewrite run_bind, run_gets.
  destruct (deps_collected st !! file) eqn:Hnew; [rewrite run_ret; by intros [= <-]|].
  rewrite run_bind.
  pose proof (frame_collectRpaths file st) as Hr.
  destruct (collectRpaths file st) as [[] s0|]; [|done].
  destruct Hr as [(_ & Hf0 & Hc0 & _) _]. rewrite run_bind.
  pose proof (frame_collectDependencies_lines file s0) as Hl.
  destruct (collectDependencies_lines file s0) as [lines s0'|]; [|done].
  destruct Hl as [(_ & Hf0' & Hc0' & _) _]. rewrite run_bind.
  pose proof (spec_collectLines file lines s0') as Hcl.
  destruct (collectLines file lines s0') as [[] s1|] eqn:Hrun; [|done].
  destruct Hcl as [(_ & Hc1 & _) _].
  rewrite run_modify. intros [= <-] g Hg. simpl.
  assert (g ≠ file) as Hne by (intros ->; rewrite Hnew in Hg; by destruct Hg).
  split.
  - rewrite lookup_insert_ne by done. by rewrite Hc1, Hc0', Hc0.
  - unfold at_key. by rewrite (collectLines_other _ _ _ _ Hrun g Hne), Hf0', Hf0.
Qed.

Lemma rewriting_collectDependencies f : spec (@rewriting World) any (collectDependencies f).
Proof.
  intros st. pose proof (spec_collectDependencies f st) as Hins.
  pose proof (growing_collectDependencies f st) as Hgrow.
  pose proof (quiet_collectDependencies f st) as Hq.
  destruct (collectDependencies f st) as [[] st'|] eqn:Hrun; [|done]. simpl in Hq.
  destruct Hins as [((_ & _ & _ & Hm & _) & _) _].
  destruct Hgrow as [(Hg & Hx & _) _].
  destruct (quiet_rewriting_settings _ _ Hq) as (? & ? & ? & ?).
  split; [|done]. split_and!; try done. exact (collectDependencies_settled _ _ _ Hrun).
Qed.
Hint Resolve rewriting_collectDependencies : spec.

Lemma rewriting_changeInstallName file old new :
  spec (@rewriting World) any (changeInstallName file old new).
Proof. unfold changeInstallName. spec_auto. Qed.
Hint Resolve rewriting_changeInstallName : spec.

Lemma rewriting_getInnerPath d : spec (@rewriting World) any (getInnerPath d).
Proof. unfold getInnerPath, inside_lib_path. spec_auto. Qed.
Hint Resolve rewriting_getInnerPath : spec.

Lemma rewriting_getInstallPath d : spec (@rewriting World) any (getInstallPath d).
Proof. unfold getInstallPath, destFolder. spec_auto. Qed.
Hint Resolve rewriting_getInstallPath : spec.

Lemma rewriting_changeInstallNames file olds d :
  spec (@rewriting World) any (changeInstallNames file olds (getInnerPath d)).
Proof. induction olds; simpl; spec_auto. Qed.
Hint Resolve rewriting_changeInstallNames : spec.

Lemma rewriting_fixFileThatDependsOnMe d file :
  spec (@rewriting World) any (fixFileThatDependsOnMe d file).
Proof. unfold fixFileThatDependsOnMe. spec_auto. Qed.
Hint Resolve rewriting_fixFileThatDependsOnMe : spec.

Lemma rewriting_fixAll ds file : spec (@rewriting World) any (fixAll ds file).
Proof. induction ds; simpl; spec_auto. Qed.
Hint Resolve rewriting_fixAll : spec.

Lemma rewriting_changeLibPathsOnFile file : spec (@rewriting World) any (changeLibPathsOnFile file).
Proof. unfold changeLibPathsOnFile. spec_auto. Qed.
Hint Resolve rewriting_changeLibPathsOnFile : spec.

Lemma rewriting_copyFile from to : spec (@rewriting World) any (copyFile from to).
Proof. unfold copyFile, canOverwriteFiles. spec_auto. Qed.
Hint Resolve rewriting_copyFile : spec.

Lemma rewriting_copyYourself d : spec (@rewriting World) any (copyYourself d).
Proof. unfold copyYourself. spec_auto. Qed.
Hint Resolve rewriting_copyYourself : spec.

Lemma rewriting_createDestDir : spec (@rewriting World) any createDestDir.
Proof.
  unfold createDestDir, destFolder, canOverwriteDir, canCreateDir. spec_auto.
Qed.
Hint Resolve rewriting_createDestDir : spec.

Lemma rewriting_fixRpaths rpaths file : spec (@rewriting World) any (fixRpaths rpaths file).
Proof. induction rpaths; simpl; spec_auto. Qed.
Hint Resolve rewriting_fixRpaths : spec.

Lemma rewriting_fixRpathsOnFile orig file : spec (@rewriting World) any (fixRpathsOnFile orig file).
Proof. unfold fixRpathsOnFile. spec_auto. Qed.
Hint Resolve rewriting_fixRpathsOnFile : spec.

Lemma elem_of_concat_2 {A} (x : A) l (ls : list (list A)) :
  x ∈ l → l ∈ ls → x ∈ concat ls.
Proof.
  intros Hx. induction 1 as [l ls|l l' ls _ IH]; rewrite concat_cons, elem_of_app; auto.
Qed.

Lemma execs_Exec (l : list string) : execs (Exec <$> l) = l.
Proof.
  induction l as [|c l IH]; [done|]. simpl. f_equal. exact IH.
Qed.

(** The rewrite of a reference by the bare file name of [d] in [file]. *)
Lemma rewrite_cmd_bare s d file :
  rewrite_cmd s d file (filename d)
  = "install_name_tool -change " +:+ quoted (filename d) +:+ " "
    +:+ quoted (inside_path_str s +:+ new_name d) +:+ " " +:+ quoted file.
Proof. reflexivity. Qed.

(** With the flag set, [changeLibPathsOnFile] has run the rewrite keyed on
    the bare file name for every dependency that the index listed for the
    file. *)
Lemma changeLibPathsOnFile_bare file st st' :
  changeLibPathsOnFile file st = Ret tt st' →
  missing_prefixes st = true →
  is_Some (deps_collected st' !! file)
  ∧ ∀ d, d ∈ at_key file [] (deps_per_file st') →
         rewrite_cmd (settings st) d file (filename d) ∈ execs (trace st').
Proof.
  unfold changeLibPathsOnFile. rewrite run_bind, run_gets, run_bind.
  set (m := match deps_collected st !! file with
            | Some _ => ret tt
            | None => collectDependencies file
            end).
  assert (spec (@rewriting World) any m) as Hm by (unfold m; spec_auto).
  destruct (m st) as [[] s1|] eqn:Hfirst; [|done].
  assert (is_Some (deps_collected s1 !! file)) as Hcol.
  { unfold m in Hfirst. destruct (deps_collected st !! file) eqn:Hc.
    - rewrite run_ret in Hfirst. injection Hfirst as <-. by rewrite Hc.
    - by eapply collectDependencies_marks. }
  destruct (spec_Ret _ _ _ _ _ _ Hm Hfirst) as [(Hmiss & _ & Hin & _) _].
  unfold deps_of. mrun. cbn [deps_per_file set_deps_per_file]. rewrite at_key_touch.
  set (s2 := set_deps_per_file _ s1). intros Hrun Hset.
  destruct (spec_Ret _ _ _ _ _ _ (rewriting_fixAll _ file) Hrun)
    as [(_ & _ & _ & _ & _ & _ & _ & Hkept) _].
  destruct (Hkept file Hcol) as [Hcol' Hlist]. split; [done|].
  rewrite Hlist. unfold s2. cbn [deps_per_file set_deps_per_file]. rewrite at_key_touch.
  intros d Hd. rewrite fixAll_attempt in Hrun. apply attempt_Ret in Hrun as (_ & _ & ->).
  rewrite execs_app, execs_Exec. apply elem_of_app. right.
  eapply elem_of_concat_2; [|apply list_elem_of_fmap; exists d; split; [reflexivity|done]].
  unfold s2. cbn [settings missing_prefixes set_deps_per_file]. rewrite (Hmiss Hset).
  apply list_elem_of_fmap. exists (filename d).
  split; [unfold rewrite_cmd; by rewrite Hin|].
  apply elem_of_app. right. apply list_elem_of_here.
Qed.

Section Bundling.
Context `{TempDir World}.

Lemma adhocCodeSign_disabled file st :
  codesign (settings st) = false → adhocCodeSign file st = Ret tt st.
Proof. intros Hcs. unfold adhocCodeSign, canCodesign. mrun. by rewrite Hcs. Qed.

Lemma fixing_adhocCodeSign f file : always (fixing f) (adhocCodeSign file).
Proof. intros st Hcs. rewrite adhocCodeSign_disabled by done. by apply fixing_preorder. Qed.
Hint Resolve fixing_adhocCodeSign : always.

Lemma fixing_files_processFile n : always fixing_files (processFile n).
Proof.
  intros st. unfold processFile. rewrite run_bind, run_gets.
  destruct (files (settings st) !! n) as [f|] eqn:Hf; [|by apply fixing_files_preorder].
  assert (always (fixing f)
            (copyFile f f;; changeLibPathsOnFile f;; fixRpathsOnFile f f;; adhocCodeSign f))
    as Hrun by always_auto.
  intros Hcs. destruct (Hrun st Hcs) as (Hcs' & Hfs & Hin & cmds & He & Hcmds).
  split_and!; [done..|]. exists cmds. split; [done|].
  eapply Forall_impl; [exact Hcmds|]. intros cmd Hcmd. exists f. split; [|done].
  by eapply list_elem_of_lookup_2.
Qed.
Hint Resolve fixing_files_processFile : always.

Lemma fixing_files_processFiles n : always fixing_files (processFiles n).
Proof. induction n; simpl; always_auto. Qed.
Hint Resolve fixing_files_processFiles : always.

(** X23.  Without [-b] and with [-ns], every command line that
    [doneWithDeps_go] hands to [systemp], however the run ends, is one of
    three for a file [f] among the files to fix: the [chmod +w] on [f], an
    [install_name_tool -change] on [f], or an [install_name_tool -rpath]
    to the inner path on [f]; none begins with [cp], [mv], [rm], [mkdir]
    or [codesign].  The names stand between double quotes as they are:
    what the shell makes of a name that holds a double quote is not part of
    the statement. *)
Theorem fixing_files_changes_them_in_place st :
  bundleLibs_bool (settings st) = false →
  codesign (settings st) = false →
  ∃ cmds, execs (trace (final_state (doneWithDeps_go st))) = execs (trace st) ++ cmds
    ∧ Forall (λ cmd, ∃ f, f ∈ files (settings st)
                ∧ (cmd = "chmod +w " +:+ quoted f
                   ∨ (∃ old new,
                        cmd = "install_name_tool -change " +:+ quoted old +:+ " "
                              +:+ quoted new +:+ " " +:+ quoted f)
                   ∨ (∃ rpath,
                        cmd = "install_name_tool -rpath " +:+ quoted rpath +:+ " "
                              +:+ quoted (inside_path_str (settings st)) +:+ " "
                              +:+ quoted f))) cmds.
Proof.
  intros Hb Hcs. unfold doneWithDeps_go, bundleLibs. mrun. rewrite Hb. mrun.
  by destruct (fixing_files_processFiles (length (files (settings st))) st Hcs)
    as (_ & _ & _ & ?).
Qed.

Lemma runCommand_lenient command errMsg st :
  ∃ st', runCommand false command errMsg st = Ret tt st'
         ∧ execs (trace st') = execs (trace st) ++ [command].
Proof.
  unfold runCommand. mrun. destruct (nonzero _); mrun;
    eexists; (split; [done|]); simpl; rewrite ?execs_app; simpl;
    by rewrite ?app_nil_r.
Qed.

(** X24.  [adhocCodeSign] does nothing when signing is disabled, and runs
    one command when the signature succeeds at once.  When it fails on a
    machine that is not ARM, with [TMPDIR] set and the temporary directory
    made, the workaround is carried out to its end whatever its commands
    answer: the file is copied out, moved back and signed again, and the
    function returns. *)
Theorem adhocCodeSign_workaround_is_best_effort (file tmp tmpDir : string) st :
  let sign := codesign_cmd file in
  let tmpFile := tmpDir +:+ "/" +:+ stripPrefix file in
  (codesign (settings st) = false → adhocCodeSign file st = Ret tt st)
  ∧ (codesign (settings st) = true → nonzero (status sign st) = false →
     adhocCodeSign file st = Ret tt (ran sign st))
  ∧ (codesign (settings st) = true → nonzero (status sign st) = true →
     contains "arm" (popen_output (world (ran sign st)) "machine") = false →
     getenv (world (ran sign st)) "TMPDIR" = Some tmp →
     fst (mkdtemp (world (ran sign st)) (tmp +:+ "dylibbundler.XXXXXXXX")) = Some tmpDir →
     ∃ st', adhocCodeSign file st = Ret tt st'
       ∧ execs (trace st')
         = execs (trace st)
           ++ [sign;
               "cp -p " +:+ quoted file +:+ " " +:+ quoted tmpFile;
               "mv -f " +:+ quoted tmpFile +:+ " " +:+ quoted file;
               "rm -rf " +:+ quoted tmpDir;
               sign]).
Proof.
  intros sign tmpFile. split_and!.
  - apply adhocCodeSign_disabled.
  - intros Hcs Hok. unfold adhocCodeSign, canCodesign. mrun. rewrite Hcs. simpl. mrun.
    fold sign. by rewrite Hok.
  - intros Hcs Hfail Harm Htmp Hdir. unfold adhocCodeSign, canCodesign, system_get_output.
    mrun. rewrite Hcs. simpl. mrun. fold sign. rewrite Hfail. mrun. simpl.
    unfold ran in Harm, Htmp, Hdir. simpl in Harm, Htmp, Hdir.
    rewrite Harm, Htmp. mrun. simpl. rewrite Hdir.
    fold (stripPrefix file). fold tmpFile. mrun.
    match goal with |- context [runCommand false ?c ?m ?s] =>
      destruct (runCommand_lenient c m s) as (s1 & -> & He1) end.
    mrun.
    match goal with |- context [runCommand false ?c ?m ?s] =>
      destruct (runCommand_lenient c m s) as (s2 & -> & He2) end.
    mrun.
    match goal with |- context [runCommand false ?c ?m ?s] =>
      destruct (runCommand_lenient c m s) as (s3 & -> & He3) end.
    exists s3. split; [done|]. rewrite He3. simpl. rewrite execs_app, He2, He1. simpl.
    rewrite !execs_app. simpl. by rewrite app_nil_r, <- !app_assoc.
Qed.

Lemma rewriting_runCommand isArm command errMsg :
  spec (@rewriting World) any (runCommand isArm command errMsg).
Proof. unfold runCommand. spec_auto. Qed.
Hint Resolve rewriting_runCommand : spec.

Lemma rewriting_adhocCodeSign file : spec (@rewriting World) any (adhocCodeSign file).
Proof.
  unfold adhocCodeSign, canCodesign, system_get_output. spec_auto;
    intros st; (apply rewriting_outside; [by destruct st|done]).
Qed.
Hint Resolve rewriting_adhocCodeSign : spec.

Lemma rewriting_dependencyAt n : spec (@rewriting World) any (dependencyAt n).
Proof. unfold dependencyAt. spec_auto. Qed.
Hint Resolve rewriting_dependencyAt : spec.

Lemma rewriting_processDependency n : spec (@rewriting World) any (processDependency n).
Proof. unfold processDependency. spec_auto. Qed.
Hint Resolve rewriting_processDependency : spec.

Lemma rewriting_processDependencies n : spec (@rewriting World) any (processDependencies n).
Proof. induction n; simpl; spec_auto. Qed.
Hint Resolve rewriting_processDependencies : spec.

Lemma rewriting_processFile n : spec (@rewriting World) any (processFile n).
Proof. unfold processFile. spec_auto. Qed.
Hint Resolve rewriting_processFile : spec.

Lemma rewriting_processFiles n : spec (@rewriting World) any (processFiles n).
Proof. induction n; simpl; spec_auto. Qed.
Hint Resolve rewriting_processFiles : spec.

Lemma rewriting_doneWithDeps_go : spec (@rewriting World) any doneWithDeps_go.
Proof. unfold doneWithDeps_go, bundleLibs. spec_auto. Qed.

(** A command that was run stays in the trace. *)
Lemma rewriting_execs st st' cmd :
  rewriting st st' → cmd ∈ execs (trace st) → cmd ∈ execs (trace st').
Proof.
  intros (_ & _ & _ & _ & _ & _ & [more ->] & _) Hcmd. apply elem_of_app. by left.
Qed.

(** What was run for the dependencies of an inspected file stays run, and
    the file keeps its list. *)
Lemma rewriting_bare st st' s (file : string) :
  rewriting st st' →
  is_Some (deps_collected st !! file)
  ∧ (∀ d, d ∈ at_key file [] (deps_per_file st) →
          rewrite_cmd s d file (filename d) ∈ execs (trace st')) →
  is_Some (deps_collected st' !! file)
  ∧ (∀ d, d ∈ at_key file [] (deps_per_file st') →
          rewrite_cmd s d file (filename d) ∈ execs (trace st')).
Proof.
  intros (_ & _ & _ & _ & _ & _ & _ & Hkept) [Hcol Hcmds].
  destruct (Hkept file Hcol) as [Hcol' ->]. by split.
Qed.

Lemma processFile_bare n f st st' :
  processFile n st = Ret tt st' →
  missing_prefixes st = true →
  files (settings st) !! n = Some f →
  is_Some (deps_collected st' !! f)
  ∧ ∀ d, d ∈ at_key f [] (deps_per_file st') →
         rewrite_cmd (settings st) d f (filename d) ∈ execs (trace st').
Proof.
  unfold processFile. rewrite run_bind, run_gets. intros Hrun Hset Hf. rewrite Hf in Hrun.
  rewrite run_bind in Hrun.
  destruct (copyFile f f st) as [[] s1|] eqn:Hcopy; [|done].
  destruct (spec_Ret _ _ _ _ _ _ (rewriting_copyFile f f) Hcopy)
    as [(Hm1 & _ & Hi1 & _) _].
  rewrite run_bind in Hrun.
  destruct (changeLibPathsOnFile f s1) as [[] s2|] eqn:Hchange; [|done].
  assert (spec (@rewriting World) any (fixRpathsOnFile f f;; adhocCodeSign f)) as Hrest by spec_auto.
  destruct (spec_Ret _ _ _ _ _ _ Hrest Hrun) as [Hrw _].
  apply (rewriting_bare s2 st' _ f Hrw).
  destruct (changeLibPathsOnFile_bare f s1 s2 Hchange (Hm1 Hset)) as [Hcol Hcmds].
  split; [done|]. intros d Hd. eapply rewriting_execs; [exact Hrw|].
  unfold rewrite_cmd. rewrite <- Hi1. by apply Hcmds.
Qed.

Lemma processFiles_bare n :
  ∀ st st', processFiles n st = Ret tt st' →
    missing_prefixes st = true →
    ∀ i f, i < n → files (settings st) !! i = Some f →
      is_Some (deps_collected st' !! f)
      ∧ ∀ d, d ∈ at_key f [] (deps_per_file st') →
             rewrite_cmd (settings st) d f (filename d) ∈ execs (trace st').
Proof.
  induction n as [|n IH]; intros st st' Hrun Hset i f Hi Hf; [lia|].
  simpl in Hrun. rewrite run_bind in Hrun.
  destruct (processFile n st) as [[] s1|] eqn:Hone; [|done].
  destruct (spec_Ret _ _ _ _ _ _ (rewriting_processFile n) Hone)
    as [(Hm1 & Hf1 & Hi1 & _) _].
  destruct (decide (i = n)) as [->|Hne].
  - destruct (spec_Ret _ _ _ _ _ _ (rewriting_processFiles n) Hrun) as [Hrw _].
    apply (rewriting_bare s1 st' _ f Hrw).
    destruct (processFile_bare n f st s1 Hone Hset Hf) as [Hcol Hcmds].
    split; [done|]. intros d Hd. eapply rewriting_execs; [exact Hrw|]. by apply Hcmds.
  - unfold rewrite_cmd. rewrite <- Hi1.
    apply (IH s1 st' Hrun (Hm1 Hset) i f); [lia|by rewrite Hf1].
Qed.

Lemma processDependency_bare n e st st' :
  processDependency n st = Ret tt st' →
  missing_prefixes st = true →
  deps st !! n = Some e →
  is_Some (deps_collected st' !! (dest_folder_str (settings st) +:+ new_name e))
  ∧ ∀ d, d ∈ at_key (dest_folder_str (settings st) +:+ new_name e) [] (deps_per_file st') →
         rewrite_cmd (settings st) d (dest_folder_str (settings st) +:+ new_name e)
           (filename d)
         ∈ execs (trace st').
Proof.
  unfold processDependency. intros Hrun Hset He.
  set (install := dest_folder_str (settings st) +:+ new_name e).
  rewrite run_bind in Hrun. unfold dependencyAt at 1 in Hrun.
  rewrite run_bind, run_gets, He, run_ret in Hrun. rewrite run_bind in Hrun.
  destruct (copyYourself e st) as [[] s1|] eqn:Hcopy; [|done].
  destruct (spec_Ret _ _ _ _ _ _ (rewriting_copyYourself e) Hcopy)
    as [(Hm1 & _ & Hi1 & Hd1 & Hg1 & _) _].
  destruct (grown_lookup _ _ _ _ Hg1 He) as (e1 & He1 & _ & _ & Hn1 & _).
  rewrite run_bind in Hrun. unfold dependencyAt at 1 in Hrun.
  rewrite run_bind, run_gets, He1, run_ret in Hrun.
  unfold getInstallPath at 1, destFolder in Hrun.
  rewrite run_bind, run_bind, run_gets, run_ret, Hd1, Hn1 in Hrun. fold install in Hrun.
  rewrite run_bind in Hrun.
  destruct (changeLibPathsOnFile install s1) as [[] s2|] eqn:Hchange; [|done].
  match type of Hrun with ?m s2 = _ =>
    assert (spec (@rewriting World) any m) as Hrest by spec_auto end.
  destruct (spec_Ret _ _ _ _ _ _ Hrest Hrun) as [Hrw _].
  apply (rewriting_bare s2 st' _ install Hrw).
  destruct (changeLibPathsOnFile_bare install s1 s2 Hchange (Hm1 Hset)) as [Hcol Hcmds].
  split; [done|]. intros d Hd. eapply rewriting_execs; [exact Hrw|].
  unfold rewrite_cmd. rewrite <- Hi1. by apply Hcmds.
Qed.

Lemma processDependencies_bare n :
  ∀ st st', processDependencies n st = Ret tt st' →
    missing_prefixes st = true →
    ∀ i e, i < n → deps st !! i = Some e →
      is_Some (deps_collected st' !! (dest_folder_str (settings st) +:+ new_name e))
      ∧ ∀ d, d ∈ at_key (dest_folder_str (settings st) +:+ new_name e) []
                   (deps_per_file st') →
             rewrite_cmd (settings st) d (dest_folder_str (settings st) +:+ new_name e)
               (filename d)
             ∈ execs (trace st').
Proof.
  induction n as [|n IH]; intros st st' Hrun Hset i e Hi He; [lia|].
  set (install := dest_folder_str (settings st) +:+ new_name e).
  simpl in Hrun. rewrite run_bind in Hrun.
  destruct (processDependency n st) as [[] s1|] eqn:Hone; [|done].
  destruct (spec_Ret _ _ _ _ _ _ (rewriting_processDependency n) Hone)
    as [(Hm1 & _ & Hi1 & Hd1 & Hg1 & _) _].
  destruct (decide (i = n)) as [->|Hne].
  - destruct (spec_Ret _ _ _ _ _ _ (rewriting_processDependencies n) Hrun) as [Hrw _].
    apply (rewriting_bare s1 st' _ install Hrw).
    destruct (processDependency_bare n e st s1 Hone Hset He) as [Hcol Hcmds].
    split; [done|]. intros d Hd. eapply rewriting_execs; [exact Hrw|]. by apply Hcmds.
  - destruct (grown_lookup _ _ _ _ Hg1 He) as (e1 & He1 & _ & _ & Hn1 & _).
    unfold rewrite_cmd, install. rewrite <- Hi1, <- Hd1, <- Hn1.
    apply (IH s1 st' Hrun (Hm1 Hset) i e1); [lia|done].
Qed.

(** C9.  Once [missing_prefixes] is set, [fixFileThatDependsOnMe], for any
    dependency and any file, rewrites in this order: the original path,
    every symlink, the bare file name, every symlink again; the command
    for the bare file name is [install_name_tool -change] from the file
    name alone to the inner path.  Nothing that follows resets the flag:
    when [doneWithDeps_go] returns the flag is still set, and for every
    file to fix, and with [-b] for every installed library, the rewrite
    keyed on the bare file name has been run for every dependency that the
    index lists for that file, before or after.  No inspection resets the
    flag either. *)
Theorem missing_prefixes_adds_bare_name_rewrites st :
  missing_prefixes st = true →
  let bare d (file : string) :=
    "install_name_tool -change " +:+ quoted (filename d) +:+ " "
    +:+ quoted (inside_path_str (settings st) +:+ new_name d) +:+ " " +:+ quoted file in
  (∀ d (file : string),
      fixFileThatDependsOnMe d file st
      = attempt file
          (rewrite_cmd (settings st) d file <$>
             (getOriginalPath d :: symlinks d) ++ (filename d :: symlinks d))
          st
      ∧ rewrite_cmd (settings st) d file (filename d) = bare d file)
  ∧ (∀ st', doneWithDeps_go st = Ret tt st' →
       missing_prefixes st' = true
       ∧ (∀ f d, f ∈ files (settings st) →
                 d ∈ at_key f [] (deps_per_file st) ∨ d ∈ at_key f [] (deps_per_file st') →
                 bare d f ∈ execs (trace st'))
       ∧ (bundleLibs_bool (settings st) = true →
          ∀ e d, e ∈ deps st →
                 let install := dest_folder_str (settings st) +:+ new_name e in
                 d ∈ at_key install [] (deps_per_file st)
                 ∨ d ∈ at_key install [] (deps_per_file st') →
                 bare d install ∈ execs (trace st')))
  ∧ (∀ st', rtc inspects st st' → missing_prefixes st' = true).
Proof.
  intros Hset bare. split_and!.
  - intros d file. by rewrite fixFileThatDependsOnMe_attempt, Hset.
  - intros st' Hrun.
    destruct (spec_Ret _ _ _ _ _ _ rewriting_doneWithDeps_go Hrun)
      as [(_ & _ & _ & _ & _ & Hgrown & _) _].
    unfold doneWithDeps_go, bundleLibs in Hrun.
    rewrite run_bind, run_gets, run_bind, run_gets, run_bind in Hrun.
    set (m := if bundleLibs_bool (settings st)
              then createDestDir;; processDependencies (length (deps st))
              else ret tt) in Hrun.
    assert (spec (@rewriting World) any m) as Hm by (unfold m; spec_auto).
    destruct (m st) as [[] s0|] eqn:Hbundle; [|done].
    destruct (spec_Ret _ _ _ _ _ _ Hm Hbundle) as [(Hm0 & Hf0 & Hi0 & _) _].
    rewrite run_bind, run_gets in Hrun.
    destruct (spec_Ret _ _ _ _ _ _ (rewriting_processFiles _) Hrun)
      as [Hrw _].
    split_and!.
    + destruct Hrw as (Hm1 & _). auto.
    + intros f d [i Hi]%list_elem_of_lookup Hd.
      assert (d ∈ at_key f [] (deps_per_file st')) as Hd'
        by (destruct Hd; [by eapply index_grown_at_key|done]).
      change (bare d f) with (rewrite_cmd (settings st) d f (filename d)).
      unfold rewrite_cmd. rewrite <- Hi0.
      apply (processFiles_bare _ s0 st' Hrun (Hm0 Hset) i f); [|by rewrite Hf0|done].
      rewrite Hf0. by eapply lookup_lt_Some.
    + intros Hb e d [i Hi]%list_elem_of_lookup install Hd.
      assert (d ∈ at_key install [] (deps_per_file st')) as Hd'
        by (destruct Hd; [by eapply index_grown_at_key|done]).
      unfold m in Hbundle. rewrite Hb, run_bind in Hbundle.
      destruct (createDestDir st) as [[] sc|] eqn:Hdir; [|done].
      destruct (spec_Ret _ _ _ _ _ _ rewriting_createDestDir Hdir)
        as [(Hmc & _ & Hic & Hdc & Hgc & _) _].
      destruct (grown_lookup _ _ _ _ Hgc Hi) as (ec & Hec & _ & _ & Hnc & _).
      change (bare d install) with (rewrite_cmd (settings st) d install (filename d)).
      assert (i < length (deps st)) as Hlt by (by eapply lookup_lt_Some).
      pose proof (processDependencies_bare _ sc s0 Hbundle (Hmc Hset) i ec Hlt Hec) as Hlib.
      simpl in Hlib. rewrite Hdc, Hnc in Hlib. fold install in Hlib.
      destruct (rewriting_bare s0 st' (settings sc) install Hrw) as [_ Hcmds].
      { destruct Hlib as [Hcol Hcmds]. split; [done|]. intros d0 Hd0.
        eapply rewriting_execs; [exact Hrw|]. by apply Hcmds. }
      unfold rewrite_cmd. rewrite <- Hic. by apply Hcmds.
  - intros st' Hrun.
    destruct (inspects_inspecting _ _ Hrun) as ((_ & _ & _ & Hkeep & _) & _). auto.
Qed.

End Bundling.

(** ** Two runs on machines that answer alike *)

Section Determinism.
Context `{TempDir World}.

Lemma same_answers_now w1 w2 : same_answers w1 w2 → answers_alike w1 w2.
Proof. intros Hw. apply (Hw []). Qed.

Lemma same_answers_system w1 w2 cmd :
  same_answers w1 w2 → same_answers (snd (system w1 cmd)) (snd (system w2 cmd)).
Proof. intros Hw acts. apply (Hw (Run cmd :: acts)). Qed.

Lemma same_answers_mkdtemp w1 w2 template :
  same_answers w1 w2 → same_answers (snd (mkdtemp w1 template)) (snd (mkdtemp w2 template)).
Proof. intros Hw acts. apply (Hw (MakeTemp template :: acts)). Qed.

Lemma alike_ret {A} (a : A) : alike (ret a) (ret a).
Proof. intros st1 st2 Hst. by rewrite !run_ret. Qed.

Lemma alike_stop {A} r : alike (stop (A:=A) r) (stop r).
Proof. intros st1 st2 Hst. by rewrite !run_stop. Qed.

Lemma alike_gets {A} (f : State World → A) :
  (∀ w st, f (set_world w st) = f st) → alike (gets f) (gets f).
Proof.
  intros Hf st1 st2 Hst. rewrite !run_gets. split; [|done].
  destruct Hst as [<- _]. by rewrite Hf.
Qed.

Lemma alike_modify (f : State World → State World) :
  (∀ w st, f (set_world w st) = set_world w (f st)) →
  (∀ st, world (f st) = world st) →
  alike (modify f) (modify f).
Proof.
  intros Hf Hw st1 st2 [Heq Hans]. rewrite !run_modify. split; [done|]. split.
  - rewrite Hw, <- Hf. by rewrite Heq.
  - by rewrite !Hw.
Qed.

Lemma alike_bind {A B} (m1 m2 : M A) (k1 k2 : A → M B) :
  alike m1 m2 → (∀ a, alike (k1 a) (k2 a)) → alike (bind m1 k1) (bind m2 k2).
Proof.
  intros Hm Hk st1 st2 Hst. rewrite !run_bind. specialize (Hm st1 st2 Hst).
  destruct (m1 st1) as [a1 s1|r1 s1], (m2 st2) as [a2 s2|r2 s2]; try done.
  destruct Hm as [<- Hs]. by apply Hk.
Qed.

Lemma alike_world {A} (k1 k2 : World → M A) :
  (∀ w1 w2, same_answers w1 w2 → alike (k1 w1) (k2 w2)) →
  alike (bind (gets world) k1) (bind (gets world) k2).
Proof.
  intros Hk st1 st2 Hst. rewrite !run_bind, !run_gets. apply Hk; [|done]. by destruct Hst.
Qed.

Create HintDb alike discriminated.

Ltac agree_rewrite :=
  repeat match goal with
         | H : ∀ p, _ = _ |- _ => progress rewrite H
         end.

Ltac alike_step :=
  agree_rewrite;
  lazymatch goal with
  | |- alike (ret _) (ret _) => apply alike_ret
  | |- alike (gets _) (gets _) => apply alike_gets; by intros ? []
  | |- alike (modify _) (modify _) => apply alike_modify; [by intros ? []|by intros []]
  | |- alike (stop _) (stop _) => apply alike_stop
  | |- alike (exit _) (exit _) => apply alike_stop
  | |- alike (bind (gets world) _) (bind (gets world) _) =>
      let Hw := fresh "Hw" in
      apply alike_world; intros ? ? Hw;
      destruct (same_answers_now _ _ Hw) as (? & ? & ? & ? & ? & ?); cbv zeta
  | |- alike (bind _ _) (bind _ _) => apply alike_bind; [|intros ?]
  | |- alike (when ?b _) (when ?b _) => destruct b; simpl
  | |- alike (if ?b then _ else _) (if ?b then _ else _) => destruct b
  | |- alike (match ?x with _ => _ end) (match ?x with _ => _ end) => destruct x
  | |- alike _ _ => solve [eauto with alike]
  end.

Ltac alike_auto := repeat alike_step.

Lemma alike_cerr msg : alike (cerr msg) (cerr msg).
Proof. unfold cerr. alike_auto. Qed.
Hint Resolve alike_cerr : alike.

Lemma alike_systemp cmd : alike (systemp cmd) (systemp cmd).
Proof.
  intros st1 st2 [Heq Hw]. rewrite !run_systemp. unfold status, ran. split.
  - apply same_answers_now in Hw as (_ & _ & _ & _ & Hs & _). apply Hs.
  - split; [|by apply same_answers_system]. rewrite <- Heq. by destruct st2.
Qed.
Hint Resolve alike_systemp : alike.

Lemma alike_system_get_output cmd : alike (system_get_output cmd) (system_get_output cmd).
Proof.
  intros st1 st2 [Heq Hw]. unfold system_get_output. rewrite !run_gets. split; [|done].
  apply same_answers_now in Hw as (_ & _ & Hp & _). apply Hp.
Qed.
Hint Resolve alike_system_get_output : alike.

Lemma alike_fileExists f : alike (fileExists f) (fileExists f).
Proof. unfold fileExists. alike_auto. Qed.
Hint Resolve alike_fileExists : alike.

Lemma alike_canOverwriteFiles : alike (canOverwriteFiles) (canOverwriteFiles).
Proof. unfold canOverwriteFiles. alike_auto. Qed.
Hint Resolve alike_canOverwriteFiles : alike.

Lemma alike_canOverwriteDir : alike (canOverwriteDir) (canOverwriteDir).
Proof. unfold canOverwriteDir. alike_auto. Qed.
Hint Resolve alike_canOverwriteDir : alike.

Lemma alike_canCreateDir : alike (canCreateDir) (canCreateDir).
Proof. unfold canCreateDir. alike_auto. Qed.
Hint Resolve alike_canCreateDir : alike.

Lemma alike_canCodesign : alike (canCodesign) (canCodesign).
Proof. unfold canCodesign. alike_auto. Qed.
Hint Resolve alike_canCodesign : alike.

Lemma alike_bundleLibs : alike (bundleLibs) (bundleLibs).
Proof. unfold bundleLibs. alike_auto. Qed.
Hint Resolve alike_bundleLibs : alike.

Lemma alike_destFolder : alike (destFolder) (destFolder).
Proof. unfold destFolder. alike_auto. Qed.
Hint Resolve alike_destFolder : alike.

Lemma alike_inside_lib_path : alike (inside_lib_path) (inside_lib_path).
Proof. unfold inside_lib_path. alike_auto. Qed.
Hint Resolve alike_inside_lib_path : alike.

Lemma alike_addSearchPath p : alike (addSearchPath p) (addSearchPath p).
Proof. unfold addSearchPath. alike_auto. Qed.
Hint Resolve alike_addSearchPath : alike.

Lemma alike_changeInstallName f old new :
  alike (changeInstallName f old new) (changeInstallName f old new).
Proof. unfold changeInstallName. alike_auto. Qed.
Hint Resolve alike_changeInstallName : alike.

Lemma alike_copyFile from to : alike (copyFile from to) (copyFile from to).
Proof. unfold copyFile. alike_auto. Qed.
Hint Resolve alike_copyFile : alike.

Lemma alike_searchPathsForFile paths f :
  alike (searchPathsForFile paths f) (searchPathsForFile paths f).
Proof. induction paths; simpl; alike_auto. Qed.
Hint Resolve alike_searchPathsForFile : alike.

Lemma alike_promptForDir input f : alike (promptForDir input f) (promptForDir input f).
Proof. induction input; simpl; alike_auto. Qed.
Hint Resolve alike_promptForDir : alike.

Lemma alike_getUserInputDirForFile f :
  alike (getUserInputDirForFile f) (getUserInputDirForFile f).
Proof. unfold getUserInputDirForFile. alike_auto. Qed.
Hint Resolve alike_getUserInputDirForFile : alike.

Lemma alike_getInstallPath d : alike (getInstallPath d) (getInstallPath d).
Proof. unfold getInstallPath. alike_auto. Qed.
Hint Resolve alike_getInstallPath : alike.

Lemma alike_getInnerPath d : alike (getInnerPath d) (getInnerPath d).
Proof. unfold getInnerPath. alike_auto. Qed.
Hint Resolve alike_getInnerPath : alike.

Lemma alike_addSearchPathItems items :
  alike (addSearchPathItems items) (addSearchPathItems items).
Proof. induction items; simpl; alike_auto. Qed.
Hint Resolve alike_addSearchPathItems : alike.

Lemma alike_initSearchPaths : alike (initSearchPaths) (initSearchPaths).
Proof. unfold initSearchPaths. alike_auto. Qed.
Hint Resolve alike_initSearchPaths : alike.

Lemma alike_check_path r d p : alike (check_path r d p) (check_path r d p).
Proof. unfold check_path. alike_auto. Qed.
Hint Resolve alike_check_path : alike.

Lemma alike_check_rpaths r d sfx rpaths :
  alike (check_rpaths r d sfx rpaths) (check_rpaths r d sfx rpaths).
Proof. induction rpaths; simpl; alike_auto. Qed.
Hint Resolve alike_check_rpaths : alike.

Lemma alike_firstSearchPathWith paths sfx :
  alike (firstSearchPathWith paths sfx) (firstSearchPathWith paths sfx).
Proof. induction paths; simpl; alike_auto. Qed.
Hint Resolve alike_firstSearchPathWith : alike.

Lemma alike_rpaths_of key : alike (rpaths_of key) (rpaths_of key).
Proof. unfold rpaths_of. alike_auto. Qed.
Hint Resolve alike_rpaths_of : alike.

Lemma alike_deps_of key : alike (deps_of key) (deps_of key).
Proof. unfold deps_of. alike_auto. Qed.
Hint Resolve alike_deps_of : alike.

Lemma alike_searchFilenameInRpaths r d :
  alike (searchFilenameInRpaths r d) (searchFilenameInRpaths r d).
Proof. unfold searchFilenameInRpaths. alike_auto. Qed.
Hint Resolve alike_searchFilenameInRpaths : alike.

Lemma alike_resolveOriginalFile p d :
  alike (resolveOriginalFile p d) (resolveOriginalFile p d).
Proof. unfold resolveOriginalFile. alike_auto. Qed.
Hint Resolve alike_resolveOriginalFile : alike.

Lemma alike_findInSearchPaths paths f :
  alike (findInSearchPaths paths f) (findInSearchPaths paths f).
Proof. induction paths; simpl; alike_auto. Qed.
Hint Resolve alike_findInSearchPaths : alike.

Lemma alike_locationUnknown p f : alike (locationUnknown p f) (locationUnknown p f).
Proof. unfold locationUnknown. alike_auto. Qed.
Hint Resolve alike_locationUnknown : alike.

Lemma alike_locateDependency p o : alike (locateDependency p o) (locateDependency p o).
Proof. unfold locateDependency. alike_auto. Qed.
Hint Resolve alike_locateDependency : alike.

Lemma alike_Dependency_ctor p f : alike (Dependency_ctor p f) (Dependency_ctor p f).
Proof. unfold Dependency_ctor. alike_auto. Qed.
Hint Resolve alike_Dependency_ctor : alike.

Lemma alike_copyYourself d : alike (copyYourself d) (copyYourself d).
Proof. unfold copyYourself. alike_auto. Qed.
Hint Resolve alike_copyYourself : alike.

Lemma alike_changeInstallNames f olds (inner : M string) :
  alike inner inner → alike (changeInstallNames f olds inner) (changeInstallNames f olds inner).
Proof. intros Hinner. induction olds; simpl; alike_auto. Qed.
Hint Resolve alike_changeInstallNames : alike.

Lemma alike_fixFileThatDependsOnMe d f :
  alike (fixFileThatDependsOnMe d f) (fixFileThatDependsOnMe d f).
Proof. unfold fixFileThatDependsOnMe. alike_auto. Qed.
Hint Resolve alike_fixFileThatDependsOnMe : alike.

Lemma alike_scanRpaths_bounded file n :
  ∀ lc_lines read_rpath, length lc_lines ≤ n →
    alike (scanRpaths file lc_lines read_rpath) (scanRpaths file lc_lines read_rpath).
Proof.
  induction n as [|n IH]; intros [|line rest] read_rpath Hlen; simpl in *;
    try lia; alike_auto; try (apply IH; simpl in *; lia).
Qed.

Lemma alike_scanRpaths file lc_lines read_rpath :
  alike (scanRpaths file lc_lines read_rpath) (scanRpaths file lc_lines read_rpath).
Proof. by apply (alike_scanRpaths_bounded file (length lc_lines)). Qed.
Hint Resolve alike_scanRpaths : alike.

Lemma alike_collectRpaths f : alike (collectRpaths f) (collectRpaths f).
Proof. unfold collectRpaths. alike_auto. Qed.
Hint Resolve alike_collectRpaths : alike.

Lemma alike_scanLoadCommands raw b lines :
  alike (scanLoadCommands raw b lines) (scanLoadCommands raw b lines).
Proof. revert b lines. induction raw; intros b lines; simpl; alike_auto. Qed.
Hint Resolve alike_scanLoadCommands : alike.

Lemma alike_collectDependencies_lines f :
  alike (collectDependencies_lines f) (collectDependencies_lines f).
Proof. unfold collectDependencies_lines. alike_auto. Qed.
Hint Resolve alike_collectDependencies_lines : alike.

Lemma alike_registerDependency d f : alike (registerDependency d f) (registerDependency d f).
Proof. unfold registerDependency. alike_auto. Qed.
Hint Resolve alike_registerDependency : alike.

Lemma alike_addDependency p f : alike (addDependency p f) (addDependency p f).
Proof. unfold addDependency. alike_auto. Qed.
Hint Resolve alike_addDependency : alike.

Lemma alike_collectLine f line : alike (collectLine f line) (collectLine f line).
Proof. unfold collectLine. alike_auto. Qed.
Hint Resolve alike_collectLine : alike.

Lemma alike_collectLines f lines : alike (collectLines f lines) (collectLines f lines).
Proof. induction lines; simpl; alike_auto. Qed.
Hint Resolve alike_collectLines : alike.

Lemma alike_collectDependencies f : alike (collectDependencies f) (collectDependencies f).
Proof. unfold collectDependencies. alike_auto. Qed.
Hint Resolve alike_collectDependencies : alike.

Lemma alike_collectSubDependency n : alike (collectSubDependency n) (collectSubDependency n).
Proof. unfold collectSubDependency. alike_auto. Qed.
Hint Resolve alike_collectSubDependency : alike.

Lemma alike_collectSubDependencies_pass count n :
  alike (collectSubDependencies_pass count n) (collectSubDependencies_pass count n).
Proof. revert n. induction count; intros n; simpl; alike_auto. Qed.
Hint Resolve alike_collectSubDependencies_pass : alike.

Lemma alike_collectSubDependencies fuel :
  alike (collectSubDependencies fuel) (collectSubDependencies fuel).
Proof. induction fuel; simpl; alike_auto. Qed.
Hint Resolve alike_collectSubDependencies : alike.

Lemma alike_createDestDir : alike (createDestDir) (createDestDir).
Proof. unfold createDestDir. alike_auto. Qed.
Hint Resolve alike_createDestDir : alike.

Lemma alike_fixAll ds f : alike (fixAll ds f) (fixAll ds f).
Proof. induction ds; simpl; alike_auto. Qed.
Hint Resolve alike_fixAll : alike.

Lemma alike_changeLibPathsOnFile f : alike (changeLibPathsOnFile f) (changeLibPathsOnFile f).
Proof. unfold changeLibPathsOnFile. alike_auto. Qed.
Hint Resolve alike_changeLibPathsOnFile : alike.

Lemma alike_collectFilesToFix fs : alike (collectFilesToFix fs) (collectFilesToFix fs).
Proof. induction fs; simpl; alike_auto. Qed.
Hint Resolve alike_collectFilesToFix : alike.

Lemma alike_resolve fuel : alike (resolve fuel) (resolve fuel).
Proof. unfold resolve. alike_auto. Qed.
Hint Resolve alike_resolve : alike.

Lemma alike_fixRpaths rpaths f : alike (fixRpaths rpaths f) (fixRpaths rpaths f).
Proof. induction rpaths; simpl; alike_auto. Qed.
Hint Resolve alike_fixRpaths : alike.

Lemma alike_fixRpathsOnFile o f : alike (fixRpathsOnFile o f) (fixRpathsOnFile o f).
Proof. unfold fixRpathsOnFile. alike_auto. Qed.
Hint Resolve alike_fixRpathsOnFile : alike.

Lemma alike_runCommand isArm command errMsg :
  alike (runCommand isArm command errMsg) (runCommand isArm command errMsg).
Proof. unfold runCommand. alike_auto. Qed.
Hint Resolve alike_runCommand : alike.

Lemma alike_set_world w1 w2 :
  same_answers w1 w2 → alike (modify (set_world w1)) (modify (set_world w2)).
Proof.
  intros Hw st1 st2 [Heq _]. rewrite !run_modify. split; [done|]. split; [|done].
  rewrite <- Heq. by destruct st2.
Qed.

Lemma alike_adhocCodeSign file : alike (adhocCodeSign file) (adhocCodeSign file).
Proof.
  unfold adhocCodeSign. alike_auto. by apply alike_set_world, same_answers_mkdtemp.
Qed.
Hint Resolve alike_adhocCodeSign : alike.

Lemma alike_dependencyAt n : alike (dependencyAt n) (dependencyAt n).
Proof. unfold dependencyAt. alike_auto. Qed.
Hint Resolve alike_dependencyAt : alike.

Lemma alike_processDependency n : alike (processDependency n) (processDependency n).
Proof. unfold processDependency. alike_auto. Qed.
Hint Resolve alike_processDependency : alike.

Lemma alike_processDependencies n : alike (processDependencies n) (processDependencies n).
Proof. induction n; simpl; alike_auto. Qed.
Hint Resolve alike_processDependencies : alike.

Lemma alike_processFile n : alike (processFile n) (processFile n).
Proof. unfold processFile. alike_auto. Qed.
Hint Resolve alike_processFile : alike.

Lemma alike_processFiles n : alike (processFiles n) (processFiles n).
Proof. induction n; simpl; alike_auto. Qed.
Hint Resolve alike_processFiles : alike.

Lemma alike_doneWithDeps_go : alike (doneWithDeps_go) (doneWithDeps_go).
Proof. unfold doneWithDeps_go. alike_auto. Qed.
Hint Resolve alike_doneWithDeps_go : alike.

Lemma alike_configure f : alike (configure f) (configure f).
Proof. unfold configure. alike_auto. Qed.
Hint Resolve alike_configure : alike.

Lemma alike_configure_checked f : alike (configure_checked f) (configure_checked f).
Proof. unfold configure_checked. alike_auto. Qed.
Hint Resolve alike_configure_checked : alike.

Lemma alike_parseArguments_bounded n :
  ∀ i argv, length argv ≤ n → alike (parseArguments i argv) (parseArguments i argv).
Proof.
  induction n as [|n IH]; intros i [|arg rest] Hlen; simpl in *;
    try lia; alike_auto; try (apply IH; simpl in *; lia).
Qed.

Lemma alike_parseArguments i argv : alike (parseArguments i argv) (parseArguments i argv).
Proof. by apply (alike_parseArguments_bounded (length argv)). Qed.
Hint Resolve alike_parseArguments : alike.

Lemma alike_main fuel argv : alike (main fuel argv) (main fuel argv).
Proof. unfold main. alike_auto. Qed.
Hint Resolve alike_main : alike.

Lemma same_outcome_final {A} (o1 o2 : @outcome World A) :
  same_outcome o1 o2 → set_world (world (final_state o1)) (final_state o2) = final_state o1.
Proof. destruct o1, o2; try done; by intros [_ [? _]]. Qed.


End Determinism.


(** ** The arguments of [main] *)

Lemma reconfigured_refl s : reconfigured s s.
Proof. by unfold reconfigured. Qed.

Lemma reconfigured_trans s1 s2 s3 :
  reconfigured s1 s2 → reconfigured s2 s3 → reconfigured s1 s3.
Proof.
  intros (?&?&?&?&?&?&?&?&?) (?&?&?&?&?&?&?&?&?). unfold reconfigured.
  split_and!; try (by etrans); auto.
Qed.

#[local] Instance configuring_preorder : PreOrder (@configuring World).
Proof.
  split.
  - intros st. split_and!; [by destruct st|done|apply reconfigured_refl].
  - intros st1 st2 st3 (H12 & He12 & Hc12) (H23 & He23 & Hc23).
    split_and!; [|congruence|by eapply reconfigured_trans].
    rewrite <- H12 at 3. rewrite <- H23. by destruct st3.
Qed.

Lemma configuring_configure f :
  (∀ s, reconfigured s (f s)) → always (@configuring World) (configure f).
Proof.
  intros Hf st. unfold configure. rewrite run_modify. simpl.
  split_and!; [by destruct st|done|apply Hf].
Qed.

Lemma configuring_configure_checked f :
  (∀ s s', f s = Some s' → reconfigured s s') →
  always (@configuring World) (configure_checked f).
Proof.
  intros Hf st. unfold configure_checked. rewrite run_bind, run_gets.
  destruct (f (settings st)) as [s'|] eqn:Hs.
  - rewrite run_modify. simpl. split_and!; [by destruct st|done|by apply Hf].
  - rewrite run_stop. simpl. apply configuring_preorder.
Qed.

Lemma configuring_addSearchPath p : always (@configuring World) (addSearchPath p).
Proof.
  intros st. unfold addSearchPath. rewrite run_modify. simpl.
  split_and!; [by destruct st|done|].
  unfold reconfigured, well_configured. simpl. split_and!; try done.
  by apply prefix_app_r.
Qed.

Lemma configuring_cerr msg : always (@configuring World) (cerr msg).
Proof.
  intros st. rewrite run_cerr. simpl. split_and!; [by destruct st| |apply reconfigured_refl].
  unfold warned. simpl. rewrite execs_app. simpl. by rewrite app_nil_r.
Qed.

Lemma reconfigured_addFileToFix v s : reconfigured s (addFileToFix v s).
Proof.
  unfold reconfigured, well_configured. simpl. split_and!; try done.
  by apply prefix_app_r.
Qed.

Lemma reconfigured_set_bundleLibs s : reconfigured s (set_bundleLibs true s).
Proof.
  unfold reconfigured, well_configured. simpl. split_and!; try done;
    intros (?&?&?&?); by split_and!.
Qed.

Lemma reconfigured_set_overwrite_files s : reconfigured s (set_overwrite_files true s).
Proof.
  unfold reconfigured, well_configured. simpl. split_and!; try done;
    intros (?&?&?&?); by split_and!.
Qed.

Lemma reconfigured_set_create_dir s : reconfigured s (set_create_dir true s).
Proof.
  unfold reconfigured, well_configured. simpl. split_and!; try done;
    intros (?&?&?&?); by split_and!.
Qed.

Lemma reconfigured_set_codesign s : reconfigured s (set_codesign false s).
Proof.
  unfold reconfigured, well_configured. simpl. split_and!; try done;
    intros (?&?&?&?); by split_and!.
Qed.

(** [-od] gives both permissions. *)
Lemma reconfigured_overwrite_dir s :
  reconfigured s (set_create_dir true (set_overwrite_dir true s)).
Proof.
  unfold reconfigured, well_configured. simpl. split_and!; try done;
    intros (?&?&?&?); by split_and!.
Qed.

Lemma reconfigured_set_inside_lib_path v s s' :
  set_inside_lib_path v s = Some s' → reconfigured s s'.
Proof.
  unfold set_inside_lib_path. destruct (last_char v) as [c|] eqn:Hc; [|done].
  intros [= <-]. unfold reconfigured, well_configured. simpl. split_and!; try done.
  intros (?&?&?&?). split_and!; try done. by apply ends_with_slash_fixed.
Qed.

Lemma reconfigured_set_destFolder v s s' :
  set_destFolder v s = Some s' → reconfigured s s'.
Proof.
  unfold set_destFolder. destruct (last_char v) as [c|] eqn:Hc; [|done].
  intros [= <-]. unfold reconfigured, well_configured. simpl. split_and!; try done.
  intros (?&?&?&?). split_and!; try done. by apply ends_with_slash_fixed.
Qed.

Lemma reconfigured_ignore_prefix v s s' :
  ignore_prefix v s = Some s' → reconfigured s s'.
Proof.
  unfold ignore_prefix. destruct (last_char v) as [c|] eqn:Hc; [|done].
  intros [= <-]. unfold reconfigured, well_configured. simpl.
  split_and!; try done; [|by apply prefix_app_r].
  intros (?&?&?&?). split_and!; try done. apply Forall_app. split; [done|].
  apply Forall_singleton. by apply ends_with_slash_fixed.
Qed.

Lemma configuring_overwrite_dir :
  always (@configuring World)
    (configure (set_overwrite_dir true);; configure (set_create_dir true)).
Proof.
  intros st. unfold configure. rewrite run_bind, !run_modify. simpl.
  split_and!; [by destruct st|done|apply reconfigured_overwrite_dir].
Qed.

Lemma always_seq {A B C} (R : relation (State World)) `{!Transitive R}
    (m1 : M A) (m2 : M B) (m3 : M C) :
  always R (m1;; m2) → always R m3 → always R (m1;; m2;; m3).
Proof.
  intros H12 H3 st. specialize (H12 st). rewrite run_bind in H12. rewrite run_bind.
  destruct (m1 st) as [a s1|]; [|exact H12]. rewrite run_bind.
  destruct (m2 s1) as [b s2|]; [|exact H12]. simpl in H12. etrans; [done|]. apply H3.
Qed.

Lemma configuring_parseArguments_bounded n :
  ∀ argv i, length argv ≤ n → always (@configuring World) (parseArguments i argv).
Proof.
  induction n as [|n IH]; intros [|arg rest] i Hlen; simpl in *; try lia;
    [apply always_ret; apply _..|].
  assert (∀ j, always (@configuring World) (parseArguments j rest)) as Hrest
    by (intros j; apply IH; lia).
  assert (∀ j (f : string → M unit),
            (∀ v, always (@configuring World) (f v)) →
            always (@configuring World)
              (match rest with
               | [] => stop Abort
               | value :: rest' => f value;; parseArguments j rest'
               end)) as Hvalue.
  { intros j f Hf. destruct rest as [|value rest']; [apply always_stop; apply _|].
    apply always_bind; [apply _|apply Hf|]. intros _. apply IH. simpl in Hlen. lia. }
  repeat match goal with
         | |- always _ (if ?b then _ else _) => destruct b
         end.
  - apply Hvalue. intros v. apply configuring_configure, reconfigured_addFileToFix.
  - apply always_bind; [apply _|apply configuring_configure, reconfigured_set_bundleLibs|done].
  - apply Hvalue. intros v. apply configuring_configure_checked, reconfigured_set_inside_lib_path.
  - apply Hvalue. intros v. apply configuring_configure_checked, reconfigured_ignore_prefix.
  - apply Hvalue. intros v. apply configuring_configure_checked, reconfigured_set_destFolder.
  - apply always_bind; [apply _|apply configuring_configure, reconfigured_set_overwrite_files|done].
  - apply always_seq; [apply _|apply configuring_overwrite_dir|done].
  - apply always_bind; [apply _|apply configuring_configure, reconfigured_set_create_dir|done].
  - apply always_bind; [apply _|apply configuring_configure, reconfigured_set_codesign|done].
  - apply always_stop; apply _.
  - apply Hvalue. intros v. apply configuring_addSearchPath.
  - apply always_bind; [apply _|apply configuring_cerr|]. intros _. apply always_stop; apply _.
  - done.
Qed.

(** X25.  The reading of the arguments, however it ends, touches the
    settings and writes at most a diagnostic: no command is run, and the
    machine, the registry and the other globals are as before.  A
    permission that was given is not taken back, signing once disabled
    stays disabled, and the lists of files, search paths and ignored
    prefixes only get longer.  A well-formed configuration stays
    well-formed: with the permission to overwrite the destination goes the
    permission to create it, and the destination, the inner path and every
    ignored prefix end in a slash. *)
Theorem parseArguments_configures (i : nat) (argv : list string) st :
  let st' := final_state (parseArguments i argv st) in
  set_trace (trace st) (set_settings (settings st) st') = st
  ∧ execs (trace st') = execs (trace st)
  ∧ (well_configured (settings st) → well_configured (settings st'))
  ∧ (overwrite_files (settings st) = true → overwrite_files (settings st') = true)
  ∧ (overwrite_dir (settings st) = true → overwrite_dir (settings st') = true)
  ∧ (create_dir (settings st) = true → create_dir (settings st') = true)
  ∧ (bundleLibs_bool (settings st) = true → bundleLibs_bool (settings st') = true)
  ∧ (codesign (settings st) = false → codesign (settings st') = false)
  ∧ files (settings st) `prefix_of` files (settings st')
  ∧ searchPaths (settings st) `prefix_of` searchPaths (settings st')
  ∧ prefixes_to_ignore (settings st) `prefix_of` prefixes_to_ignore (settings st').
Proof.
  intros st'.
  destruct (configuring_parseArguments_bounded (length argv) argv i (le_n _) st)
    as (Hsame & Hexecs & Hconf).
  split; [done|]. split; [done|]. exact Hconf.
Qed.
#[local] Instance same_task_preorder : PreOrder (@same_task World).
Proof.
  split.
  - by intros st.
  - intros st1 st2 st3 [??] [??]. unfold same_task. split; congruence.
Qed.

Lemma same_task_configure f :
  (∀ s, files (f s) = files s ∧ bundleLibs_bool (f s) = bundleLibs_bool s) →
  spec (@same_task World) any (configure f).
Proof. intros Hf st. unfold configure. rewrite run_modify. split; [apply Hf|done]. Qed.

Lemma same_task_configure_checked f :
  (∀ s s', f s = Some s' → files s' = files s ∧ bundleLibs_bool s' = bundleLibs_bool s) →
  spec (@same_task World) any (configure_checked f).
Proof.
  intros Hf st. unfold configure_checked. rewrite run_bind, run_gets.
  destruct (f (settings st)) as [s'|] eqn:Hs; [|by rewrite run_stop].
  rewrite run_modify. split; [by apply Hf|done].
Qed.

Lemma same_task_parseArguments_bounded n :
  ∀ argv i, length argv ≤ n →
    Forall (λ arg, is_flag "-x" "--fix-file" arg = false
                   ∧ is_flag "-b" "--bundle-deps" arg = false) argv →
    spec (@same_task World) any (parseArguments i argv).
Proof.
  induction n as [|n IH]; intros [|arg rest] i Hlen Hplain; simpl in *; try lia;
    [by apply spec_ret; [apply _|]..|].
  apply Forall_cons in Hplain as [[-> ->] Hplain].
  assert (∀ j (f : string → M unit),
            (∀ v, spec (@same_task World) any (f v)) →
            spec (@same_task World) any
              (match rest with
               | [] => stop Abort
               | value :: rest' => f value;; parseArguments j rest'
               end)) as Hvalue.
  { intros j f Hf. destruct rest as [|value rest']; [by apply spec_stop|].
    apply spec_bind; [apply _|apply Hf|]. intros _.
    apply Forall_cons in Hplain as [_ Hplain]. apply IH; [simpl in Hlen; lia|done]. }
  assert (∀ j, spec (@same_task World) any (parseArguments j rest)) as Hrest
    by (intros j; apply IH; [lia|done]).
  repeat match goal with
         | |- spec _ _ (if ?b then _ else _) => destruct b
         end.
  - apply Hvalue. intros v. apply same_task_configure_checked. intros s s'.
    unfold set_inside_lib_path. destruct (last_char v); [|done]. by intros [= <-].
  - apply Hvalue. intros v. apply same_task_configure_checked. intros s s'.
    unfold ignore_prefix. destruct (last_char v); [|done]. by intros [= <-].
  - apply Hvalue. intros v. apply same_task_configure_checked. intros s s'.
    unfold set_destFolder. destruct (last_char v); [|done]. by intros [= <-].
  - apply spec_bind; [apply _|by apply same_task_configure|done].
  - apply spec_bind; [apply _|by apply same_task_configure|]. intros _.
    apply spec_bind; [apply _|by apply same_task_configure|done].
  - apply spec_bind; [apply _|by apply same_task_configure|done].
  - apply spec_bind; [apply _|by apply same_task_configure|done].
  - by apply spec_stop.
  - apply Hvalue. intros v st. unfold addSearchPath. by rewrite run_modify.
  - apply spec_bind; [apply _| |intros _; by apply spec_stop].
    intros st. by rewrite run_cerr.
  - done.
Qed.
Section Running.
Context `{TempDir World}.

(** X26.  Without a file to fix and without [-b] there is nothing to do:
    when the arguments name neither, [main] ends as soon as they are read,
    with status 0 unless their reading ended the run before.  No file has
    been inspected and no command run. *)
Theorem main_without_task_ends_at_once (fuel : nat) (argv : list string) st :
  bundleLibs_bool (settings st) = false →
  files (settings st) = [] →
  Forall (λ arg, is_flag "-x" "--fix-file" arg = false
                 ∧ is_flag "-b" "--bundle-deps" arg = false) argv →
  main fuel argv st
  = match parseArguments 0 argv st with
    | Ret _ st' => Stop (ExitCode 0) st'
    | Stop r st' => Stop r st'
    end
  ∧ execs (trace (final_state (main fuel argv st))) = execs (trace st)
  ∧ world (final_state (main fuel argv st)) = world st
  ∧ deps_collected (final_state (main fuel argv st)) = deps_collected st.
Proof.
  intros Hb Hfs Hplain.
  pose proof (same_task_parseArguments_bounded (length argv) argv 0 (le_n _) Hplain st) as Htask.
  destruct (configuring_parseArguments_bounded (length argv) argv 0 (le_n _) st)
    as (Hsame & Hexecs & _).
  assert (main fuel argv st
          = match parseArguments 0 argv st with
            | Ret _ st' => Stop (ExitCode 0) st'
            | Stop r st' => Stop r st'
            end) as Hmain.
  { unfold main, bundleLibs. rewrite run_bind.
    destruct (parseArguments 0 argv st) as [[] s1|]; [|done].
    destruct Htask as [[Hf1 Hb1] _]. mrun. by rewrite Hb1, Hb, Hf1, Hfs. }
  split; [done|]. rewrite Hmain.
  assert (final_state (match parseArguments 0 argv st with
                       | Ret _ st' => Stop (A:=Z) (ExitCode 0) st'
                       | Stop r st' => Stop r st'
                       end) = final_state (parseArguments 0 argv st)) as ->
    by (by destruct (parseArguments 0 argv st)).
  split; [done|]. rewrite <- Hsame at 2 4. done.
Qed.

End Running.

End Properties.

(** * The properties at work *)

Import Demo.

(** ** C1 *)

(** Two references outside the system directories that [realpath] resolves
    to the same system library: after [addDependency] has handled both,
    [deps] is empty. *)
Lemma same_system_library_twice_leaves_no_entry :
  getOriginalPath <$> returned (Dependency_ctor "/opt/lib/libz.dylib" "/bin/app" libz_start)
    = Some "/usr/lib/libz.1.dylib"
  ∧ addDependency "/opt/lib/libz.dylib" "/bin/app" libz_start = Ret tt libz_first
  ∧ getOriginalPath <$> returned (Dependency_ctor "/opt/compat/libz.dylib" "/bin/app" libz_first)
    = Some "/usr/lib/libz.1.dylib"
  ∧ addDependency "/opt/compat/libz.dylib" "/bin/app" libz_first = Ret tt libz_both
  ∧ deps libz_both = [].
Proof. split_and!; vm_compute; reflexivity. Qed.

Lemma addDependency_same_file_merges_witness :
  deps libfoo_both = [libfoo]
  ∧ deps libfoo_other_both
    = [mkDependency "libfoo.1.dylib" "/opt/lib/" ["/opt/lib/libfoo.dylib"] "libfoo.1.dylib"]
  ∧ Forall2 same_library (deps libfoo_both) (deps libfoo_other_both).
Proof.
  destruct (addDependency_same_file_merges app_start
              "/opt/lib/libfoo.dylib" "/bin/app" "/opt/lib/libfoo.1.dylib" "/bin/app"
              libfoo libfoo_plain)
    as (_ & _ & _ & Hsame & _).
  - vm_compute; reflexivity.
  - vm_compute; reflexivity.
  - vm_compute; reflexivity.
  - vm_compute; reflexivity.
  - reflexivity.
  - reflexivity.
  - split_and!; [vm_compute; reflexivity..|exact Hsame].
Defined.

(** ** C2 *)

(** The destination directory exists, it may neither be overwritten nor
    created: [createDestDir] returns, and nothing has happened. *)
Lemma createDestDir_keeps_existing_directory :
  fileExists (dest_folder_str (settings libs_start)) libs_start = Ret true libs_start
  ∧ overwrite_dir (settings libs_start) = false
  ∧ create_dir (settings libs_start) = false
  ∧ createDestDir libs_start = Ret tt libs_start.
Proof. split_and!; vm_compute; reflexivity. Qed.

Lemma createDestDir_by_cases_witness : createDestDir libs_start = Ret tt libs_start.
Proof.
  rewrite (createDestDir_by_cases libs_start true); [reflexivity|].
  vm_compute; reflexivity.
Defined.

(** ** C3 *)

Lemma system_and_framework_references_not_registered_witness :
  ("/usr/lib/libSystem.B.dylib" ∉ symlinks libfoo)
  ∧ getOriginalPath libfoo ≠ "/usr/lib/libSystem.B.dylib".
Proof.
  apply (proj2 (proj2 system_and_framework_references_not_registered)
           app_start app_inspected libfoo).
  - reflexivity.
  - apply rtc_once, (inspects_file "/bin/app"). vm_compute; reflexivity.
  - assert (deps app_inspected = [libfoo]) as -> by (vm_compute; reflexivity).
    apply list_elem_of_here.
Defined.

(** ** C4 *)

(** [/custom/ignored/] is ignored; the library in its subdirectory [sub]
    is registered all the same. *)
Lemma library_below_ignored_directory_is_registered :
  ignore_prefix "/custom/ignored" Demo.default_settings = Some (settings ignored_start)
  ∧ prefixes_to_ignore (settings ignored_start) = ["/custom/ignored/"]
  ∧ String.prefix "/custom/ignored/" "/custom/ignored/sub/libfoo.dylib" = true
  ∧ collectDependencies "/bin/app" ignored_start = Ret tt ignored_inspected
  ∧ deps ignored_inspected
    = [mkDependency "libfoo.dylib" "/custom/ignored/sub/" [] "libfoo.dylib"].
Proof. split_and!; vm_compute; reflexivity. Qed.

Lemma addDependency_ignored_prefix_witness :
  ∃ st', addDependency "/custom/ignored/libbar.dylib" "/bin/app" ignored_start = Ret tt st'
         ∧ length (deps st') = length (deps ignored_start).
Proof.
  destruct (addDependency_ignored_prefix ignored_start
              "/custom/ignored/libbar.dylib" "/bin/app" "/custom/ignored/"
              (mkDependency "libbar.dylib" "/custom/ignored/" [] EmptyString)
              ignored_start)
    as (st' & Hrun & _ & _ & Hlen & _).
  - vm_compute. apply list_elem_of_here.
  - vm_compute; reflexivity.
  - reflexivity.
  - exists st'. split; [exact Hrun|exact Hlen].
Defined.

(** ** C5 *)

Lemma length_app_str a b : String.length (a +:+ b) = String.length a + String.length b.
Proof. induction a as [|c a IH]; [done|]. rewrite app_cons_str. simpl. by rewrite IH. Qed.

Lemma app_str_inj_r a b c : a +:+ c = b +:+ c → a = b.
Proof.
  revert b. induction a as [|x a IH]; intros [|y b] Heq; [done| | |].
  - apply (f_equal String.length) in Heq.
    rewrite app_nil_str, app_cons_str, ?length_app_str in Heq. simpl in Heq.
    rewrite length_app_str in Heq. lia.
  - apply (f_equal String.length) in Heq.
    rewrite app_nil_str, app_cons_str in Heq. simpl in Heq.
    rewrite length_app_str in Heq. lia.
  - rewrite !app_cons_str in Heq. injection Heq as -> Heq. f_equal. by apply IH.
Qed.

Lemma otool_cmd_inj f g : otool_cmd f = otool_cmd g → f = g.
Proof.
  unfold otool_cmd, quoted. intros Heq%(inj (String.app _))%(inj (String.app _)).
  by apply app_str_inj_r in Heq.
Qed.

Lemma assoc_Some k l v : assoc k l = Some v → k ∈ l.*1.
Proof.
  induction l as [|[k' v'] l IH]; [done|]. simpl. unfold string_eqb.
  case_bool_decide as Hk; [subst; intros _; apply list_elem_of_here|].
  intros Hl. apply list_elem_of_further. auto.
Qed.

(** On a machine given by tables [otool] can be run on the files it has
    an answer for. *)
Lemma demo_inspectable (w : Machine) f : inspectable w f → otool_cmd f ∈ (m_output w).*1.
Proof.
  unfold inspectable.
  change (popen_output w (otool_cmd f))
    with (default EmptyString (assoc (otool_cmd f) (m_output w))).
  destruct (assoc (otool_cmd f) (m_output w)) as [out|] eqn:Hout;
    [|intros Hbad; vm_compute in Hbad; discriminate Hbad].
  intros _. by apply assoc_Some in Hout.
Qed.

Lemma cycle_machine_inspectable f : inspectable cycle_machine f → f ∈ cycle_files.
Proof.
  intros Hout%demo_inspectable. unfold cycle_files.
  change ((m_output cycle_machine).*1) with
    [otool_cmd "/bin/app"; otool_cmd "/opt/lib/liba.dylib"; otool_cmd "/opt/lib/libb.dylib"]
    in Hout.
  apply elem_of_cons in Hout as [Hf|Hout]; [apply otool_cmd_inj in Hf as ->; set_solver|].
  apply elem_of_cons in Hout as [Hf|Hout]; [apply otool_cmd_inj in Hf as ->; set_solver|].
  apply list_elem_of_singleton, otool_cmd_inj in Hout as ->. set_solver.
Qed.

(** The expansion stays within the three files of the cycle. *)
Lemma cycle_graph input st' :
  rtc expands (cycle_inspected input) st' → dom (deps_collected st') ⊆ cycle_files.
Proof.
  apply within_U_graph. split.
  - assert (world (cycle_inspected input) = cycle_machine) as -> by (vm_compute; reflexivity).
    exact cycle_machine_inspectable.
  - assert (deps_collected (cycle_inspected input) = {["/bin/app" := true]}) as ->
      by (vm_compute; reflexivity).
    rewrite dom_singleton_L. unfold cycle_files. set_solver.
Qed.

(** With no input left the expansion over the cycle does not come to an
    end: in its second turn it asks where [libc] is and is caught in the
    prompt loop, whatever the fuel. *)
Lemma expansion_caught_in_prompt_loop :
  (∀ st', rtc expands (cycle_inspected []) st' → dom (deps_collected st') ⊆ cycle_files)
  ∧ size cycle_files = 3
  ∧ stdin (cycle_inspected []) = []
  ∧ ∃ st', ∀ fuel, 2 ≤ fuel → collectSubDependencies fuel (cycle_inspected []) = Stop Hang st'.
Proof.
  split; [apply cycle_graph|]. split; [vm_compute; reflexivity|]. split; [reflexivity|].
  eexists. intros fuel Hfuel. replace fuel with (2 + (fuel - 2)) by lia.
  rewrite collectSubDependencies_more_fuel; [vm_compute; reflexivity|].
  intros st' Hrun. vm_compute in Hrun. discriminate Hrun.
Qed.

Lemma collectSubDependencies_turns_bounded_witness :
  ends (collectSubDependencies (S (size cycle_files)) (cycle_inspected ["quit"])).
Proof.
  destruct (collectSubDependencies_turns_bounded cycle_files (cycle_inspected ["quit"]))
    as (_ & _ & _ & Hq & _).
  - apply cycle_graph.
  - apply Hq. vm_compute. apply list_elem_of_here.
Defined.

(** ** C6 *)

(** [/bin/tool] is linked against the system library only: once inspected
    it is in [deps_collected] and has no entry in [deps_per_file]. *)
Lemma inspected_file_without_index :
  collectDependencies "/bin/tool" tool_start = Ret tt tool_inspected
  ∧ deps_collected tool_inspected !! "/bin/tool" = Some true
  ∧ deps_per_file tool_inspected !! "/bin/tool" = None.
Proof. split_and!; vm_compute; reflexivity. Qed.

Lemma index_entry_iff_inspected_with_kept_reference_witness :
  (is_Some (deps_per_file app_inspected !! "/bin/app")
   ↔ is_Some (deps_collected app_inspected !! "/bin/app")
     ∧ lists_kept_reference "/bin/app" app_inspected = true)
  ∧ (is_Some (deps_per_file tool_inspected !! "/bin/tool")
     ↔ is_Some (deps_collected tool_inspected !! "/bin/tool")
       ∧ lists_kept_reference "/bin/tool" tool_inspected = true).
Proof.
  split.
  - apply (proj1 (proj2 (proj2 index_entry_iff_inspected_with_kept_reference))
             app_start app_inspected "/bin/app"); [reflexivity|reflexivity|].
    apply rtc_once, (inspects_file "/bin/app"). vm_compute; reflexivity.
  - apply (proj1 (proj2 (proj2 index_entry_iff_inspected_with_kept_reference))
             tool_start tool_inspected "/bin/tool"); [reflexivity|reflexivity|].
    apply rtc_once, (inspects_file "/bin/tool"). vm_compute; reflexivity.
Defined.

(** ** C7 *)


(** On a machine given by tables no command changes the machine. *)
Lemma demo_same_answers (w1 w2 : Machine) : answers_alike w1 w2 → same_answers w1 w2.
Proof.
  intros Hw acts.
  assert (∀ w : Machine, machine_after w acts = w) as Hafter.
  { induction acts as [|[] acts IH]; intros w; [done|apply IH..]. }
  by rewrite !Hafter.
Qed.

Lemma app_machine_again_same_answers : same_answers app_machine app_machine_again.
Proof.
  apply demo_same_answers. split_and!; try done.
  intros p. simpl. apply bool_decide_ext. rewrite !elem_of_cons. tauto.
Qed.


(** ** C8 *)

(** A reference with a blank at its end: the resolved file, and the
    original path of the dependency, lack the blank. *)
Lemma trailing_blank_is_not_kept :
  isRpath "/opt/lib/libfoo.dylib " = false
  ∧ realpath (world moved_start) "/opt/lib/libfoo.dylib " = None
  ∧ realpath (world moved_start) (rtrim "/opt/lib/libfoo.dylib ") = None
  ∧ Dependency_ctor "/opt/lib/libfoo.dylib " "/bin/app" moved_start
    = Ret (mkDependency "libfoo.dylib" "/opt/lib/" [] "libfoo.dylib") moved_located
  ∧ getOriginalPath (mkDependency "libfoo.dylib" "/opt/lib/" [] "libfoo.dylib")
    ≠ "/opt/lib/libfoo.dylib ".
Proof. split_and!; try (vm_compute; reflexivity). vm_compute. discriminate. Qed.

Lemma Dependency_ctor_unresolved_reference_witness :
  resolveOriginalFile (rtrim "/opt/lib/libfoo.dylib ") "/bin/app" moved_start
  = Ret "/opt/lib/libfoo.dylib"
      (warned "/!\ WARNING : Cannot resolve path '/opt/lib/libfoo.dylib'" moved_start).
Proof.
  apply (Dependency_ctor_unresolved_reference "/opt/lib/libfoo.dylib " "/bin/app" moved_start);
    vm_compute; reflexivity.
Defined.

(** ** C9 *)

Lemma missing_prefixes_adds_bare_name_rewrites_witness :
  "install_name_tool -change " +:+ quoted "libfoo.1.dylib" +:+ " "
    +:+ quoted "@executable_path/../libs/libfoo.1.dylib" +:+ " " +:+ quoted "/bin/app"
  ∈ execs (trace (final_state (doneWithDeps_go degraded_resolved))).
Proof.
  destruct (missing_prefixes_adds_bare_name_rewrites degraded_resolved) as (_ & Hgo & _);
    [reflexivity|].
  destruct (Hgo (final_state (doneWithDeps_go degraded_resolved))) as (_ & Hfiles & _);
    [vm_compute; reflexivity|].
  apply (Hfiles "/bin/app" libfoo).
  - vm_compute. apply list_elem_of_here.
  - left. vm_compute. apply list_elem_of_here.
Defined.

(** ** C10 *)

Lemma copyFile_self_copy_skips_overwrite_check_witness :
  copyFile "/bin/app" "/bin/app" app_start = Ret tt (ran (chmod_cmd "/bin/app") app_start).
Proof.
  rewrite (proj1 copyFile_self_copy_skips_overwrite_check "/bin/app" app_start).
  reflexivity.
Defined.

(** ** Further properties *)

Lemma tokenize_terminated_witness :
  tokenize (terminated newline ["a"; EmptyString; "b c"]) [newline] = ["a"; "b c"].
Proof.
  apply (tokenize_terminated newline [newline] ["a"; EmptyString; "b c"]).
  - apply list_elem_of_here.
  - repeat constructor.
Defined.

Lemma dep_path_of_line_recovers_the_reference_witness :
  dep_path_of_line (String tab "/opt/my libs (old)/libfoo.dylib (offset 24)")
  = "/opt/my libs (old)/libfoo.dylib".
Proof.
  apply (proj1 (dep_path_of_line_recovers_the_reference
                  "/opt/my libs (old)/libfoo.dylib" "offset 24)" eq_refl)).
Defined.

Lemma fileExists_trims_the_name_witness :
  fileExists " /bin/app  " app_start = Ret true app_start.
Proof.
  exact (proj1 (fileExists_trims_the_name " " "/bin/app" "  " EmptyString app_start)
           eq_refl eq_refl ltac:(discriminate) eq_refl eq_refl).
Defined.

Lemma ignore_prefix_then_ignored_witness :
  ∃ s', ignore_prefix "/custom/ignored" default_settings = Some s'
        ∧ isPrefixBundled s' "/custom/ignored/" = false.
Proof.
  destruct (ignore_prefix_then_ignored "/custom/ignored" default_settings)
    as (s' & Hs & _ & Hb & _); [discriminate|].
  exists s'. split; [exact Hs|exact Hb].
Defined.

Lemma recorded_resolution_is_final_witness :
  searchFilenameInRpaths "@rpath/libY.dylib" "/opt/lib/libfoo.1.dylib" cached_inspected
  = Ret "/lib/libY.dylib" cached_inspected.
Proof.
  apply (recorded_resolution_is_final
           "@rpath/libY.dylib" "/lib/libY.dylib" cached_start cached_inspected).
  - vm_compute; reflexivity.
  - apply rtc_once, (inspects_file "/bin/app"). vm_compute; reflexivity.
  - discriminate.
Defined.

Lemma getUserInputDirForFile_finds_the_file_witness :
  fileExists ("/opt/alt/" +:+ "libfoo.dylib") asked = Ret true asked.
Proof.
  apply (getUserInputDirForFile_finds_the_file "libfoo.dylib" "/opt/alt/" moved_start asked).
  vm_compute; reflexivity.
Defined.

Lemma Dependency_ctor_locates_or_flags_witness :
  missing_prefixes moved_located = true
  ∧ ∃ dir, dir ∈ searchPaths (settings moved_located)
           ∧ fileExists (dir +:+ "libfoo.dylib") moved_located = Ret true moved_located.
Proof.
  destruct (Dependency_ctor_locates_or_flags "/opt/lib/libfoo.dylib " "/bin/app" moved_start
              (mkDependency "libfoo.dylib" "/opt/lib/" [] "libfoo.dylib") moved_located)
    as [_ [Hex|Hflag]].
  - vm_compute; reflexivity.
  - vm_compute; reflexivity.
  - vm_compute in Hex. discriminate Hex.
  - exact Hflag.
Defined.

Lemma Dependency_ctor_of_existing_library_witness :
  Dependency_ctor "/opt/lib/libfoo.dylib" "/bin/app" app_start = Ret libfoo app_start.
Proof.
  rewrite (Dependency_ctor_of_existing_library
             "/opt/lib/libfoo.dylib" "/bin/app" "/opt/lib/libfoo.1.dylib" app_start);
    try (vm_compute; reflexivity).
  vm_compute. discriminate.
Defined.

Lemma app_start_resolves : rtc inspects app_start app_resolved.
Proof.
  eapply rtc_l; [apply (inspects_file "/bin/app" app_start app_inspected)
                |apply rtc_once, (inspects_deps 2)]; vm_compute; reflexivity.
Qed.

Lemma registry_grows_one_entry_per_file_name_witness :
  NoDup (filename <$> deps app_resolved) ∧ ∀ d, d ∈ deps app_resolved → NoDup (symlinks d).
Proof.
  apply (proj2 (registry_grows_one_entry_per_file_name app_start app_resolved
                  app_start_resolves)).
  - apply NoDup_nil_2.
  - intros d Hd. by apply elem_of_nil in Hd.
Defined.

Lemma app_inspected_resolves : rtc inspects app_inspected app_resolved.
Proof. apply rtc_once, (inspects_deps 2). vm_compute; reflexivity. Qed.

Lemma index_lists_only_get_longer_witness :
  ∃ more, deps_per_file app_resolved !! "/bin/app" = Some ([libfoo] ++ more).
Proof.
  apply (proj1 (index_lists_only_get_longer app_inspected app_resolved
                  app_inspected_resolves)).
  vm_compute; reflexivity.
Defined.

Lemma collectSubDependencies_reaches_fixed_point_witness :
  collectSubDependencies 1 app_resolved = Ret tt app_resolved.
Proof.
  destruct (collectSubDependencies_reaches_fixed_point 2 app_inspected app_resolved)
    as [_ Hfix]; [vm_compute; reflexivity|].
  apply Hfix.
  assert (deps app_resolved
          = [mkDependency "libfoo.1.dylib" "/opt/lib/" ["/opt/lib/libfoo.dylib"]
               "libfoo.1.dylib"]) as -> by (vm_compute; reflexivity).
  intros d ->%list_elem_of_singleton. reflexivity.
Defined.

Lemma collectDependencies_unreadable_file_is_fatal_witness :
  ∃ st', collectDependencies "/bin/missing" tool_start = Stop (ExitCode 1) st'
         ∧ deps_collected st' = deps_collected tool_start.
Proof.
  destruct (collectDependencies_unreadable_file_is_fatal "/bin/missing" tool_start)
    as (st' & Hrun & _ & _ & _ & Hcol); try (vm_compute; reflexivity).
  exists st'. split; [exact Hrun|exact Hcol].
Defined.

Lemma collectDependencies_lines_begin_with_tab_witness :
  Forall (λ line, ∃ rest, line = String tab rest)
    [String tab "/opt/lib/libfoo.dylib (offset 24)";
     String tab "/usr/lib/libSystem.B.dylib (offset 24)"].
Proof.
  apply (collectDependencies_lines_begin_with_tab "/bin/app" app_start _ app_start).
  vm_compute; reflexivity.
Defined.

Lemma copyYourself_installs_the_library_witness :
  trace installed
  = trace app_start
    ++ (Exec <$> [cp_cmd false "/opt/lib/libfoo.1.dylib" "./libs/libfoo.1.dylib";
                  chmod_cmd "./libs/libfoo.1.dylib";
                  "install_name_tool -id " +:+ quoted "@executable_path/../libs/libfoo.1.dylib"
                    +:+ " " +:+ quoted "./libs/libfoo.1.dylib"]).
Proof.
  apply (copyYourself_installs_the_library libfoo app_start installed).
  vm_compute; reflexivity.
Defined.

Lemma changeLibPathsOnFile_rewrites_what_the_index_lists_witness :
  changeLibPathsOnFile "/bin/app" app_inspected
  = attempt "/bin/app"
      (rewrite_cmd (settings app_inspected) libfoo "/bin/app"
         <$> ["/opt/lib/libfoo.1.dylib"; "/opt/lib/libfoo.dylib"])
      app_inspected.
Proof.
  rewrite (changeLibPathsOnFile_rewrites_what_the_index_lists "/bin/app" app_inspected).
  - vm_compute; reflexivity.
  - exists true. vm_compute; reflexivity.
Defined.

Lemma fixing_files_changes_them_in_place_witness :
  ∃ cmds, execs (trace (final_state (doneWithDeps_go fixing_start)))
          = execs (trace fixing_start) ++ cmds
    ∧ Forall (λ cmd, ∃ f, f ∈ files (settings fixing_start)
                ∧ (cmd = "chmod +w " +:+ quoted f
                   ∨ (∃ old new,
                        cmd = "install_name_tool -change " +:+ quoted old +:+ " "
                              +:+ quoted new +:+ " " +:+ quoted f)
                   ∨ (∃ rpath,
                        cmd = "install_name_tool -rpath " +:+ quoted rpath +:+ " "
                              +:+ quoted (inside_path_str (settings fixing_start)) +:+ " "
                              +:+ quoted f))) cmds.
Proof.
  apply (fixing_files_changes_them_in_place fixing_start); reflexivity.
Defined.

Lemma adhocCodeSign_workaround_is_best_effort_witness :
  ∃ st', adhocCodeSign "/bin/app" unsigned_start = Ret tt st'
    ∧ execs (trace st')
      = execs (trace unsigned_start)
        ++ [codesign_cmd "/bin/app";
            "cp -p " +:+ quoted "/bin/app" +:+ " "
              +:+ quoted ("/tmp/dylibbundler.XXXXXXXX" +:+ "/" +:+ stripPrefix "/bin/app");
            "mv -f "
              +:+ quoted ("/tmp/dylibbundler.XXXXXXXX" +:+ "/" +:+ stripPrefix "/bin/app")
              +:+ " " +:+ quoted "/bin/app";
            "rm -rf " +:+ quoted "/tmp/dylibbundler.XXXXXXXX";
            codesign_cmd "/bin/app"].
Proof.
  apply (proj2 (proj2 (adhocCodeSign_workaround_is_best_effort
                         "/bin/app" "/tmp/" "/tmp/dylibbundler.XXXXXXXX" unsigned_start)));
    vm_compute; reflexivity.
Defined.

Lemma main_without_task_ends_at_once_witness :
  main 0 ["dylibbundler"; "-od"; "-s"; "/opt/lib"] app_start
  = Stop (ExitCode 0)
      (final_state (parseArguments 0 ["dylibbundler"; "-od"; "-s"; "/opt/lib"] app_start)).
Proof.
  rewrite (proj1 (main_without_task_ends_at_once 0 ["dylibbundler"; "-od"; "-s"; "/opt/lib"]
                    app_start eq_refl eq_refl ltac:(repeat constructor))).
  vm_compute; reflexivity.
Defined.

Lemma initSearchPaths_adds_the_environment_witness :
  initSearchPaths env_start
  = Ret tt (set_settings
              (set_searchPaths ["/opt/lib/"; "/opt/local/lib/"; "/usr/local/lib/"]
                 (settings env_start)) env_start).
Proof.
  rewrite (proj1 (initSearchPaths_adds_the_environment env_start)).
  - vm_compute; reflexivity.
  - vm_compute. repeat constructor; discriminate.
Defined.

Lemma scanRpaths_records_the_rpath_witness :
  scanRpaths "/bin/app" (load_rpath "@loader_path/../lib") false app_start
  = Ret tt
      (set_rpaths_per_file
         (<["/bin/app" := at_key "/bin/app" [] (rpaths_per_file app_start)
                          ++ ["@loader_path/../lib"]]> (rpaths_per_file app_start))
         app_start).
Proof.
  apply (scanRpaths_records_the_rpath "/bin/app" "          cmd LC_RPATH" "      cmdsize 32"
           "         " "@loader_path/../lib" "offset 12)" [] app_start); reflexivity.
Defined.
